(** * Puzzle minigame cores: ring sorting, gradient tiles, falling-piece layout

    A shallow embedding of the pure logic modules of the minigames
    repository, and the properties of those modules stated in its
    specification.

    - [Sorting]  : [games/SortingGame/gameLogic.ts]  (class [SortingGameLogic])
    - [Gradient] : [games/GradientGame/gameLogic.ts] ([shuffleTiles], [swapTiles], ...)
    - [Tetris]   : [games/TetrisPuzzle/gameLogic.ts] ([generatePieceLayout], ...)

    JavaScript arrays are lists (index 0 first); an array that the source
    updates in place is threaded through the functions that update it.  A
    read of a property of [undefined] raises a [TypeError] in JavaScript:
    the functions in which that can happen return a [completion]. *)

From Stdlib Require Import ZArith QArith Qround Lia List Permutation.
From Stdlib Require Import String Ascii DecimalString DecimalNat.
From stdpp Require Import base list strings gmap.
Import ListNotations.

Local Open Scope string_scope.
Local Open Scope list_scope.
Local Open Scope nat_scope.

(** ** Common definitions *)

(** The completion of a JavaScript call: it returns a value or throws
    the [TypeError] of a property read on [undefined]. *)
Inductive completion (A : Type) : Type :=
| Normal (a : A)
| TypeError.
Arguments Normal {A} a.
Arguments TypeError {A}.

(** [arr[i]] for a JavaScript number [i] that is an integer: [undefined]
    ([None]) below 0 and at or above the length. *)
Definition getIndex {A : Type} (arr : list A) (i : Z) : option A :=
  if (i <? 0)%Z then None else arr !! Z.to_nat i.

(** [Math.floor(r * n)] for the value [r] returned by a random number
    generator; the double [r] is taken as the rational it denotes. *)
Definition floorMul (r : Q) (n : nat) : Z :=
  Qfloor (r * inject_Z (Z.of_nat n)).

(** [[result[i], result[j]] = [result[j], result[i]]] for indices inside
    the array (the only case the shuffles below reach when the generator
    returns values in [0,1)). *)
Definition swapAt {A : Type} (i j : nat) (result : list A) : list A :=
  match result !! i, result !! j with
  | Some ri, Some rj => <[j:=ri]> (<[i:=rj]> result)
  | _, _ => result
  end.

(** A [for] loop over [start, start+1, ..., start+n-1] whose body may leave
    the enclosing function with a value ([Some]); [None] when the loop runs
    to its end. *)
Fixpoint forUpTo {A : Type} (n start : nat) (body : nat -> option A) : option A :=
  match n with
  | O => None
  | S n' =>
      match body start with
      | Some a => Some a
      | None => forUpTo n' (S start) body
      end
  end.

(** ** Tower-Sort engine *)

Module Sorting.

Record Ring : Type := mkRing { id : string; color : string }.

Record DifficultyConfig : Type := mkConfig { pegs : nat; height : nat; colors : nat }.

Inductive DifficultyLevel : Type := easy | medium | hard | extreme | insane.

Inductive MoveResult : Type := ok | invalid | win | deadlock.

Definition DIFFICULTY_LEVELS (d : DifficultyLevel) : DifficultyConfig :=
  match d with
  | easy => mkConfig 7 7 5
  | medium => mkConfig 8 8 6
  | hard => mkConfig 9 9 7
  | extreme => mkConfig 10 10 8
  | insane => mkConfig 14 8 6
  end.

Definition ALL_COLORS : list string :=
  [ "#f44336"; "#ff9800"; "#ffc107"; "#4caf50";
    "#2196f3"; "#9c27b0"; "#e5e5e5"; "#323232" ].

Definition _maxHistorySize : nat := 200.

(** [getTopBlockSize]: the loop walks down from the ring below the top
    while the colour stays the colour of the top ring. *)
Fixpoint countWhileColor (topColor : string) (below : list Ring) : nat :=
  match below with
  | [] => 0
  | r :: rest => if String.eqb (color r) topColor then S (countWhileColor topColor rest) else 0
  end.

Definition getTopBlockSize (peg : list Ring) : nat :=
  match reverse peg with
  | [] => 0
  | top :: below => 1 + countWhileColor (color top) below
  end.

(** The object: the private fields of the class.  [_randomCalls] counts the
    calls made so far to the injected generator [_random], whose [k]-th
    call returns [random k]. *)
Record SortingGameLogic : Type := mkGame {
  _state : list (list Ring);
  _history : list (list (list Ring));
  _config : DifficultyConfig;
  _colors : list string;
  _nextRingId : nat;
  _randomCalls : nat
}.

Definition with_state (g : SortingGameLogic) (s : list (list Ring)) : SortingGameLogic :=
  mkGame s (_history g) (_config g) (_colors g) (_nextRingId g) (_randomCalls g).

Definition with_history (g : SortingGameLogic) (h : list (list (list Ring))) : SortingGameLogic :=
  mkGame (_state g) h (_config g) (_colors g) (_nextRingId g) (_randomCalls g).

(** [`ring-${n}`] *)
Definition ringIdOf (n : nat) : string :=
  String.append "ring-" (NilZero.string_of_uint (Nat.to_uint n)).

(** [canMove] *)
Definition canMove (g : SortingGameLogic) (from to : Z) : completion bool :=
  let source := getIndex (_state g) from in
  let target := getIndex (_state g) to in
  match source with
  | None => Normal false
  | Some source =>
      match last source with
      | None => Normal false
      | Some top =>
          let topColor := color top in
          let blockSize := getTopBlockSize source in
          match target with
          | None => TypeError
          | Some target =>
              let wrongColor :=
                match last target with
                | Some targetTop => negb (String.eqb (color targetTop) topColor)
                | None => false
                end in
              if wrongColor then Normal false
              else if height (_config g) <? length target + blockSize then Normal false
              else Normal true
          end
      end
  end.

(** [pushHistory] *)
Definition copyState (s : list (list Ring)) : list (list Ring) :=
  map (fun peg => map (fun r => mkRing (id r) (color r)) peg) s.

Definition pushHistory (g : SortingGameLogic) : SortingGameLogic :=
  let copy := copyState (_state g) in
  let h := _history g ++ [copy] in
  with_history g (if _maxHistorySize <? length h then tail h else h).

(** [checkWin] *)
Fixpoint countPegColors (ps : list (list Ring)) (h : nat)
    (colorCounts : gmap string nat) : option (gmap string nat) :=
  match ps with
  | [] => Some colorCounts
  | peg :: rest =>
      match peg with
      | [] => countPegColors rest h colorCounts
      | r0 :: _ =>
          if negb (length peg =? h) then None
          else
            let pegColor := color r0 in
            if negb (forallb (fun r => String.eqb (color r) pegColor) peg) then None
            else countPegColors rest h
                   (<[pegColor := default 0 (colorCounts !! pegColor) + 1]> colorCounts)
      end
  end.

Definition checkWin (g : SortingGameLogic) : bool :=
  let pegsPerColor : Q :=
    (Z.of_nat (pegs (_config g)) - 2)%Z # Pos.of_nat (length (_colors g)) in
  match countPegColors (_state g) (height (_config g)) ∅ with
  | None => false
  | Some colorCounts =>
      forallb (fun c =>
                 match colorCounts !! c with
                 | Some n => Qeq_bool (inject_Z (Z.of_nat n)) pegsPerColor
                 | None => false
                 end) (_colors g)
  end.

(** [isDeadlocked] *)
Definition isDeadlocked (g : SortingGameLogic) : completion bool :=
  let n := length (_state g) in
  match
    forUpTo n 0 (fun from =>
      forUpTo n 0 (fun to =>
        if from =? to then None
        else match canMove g (Z.of_nat from) (Z.of_nat to) with
             | Normal true => Some (Normal false)
             | Normal false => None
             | TypeError => Some TypeError
             end))
  with
  | Some r => r
  | None => Normal true
  end.

(** [getHint] *)
Definition getHint (g : SortingGameLogic) : completion (option (nat * nat)) :=
  let n := length (_state g) in
  match
    forUpTo n 0 (fun from =>
      forUpTo n 0 (fun to =>
        if from =? to then None
        else match canMove g (Z.of_nat from) (Z.of_nat to) with
             | Normal true => Some (Normal (Some (from, to)))
             | Normal false => None
             | TypeError => Some TypeError
             end))
  with
  | Some r => r
  | None => Normal None
  end.

(** [hasPeg] *)
Definition hasPeg (g : SortingGameLogic) (index : Z) : bool :=
  match getIndex (_state g) index with
  | Some peg => 0 <? length peg
  | None => false
  end.

(** [move]: the completion of the call and the object after it. *)
Definition move (g : SortingGameLogic) (from to : Z)
    : completion MoveResult * SortingGameLogic :=
  match canMove g from to with
  | TypeError => (TypeError, g)
  | Normal false => (Normal invalid, g)
  | Normal true =>
      let g1 := pushHistory g in
      let st := _state g1 in
      let source := default [] (getIndex st from) in
      let blockSize := getTopBlockSize source in
      let moving := drop (length source - blockSize) source in
      let st1 := <[Z.to_nat from := take (length source - blockSize) source]> st in
      let st2 := <[Z.to_nat to := default [] (getIndex st1 to) ++ moving]> st1 in
      let g2 := with_state g1 st2 in
      if checkWin g2 then (Normal win, g2)
      else match isDeadlocked g2 with
           | TypeError => (TypeError, g2)
           | Normal true => (Normal deadlock, g2)
           | Normal false => (Normal ok, g2)
           end
  end.

(** [undo] *)
Definition undo (g : SortingGameLogic) : bool * SortingGameLogic :=
  match last (_history g) with
  | None => (false, g)
  | Some prev =>
      (true, mkGame prev (removelast (_history g)) (_config g) (_colors g)
                    (_nextRingId g) (_randomCalls g))
  end.

Section Construction.

(** The injected generator: [random k] is the value of its [k]-th call. *)
Variable random : nat -> Q.

(** [shuffleArray] *)
Fixpoint shuffleLoop {A : Type} (i : nat) (calls : nat) (result : list A)
    : list A * nat :=
  match i with
  | O => (result, calls)
  | S i' =>
      let j := Z.to_nat (floorMul (random calls) (i + 1)) in
      shuffleLoop i' (S calls) (swapAt i j result)
  end.

Definition shuffleArray {A : Type} (array : list A) (calls : nat) : list A * nat :=
  shuffleLoop (length array - 1) calls array.

(** [createInitialState] *)
Definition ringsPool (colors : list string) (firstId totalSlots : nat) : list Ring :=
  map (fun i => mkRing (ringIdOf (firstId + i))
                       (default "" (colors !! (i mod length colors))))
      (seq 0 totalSlots).

Fixpoint deal (filled : nat) (h : nat) (shuffled : list Ring) : list (list Ring) :=
  match filled with
  | O => []
  | S n => take h shuffled :: deal n h (drop h shuffled)
  end.

Definition createInitialState (g : SortingGameLogic)
    : list (list Ring) * nat * nat :=
  let cfg := _config g in
  let totalSlots := (pegs cfg - 2) * height cfg in
  let pool := ringsPool (_colors g) (_nextRingId g) totalSlots in
  let '(shuffled, calls) := shuffleArray pool (_randomCalls g) in
  (deal (pegs cfg - 2) (height cfg) shuffled
     ++ replicate (pegs cfg - (pegs cfg - 2)) [],
   _nextRingId g + totalSlots, calls).

(** [reset] *)
Definition reset (g : SortingGameLogic) : SortingGameLogic :=
  let '(st, nextId, calls) := createInitialState g in
  mkGame st [] (_config g) (_colors g) nextId calls.

(** [constructor] *)
Definition construct (difficulty : DifficultyLevel) : SortingGameLogic :=
  let cfg := DIFFICULTY_LEVELS difficulty in
  reset (mkGame [] [] cfg (take (colors cfg) ALL_COLORS) 0 0).

End Construction.

End Sorting.

(** ** Specification-side notions for the Tower-Sort engine *)

Module SortingSpec.
Import Sorting.

(** [n] is the size of the block at the top of [peg]: the maximal run of
    rings, counted from the top, that have the colour of the top ring. *)
Definition isTopBlock (peg : list Ring) (n : nat) : Prop :=
  match last peg with
  | None => n = 0
  | Some top =>
      1 <= n <= length peg /\
      (forall r, r ∈ drop (length peg - n) peg -> color r = color top) /\
      (n < length peg ->
       exists r, peg !! (length peg - S n) = Some r /\ color r <> color top)
  end.

(** The public operations a caller can apply to the object. *)
Inductive Op : Type :=
| OpMove (from to : Z)
| OpUndo
| OpReset
| OpGetHint
| OpCheckWin.

Section Runs.
Variable random : nat -> Q.

(** The object after one call (a call that throws leaves the object as
    the call left it; [getHint] and [checkWin] only read it). *)
Definition exec (g : SortingGameLogic) (op : Op) : SortingGameLogic :=
  match op with
  | OpMove from to => snd (move g from to)
  | OpUndo => snd (undo g)
  | OpReset => reset random g
  | OpGetHint => g
  | OpCheckWin => g
  end.

Definition run (ops : list Op) (g : SortingGameLogic) : SortingGameLogic :=
  fold_left exec ops g.
End Runs.

(** All rings on the pegs, peg by peg, bottom to top. *)
Definition allRings (g : SortingGameLogic) : list Ring := concat (_state g).

(** The pool of rings a fresh object of the given difficulty is built from. *)
Definition initialPool (d : DifficultyLevel) : list Ring :=
  let cfg := DIFFICULTY_LEVELS d in
  ringsPool (take (colors cfg) ALL_COLORS) 0 ((pegs cfg - 2) * height cfg).

(** The pegs after the block has been carried over, as [move] computes
    them from the pegs [st] it starts from. *)
Definition movedPegs (st : list (list Ring)) (from to : Z) : list (list Ring) :=
  let source := default [] (getIndex st from) in
  let blockSize := getTopBlockSize source in
  let st1 := <[Z.to_nat from := take (length source - blockSize) source]> st in
  <[Z.to_nat to := default [] (getIndex st1 to)
                     ++ drop (length source - blockSize) source]> st1.

(** Sample states *)

(** Two rings of one colour on the first of two pegs of height 2. *)
Definition twoPegs : SortingGameLogic :=
  mkGame [[mkRing "ring-0" "#f44336"; mkRing "ring-1" "#f44336"]; []] []
         (mkConfig 2 2 1) ["#f44336"] 2 0.

(** The same pegs with a full history. *)
Definition twoPegsFullHistory : SortingGameLogic :=
  with_history twoPegs (replicate 200 (_state twoPegs)).

End SortingSpec.

(** ** Tile-Gradient engine *)

Module Gradient.

Record Tile : Type := mkTile {
  id : string;
  color : string;
  correctIndex : nat;
  isAnchor : bool
}.

Record CornerColors : Type := mkCorners {
  topLeft : string; topRight : string; bottomLeft : string; bottomRight : string
}.

Record LevelConfig : Type := mkLevel {
  cols : nat;
  rows : nat;
  colors : CornerColors;
  anchors : list nat
}.

(** [`tile-${i}`] *)
Definition tileIdOf (i : nat) : string :=
  String.append "tile-" (NilZero.string_of_uint (Nat.to_uint i)).

(** [tiles.every((tile, index) => tile.correctIndex === index)] *)
Fixpoint everyCorrectFrom (index : nat) (tiles : list Tile) : bool :=
  match tiles with
  | [] => true
  | tile :: rest => (correctIndex tile =? index) && everyCorrectFrom (S index) rest
  end.

(** [checkComplete] *)
Definition checkComplete (tiles : list Tile) : bool := everyCorrectFrom 0 tiles.

(** [swapTiles]: [None] is the [null] result. *)
Definition swapTiles (tiles : list Tile) (indexA indexB : Z)
    : completion (option (list Tile)) :=
  match getIndex tiles indexA with
  | None => TypeError
  | Some a =>
      if isAnchor a then Normal None
      else match getIndex tiles indexB with
           | None => TypeError
           | Some b =>
               if isAnchor b then Normal None
               else Normal (Some (swapAt (Z.to_nat indexA) (Z.to_nat indexB) tiles))
           end
  end.

(** The loop that collects the non-anchor indices, from index [i] on. *)
Fixpoint collectNonAnchors (i : nat) (result : list Tile) : list nat :=
  match result with
  | [] => []
  | tile :: rest =>
      if isAnchor tile then collectNonAnchors (S i) rest
      else i :: collectNonAnchors (S i) rest
  end.

Section Generation.

(** The colour [bilinearInterpolate] gives the tile at index [i] of a
    level.  It is computed in floating point from the corner colours and
    the position; nothing below depends on its value. *)
Variable tileColor : LevelConfig -> nat -> string.

(** [generateTiles] *)
Definition generateTiles (level : LevelConfig) : list Tile :=
  map (fun i => mkTile (tileIdOf i) (tileColor level i) i
                       (existsb (Nat.eqb i) (anchors level)))
      (seq 0 (cols level * rows level)).

(** [Math.random]: [random k] is the value of its [k]-th call. *)
Variable random : nat -> Q.

(** The Fisher-Yates loop over the non-anchor positions. *)
Fixpoint shuffleNonAnchors (nonAnchorIndices : list nat) (i : nat) (calls : nat)
    (result : list Tile) : list Tile * nat :=
  match i with
  | O => (result, calls)
  | S i' =>
      let j := Z.to_nat (floorMul (random calls) (i + 1)) in
      let result' :=
        match nonAnchorIndices !! i, nonAnchorIndices !! j with
        | Some indexI, Some indexJ => swapAt indexI indexJ result
        | _, _ => result
        end in
      shuffleNonAnchors nonAnchorIndices i' (S calls) result'
  end.

(** [shuffleTiles], started when [Math.random] has been called [calls]
    times: the shuffled array and the number of calls made. *)
Definition shuffleTiles (tiles : list Tile) (calls : nat) : list Tile * nat :=
  let nonAnchorIndices := collectNonAnchors 0 tiles in
  let '(result, calls') :=
    shuffleNonAnchors nonAnchorIndices (length nonAnchorIndices - 1) calls tiles in
  let isSolved := everyCorrectFrom 0 result in
  if isSolved && (2 <=? length nonAnchorIndices) then
    match nonAnchorIndices with
    | i :: j :: _ => (swapAt i j result, calls')
    | _ => (result, calls')
    end
  else (result, calls').

End Generation.

End Gradient.

(** ** Sample data for the Tile-Gradient engine *)

Module GradientSpec.
Import Gradient.

(** A 2 by 2 level without anchors, all tiles black. *)
Definition smallLevel : LevelConfig :=
  mkLevel 2 2 (mkCorners "#000000" "#000000" "#000000" "#000000") [].

(** Two tiles in their solved places, neither an anchor. *)
Definition twoTiles : list Tile :=
  [mkTile "tile-0" "#000000" 0 false; mkTile "tile-1" "#ffffff" 1 false].

End GradientSpec.

(** ** Falling-Piece layout engine *)

Module Tetris.

(** The seven piece kinds ['I' | 'O' | 'T' | 'S' | 'Z' | 'J' | 'L']. *)
Inductive TetrominoType : Type := tI | tO | tT | tS | tZ | tJ | tL.

Abbreviation Cell := (Z * Z)%type.

Local Open Scope Z_scope.

Definition TETROMINO_SHAPES (type : TetrominoType) : list (list Cell) :=
  match type with
  | tI => [ [(0, 0); (0, 1); (0, 2); (0, 3)];
            [(0, 0); (1, 0); (2, 0); (3, 0)];
            [(0, 0); (0, 1); (0, 2); (0, 3)];
            [(0, 0); (1, 0); (2, 0); (3, 0)] ]
  | tO => [ [(0, 0); (0, 1); (1, 0); (1, 1)];
            [(0, 0); (0, 1); (1, 0); (1, 1)];
            [(0, 0); (0, 1); (1, 0); (1, 1)];
            [(0, 0); (0, 1); (1, 0); (1, 1)] ]
  | tT => [ [(0, 0); (0, 1); (0, 2); (1, 1)];
            [(0, 0); (1, 0); (1, 1); (2, 0)];
            [(0, 1); (1, 0); (1, 1); (1, 2)];
            [(0, 1); (1, 0); (1, 1); (2, 1)] ]
  | tS => [ [(0, 1); (0, 2); (1, 0); (1, 1)];
            [(0, 0); (1, 0); (1, 1); (2, 1)];
            [(0, 1); (0, 2); (1, 0); (1, 1)];
            [(0, 0); (1, 0); (1, 1); (2, 1)] ]
  | tZ => [ [(0, 0); (0, 1); (1, 1); (1, 2)];
            [(0, 1); (1, 0); (1, 1); (2, 0)];
            [(0, 0); (0, 1); (1, 1); (1, 2)];
            [(0, 1); (1, 0); (1, 1); (2, 0)] ]
  | tJ => [ [(0, 0); (1, 0); (1, 1); (1, 2)];
            [(0, 0); (0, 1); (1, 0); (2, 0)];
            [(0, 0); (0, 1); (0, 2); (1, 2)];
            [(0, 1); (1, 1); (2, 0); (2, 1)] ]
  | tL => [ [(0, 2); (1, 0); (1, 1); (1, 2)];
            [(0, 0); (1, 0); (2, 0); (2, 1)];
            [(0, 0); (0, 1); (0, 2); (1, 0)];
            [(0, 0); (0, 1); (1, 1); (2, 1)] ]
  end.

Record LayoutPiece : Type := mkPiece {
  type : TetrominoType;
  layoutRotation : nat;
  cells : list Cell
}.

(** *** The seeded generator *)

Definition toUint32 (x : Z) : Z := x mod 4294967296.

Definition toInt32 (x : Z) : Z :=
  let u := toUint32 x in
  if 2147483648 <=? u then u - 4294967296 else u.

(** [a ^ b], [a >>> n], [a | b], [Math.imul(a, b)] *)
Definition xor32 (a b : Z) : Z := Z.lxor (toInt32 a) (toInt32 b).
Definition ushr32 (a n : Z) : Z := Z.shiftr (toUint32 a) n.
Definition or32 (a b : Z) : Z := Z.lor (toInt32 a) (toInt32 b).
Definition imul (a b : Z) : Z := toInt32 (toInt32 a * toInt32 b).

(** [mulberry32(seed)] returns a closure over the variable [seed]; the
    state of the closure is the value of that variable. *)
Definition mulberry32 (seed : Z) : Z := seed.

(** One call of the closure: the value returned and the new value of the
    captured variable. *)
Definition random (seed : Z) : Q * Z :=
  let seed := seed + 1831565813 in
  let t := seed in
  let t := imul (xor32 t (ushr32 t 15)) (or32 t 1) in
  let t := xor32 t (t + imul (xor32 t (ushr32 t 7)) (or32 t 61)) in
  (toUint32 (xor32 t (ushr32 t 14)) # 4294967296, seed).

(** *** The grid of used cells *)

Abbreviation Grid := (list (list bool)).

Definition emptyGrid (fieldWidth fieldHeight : nat) : Grid :=
  replicate fieldHeight (replicate fieldWidth false).

(** [used[r][c]] as a condition.  Every such read in the source is made
    at a position inside the grid (the guards before it see to that), where
    this is the value stored. *)
Definition usedAt (used : Grid) (r c : Z) : bool :=
  match getIndex used r with
  | Some line => default false (getIndex line c)
  | None => false
  end.

(** [used[r][c] = true], at a position inside the grid. *)
Definition setUsed (used : Grid) (cell : Cell) : Grid :=
  let '(r, c) := cell in
  match getIndex used r with
  | Some line =>
      if c <? 0 then used
      else <[Z.to_nat r := <[Z.to_nat c := true]> line]> used
  | None => used
  end.

Definition markCells (used : Grid) (cs : list Cell) : Grid :=
  fold_left setUsed cs used.

(** [isPieceGrounded] *)
Definition columnBottomsOf (cs : list Cell) : gmap Z Z :=
  fold_left
    (fun (columnBottoms : gmap Z Z) '(row, col) =>
       match columnBottoms !! col with
       | None => <[col := row]> columnBottoms
       | Some current =>
           if current <? row then <[col := row]> columnBottoms else columnBottoms
       end)
    cs ∅.

Definition isPieceGrounded (cs : list Cell) (used : Grid) (fieldHeight : nat) : bool :=
  forallb
    (fun '(col, bottomRow) =>
       (bottomRow =? Z.of_nat fieldHeight - 1) || usedAt used (bottomRow + 1) col)
    (map_to_list (columnBottomsOf cs)).

Definition tetrominoTypes : list TetrominoType := [tI; tO; tT; tS; tZ; tJ; tL].

(** The state of one fill attempt: the local variables [used], [pieces]
    and [failed], and the variable captured by [random]. *)
Record FillState : Type := mkFill {
  used : Grid;
  pieces : list LayoutPiece;
  failed : bool;
  seed : Z
}.

Section Layout.

(** [Array.prototype.sort(comparefn)] of the JavaScript engine, on a copy
    of the array: the comparison function may read and update a state
    (here the variable captured by [random]); the result is the sorted
    array and the state after the last comparison.  Which comparisons
    are made, and the order that results when they are inconsistent, is
    left to the engine. *)
Variable arraySort :
  forall (A St : Type), (A -> A -> St -> Q * St) -> list A -> St -> list A * St.

(** [[...xs].sort(() => random() - 0.5)] *)
Definition sortRandomly {A : Type} (xs : list A) (seed : Z) : list A * Z :=
  arraySort A Z
    (fun _ _ s => let '(r, s') := random s in ((r - (1 # 2))%Q, s'))
    xs seed.

Variables fieldWidth fieldHeight : nat.

Definition allValid (used : Grid) (cs : list Cell) : bool :=
  forallb
    (fun '(nr, nc) =>
       (0 <=? nr) && (nr <? Z.of_nat fieldHeight)
       && (0 <=? nc) && (nc <? Z.of_nat fieldWidth)
       && negb (usedAt used nr nc))
    cs.

(** The loop over [shapeIdx]: [anchors] are the cells of [shape] still to
    be tried as the cell put on [(row, col)]. *)
Fixpoint tryAnchors (shape anchors : list Cell) (used : Grid) (row col : Z)
    : option (list Cell) :=
  match anchors with
  | [] => None
  | (anchorDr, anchorDc) :: rest =>
      let baseRow := row - anchorDr in
      let baseCol := col - anchorDc in
      let cs := map (fun pos : Cell => (baseRow + fst pos, baseCol + snd pos)) shape in
      if allValid used cs && isPieceGrounded cs used fieldHeight then Some cs
      else tryAnchors shape rest used row col
  end.

(** The loop over [shuffledRotations]; reading [shape.length] of a shape
    that does not exist throws. *)
Fixpoint tryRotations (type : TetrominoType) (rotations : list nat)
    (used : Grid) (row col : Z) : completion (option (nat * list Cell)) :=
  match rotations with
  | [] => Normal None
  | rotIdx :: rest =>
      match TETROMINO_SHAPES type !! rotIdx with
      | None => TypeError
      | Some shape =>
          match tryAnchors shape shape used row col with
          | Some cs => Normal (Some (rotIdx, cs))
          | None => tryRotations type rest used row col
          end
      end
  end.

(** The loop over [shuffledTypes] *)
Fixpoint tryTypes (types : list TetrominoType) (used : Grid) (row col : Z)
    (seed : Z) : completion (option LayoutPiece * Z) :=
  match types with
  | [] => Normal (None, seed)
  | type :: rest =>
      let '(shuffledRotations, seed) := sortRandomly [0; 1; 2; 3]%nat seed in
      match tryRotations type shuffledRotations used row col with
      | TypeError => TypeError
      | Normal (Some (rotIdx, cs)) => Normal (Some (mkPiece type rotIdx cs), seed)
      | Normal None => tryTypes rest used row col seed
      end
  end.

(** The body of the loop over [col] *)
Definition fillCell (row col : Z) (st : FillState) : completion FillState :=
  if usedAt (used st) row col then Normal st
  else
    let '(shuffledTypes, seed1) := sortRandomly tetrominoTypes (seed st) in
    match tryTypes shuffledTypes (used st) row col seed1 with
    | TypeError => TypeError
    | Normal (Some piece, seed2) =>
        Normal (mkFill (markCells (used st) (cells piece))
                       (pieces st ++ [piece]) (failed st) seed2)
    | Normal (None, seed2) =>
        Normal (mkFill (used st) (pieces st)
                       (if negb (usedAt (used st) row col) then true else failed st)
                       seed2)
    end.

(** [for (let col = ...; col < fieldWidth && !failed; col++)], with [n]
    columns left *)
Fixpoint scanCols (n : nat) (col : nat) (row : Z) (st : FillState)
    : completion FillState :=
  match n with
  | O => Normal st
  | S n' =>
      if failed st then Normal st
      else match fillCell row (Z.of_nat col) st with
           | TypeError => TypeError
           | Normal st' => scanCols n' (S col) row st'
           end
  end.

(** [for (let row = n - 1; row >= 0 && !failed; row--)] *)
Fixpoint scanRows (n : nat) (st : FillState) : completion FillState :=
  match n with
  | O => Normal st
  | S row =>
      if failed st then Normal st
      else match scanCols fieldWidth 0 (Z.of_nat row) st with
           | TypeError => TypeError
           | Normal st' => scanRows row st'
           end
  end.

(** The check that no cell is left unused. *)
Definition isComplete (used : Grid) : bool :=
  forallb
    (fun r => forallb (fun c => usedAt used (Z.of_nat r) (Z.of_nat c))
                      (seq 0 fieldWidth))
    (seq 0 fieldHeight).

(** One turn of the loop over [attempt] *)
Definition attempt (seed : Z) : completion (option (list LayoutPiece) * Z) :=
  match scanRows fieldHeight (mkFill (emptyGrid fieldWidth fieldHeight) [] false seed) with
  | TypeError => TypeError
  | Normal st =>
      if negb (failed st) && isComplete (used st)
      then Normal (Some (pieces st), Tetris.seed st)
      else Normal (None, Tetris.seed st)
  end.

(** [tryGenerate] *)
Fixpoint tryGenerate (maxAttempts : nat) (seed : Z)
    : completion (option (list LayoutPiece) * Z) :=
  match maxAttempts with
  | O => Normal (None, seed)
  | S n =>
      match attempt seed with
      | TypeError => TypeError
      | Normal (Some result, seed') => Normal (Some result, seed')
      | Normal (None, seed') => tryGenerate n seed'
      end
  end.

(** *** [generateFallbackLayout] *)

(** [for (let c = col; c < fieldWidth && !used[row][c]; c++) freeCount++],
    with at most [n] cells ahead *)
Fixpoint freeRight (n : nat) (used : Grid) (row c : Z) : nat :=
  match n with
  | O => O
  | S n' =>
      if (c <? Z.of_nat fieldWidth) && negb (usedAt used row c)
      then S (freeRight n' used row (c + 1))
      else O
  end.

(** [for (let r = row; r >= 0 && !used[r][col]; r--) freeCount++] *)
Fixpoint freeUp (n : nat) (used : Grid) (r col : Z) : nat :=
  match n with
  | O => O
  | S n' =>
      if (0 <=? r) && negb (usedAt used r col)
      then S (freeUp n' used (r - 1) col)
      else O
  end.

(** [while (col < fieldWidth) { ... }] of the first pass; every turn
    advances [col], so [fieldWidth] turns are always enough. *)
Fixpoint fallbackRow (turns : nat) (row col : Z) (st : Grid * list LayoutPiece)
    : Grid * list LayoutPiece :=
  match turns with
  | O => st
  | S turns' =>
      let '(used, pieces) := st in
      if col <? Z.of_nat fieldWidth then
        if usedAt used row col then fallbackRow turns' row (col + 1) st
        else
          let freeCount := freeRight (Z.to_nat (Z.of_nat fieldWidth - col)) used row col in
          if (4 <=? freeCount)%nat then
            let cs := [(row, col); (row, col + 1); (row, col + 2); (row, col + 3)] in
            fallbackRow turns' row (col + 4)
              (markCells used cs, pieces ++ [mkPiece tI 0 cs])
          else if (2 <=? freeCount)%nat && (1 <=? row)
                  && negb (usedAt used (row - 1) col)
                  && negb (usedAt used (row - 1) (col + 1)) then
            let cs := [(row - 1, col); (row - 1, col + 1); (row, col); (row, col + 1)] in
            fallbackRow turns' row (col + 2)
              (markCells used cs, pieces ++ [mkPiece tO 0 cs])
          else fallbackRow turns' row (col + 1) st
      else st
  end.

(** [for (let row = n - 1; row >= 0; row--)] of the first pass *)
Fixpoint fallbackRows (n : nat) (st : Grid * list LayoutPiece)
    : Grid * list LayoutPiece :=
  match n with
  | O => st
  | S row => fallbackRows row (fallbackRow fieldWidth (Z.of_nat row) 0 st)
  end.

(** [while (row >= 0) { ... }] of the second pass; every turn lowers
    [row], so [fieldHeight] turns are always enough. *)
Fixpoint fallbackCol (turns : nat) (row col : Z) (st : Grid * list LayoutPiece)
    : Grid * list LayoutPiece :=
  match turns with
  | O => st
  | S turns' =>
      let '(used, pieces) := st in
      if 0 <=? row then
        if usedAt used row col then fallbackCol turns' (row - 1) col st
        else
          let freeCount := freeUp (Z.to_nat (row + 1)) used row col in
          if (4 <=? freeCount)%nat then
            let cs := [(row, col); (row - 1, col); (row - 2, col); (row - 3, col)] in
            fallbackCol turns' (row - 4) col
              (markCells used cs, pieces ++ [mkPiece tI 1 cs])
          else fallbackCol turns' (row - 1) col st
      else st
  end.

(** [for (let col = 0; col < fieldWidth; col++)] of the second pass, with
    [n] columns left *)
Fixpoint fallbackCols (n : nat) (col : nat) (st : Grid * list LayoutPiece)
    : Grid * list LayoutPiece :=
  match n with
  | O => st
  | S n' =>
      fallbackCols n' (S col)
        (fallbackCol fieldHeight (Z.of_nat fieldHeight - 1) (Z.of_nat col) st)
  end.

Definition generateFallbackLayout : list LayoutPiece :=
  let st := fallbackRows fieldHeight (emptyGrid fieldWidth fieldHeight, []) in
  snd (fallbackCols fieldWidth 0 st).

(** [generatePieceLayout] *)
Definition generatePieceLayout (seed : Z) : completion (list LayoutPiece) :=
  let random := mulberry32 seed in
  match tryGenerate 50 random with
  | TypeError => TypeError
  | Normal (Some result, _) => Normal result
  | Normal (None, _) => Normal generateFallbackLayout
  end.

End Layout.

End Tetris.

(** ** Specification-side notions for the layout engine *)

Module TetrisSpec.
Import Tetris.
Local Open Scope Z_scope.

(** All cells of a sequence of pieces, piece by piece. *)
Definition allCells (ps : list LayoutPiece) : list Cell := concat (map cells ps).

Definition inField (fieldWidth fieldHeight : nat) (cell : Cell) : Prop :=
  0 <= fst cell < Z.of_nat fieldHeight /\ 0 <= snd cell < Z.of_nat fieldWidth.

(** The cells of the pieces partition the field: every cell listed by a
    piece lies in the field, and every cell of the field is listed exactly
    once over all the pieces. *)
Definition partitionsField (fieldWidth fieldHeight : nat) (ps : list LayoutPiece) : Prop :=
  (forall cell, cell ∈ allCells ps -> inField fieldWidth fieldHeight cell) /\
  (forall cell, inField fieldWidth fieldHeight cell ->
     length (filter (fun x => x = cell) (allCells ps)) = 1%nat).

(** A piece with cells [cs] is grounded on the cells [below]: in every
    column it occupies, its lowest cell is in the bottom row of the field or
    has the cell under it in [below]. *)
Definition groundedOn (fieldHeight : nat) (below cs : list Cell) : Prop :=
  forall r c,
    (r, c) ∈ cs ->
    (forall r', (r', c) ∈ cs -> r' <= r) ->
    r = Z.of_nat fieldHeight - 1 \/ (r + 1, c) ∈ below.

(** Every piece of the sequence [ps] is grounded on the cells [placed]
    before the sequence and the cells of the pieces before it in [ps]. *)
Fixpoint groundedAfter (fieldHeight : nat) (placed : list Cell)
    (ps : list LayoutPiece) : Prop :=
  match ps with
  | [] => True
  | p :: rest =>
      groundedOn fieldHeight placed (cells p) /\
      groundedAfter fieldHeight (placed ++ cells p) rest
  end.

Definition groundedInOrder (fieldHeight : nat) (ps : list LayoutPiece) : Prop :=
  groundedAfter fieldHeight [] ps.

(** The contract of the engine's sort used below: it returns elements of
    the array it was given. *)
Definition sortKeepsElements
    (arraySort : forall (A St : Type),
        (A -> A -> St -> Q * St) -> list A -> St -> list A * St) : Prop :=
  forall (A St : Type) (cmp : A -> A -> St -> Q * St) (xs : list A) (s : St) (x : A),
    x ∈ fst (arraySort A St cmp xs s) -> x ∈ xs.

(** One sort that meets the contract: insertion sort, which asks the
    comparison function where each element goes among those already
    sorted. *)
Fixpoint insertSorted {A St : Type} (cmp : A -> A -> St -> Q * St)
    (x : A) (sorted : list A) (s : St) : list A * St :=
  match sorted with
  | [] => ([x], s)
  | y :: rest =>
      let '(v, s1) := cmp x y s in
      if Qle_bool v 0 then (x :: y :: rest, s1)
      else let '(rest', s2) := insertSorted cmp x rest s1 in (y :: rest', s2)
  end.

Fixpoint insertionSort (A St : Type) (cmp : A -> A -> St -> Q * St)
    (xs : list A) (s : St) : list A * St :=
  match xs with
  | [] => ([], s)
  | x :: rest =>
      let '(sorted, s1) := insertionSort A St cmp rest s in
      insertSorted cmp x sorted s1
  end.

(** The grid has [fieldHeight] lines of [fieldWidth] cells. *)
Definition wfGrid (fieldWidth fieldHeight : nat) (used : Grid) : Prop :=
  length used = fieldHeight /\ Forall (fun line => length line = fieldWidth) used.

(** What a fill attempt maintains: the used cells are the cells of the
    pieces placed so far, no cell is listed twice, all lie in the field,
    and every piece was grounded when it was placed. *)
Definition fillInv (fieldWidth fieldHeight : nat) (used : Grid)
    (ps : list LayoutPiece) : Prop :=
  wfGrid fieldWidth fieldHeight used /\
  (forall r c, usedAt used r c = true <-> (r, c) ∈ allCells ps) /\
  NoDup (allCells ps) /\
  (forall cell, cell ∈ allCells ps -> inField fieldWidth fieldHeight cell) /\
  groundedInOrder fieldHeight ps.

(** Executable versions of [partitionsField] and [groundedInOrder]. *)
Definition cell_eqb (a b : Cell) : bool := (fst a =? fst b) && (snd a =? snd b).

Definition fieldCells (fieldWidth fieldHeight : nat) : list Cell :=
  r ← seq 0 fieldHeight; c ← seq 0 fieldWidth; [(Z.of_nat r, Z.of_nat c)].

Definition partitionsFieldb (fieldWidth fieldHeight : nat) (ps : list LayoutPiece) : bool :=
  forallb (fun cell : Cell =>
             (0 <=? fst cell) && (fst cell <? Z.of_nat fieldHeight)
             && (0 <=? snd cell) && (snd cell <? Z.of_nat fieldWidth))
          (allCells ps)
  && forallb (fun cell => (length (List.filter (cell_eqb cell) (allCells ps)) =? 1)%nat)
             (fieldCells fieldWidth fieldHeight).

Definition groundedOnb (fieldHeight : nat) (below cs : list Cell) : bool :=
  forallb (fun '(r, c) =>
             existsb (fun '(r', c') => (c' =? c) && (r <? r')) cs
             || (r =? Z.of_nat fieldHeight - 1)
             || existsb (cell_eqb (r + 1, c)) below)
          cs.

Fixpoint groundedAfterb (fieldHeight : nat) (placed : list Cell)
    (ps : list LayoutPiece) : bool :=
  match ps with
  | [] => true
  | p :: rest =>
      groundedOnb fieldHeight placed (cells p)
      && groundedAfterb fieldHeight (placed ++ cells p) rest
  end.

(** A placement the loops of the fill accept. *)
Definition accepted (fieldWidth fieldHeight : nat) (used : Grid) (cs : list Cell) : Prop :=
  allValid fieldWidth fieldHeight used cs = true /\
  isPieceGrounded cs used fieldHeight = true /\
  NoDup cs.

End TetrisSpec.

(** ** Further notions for the Tower-Sort engine *)

Module SortingSpec2.
Import Sorting SortingSpec.

(** A peg arrangement fits a configuration: one peg per configured peg, none
    above the configured height. *)
Definition fitsConfig (cfg : DifficultyConfig) (st : list (list Ring)) : Prop :=
  length st = pegs cfg /\ Forall (fun peg => length peg <= height cfg) st.

(** The number of rings of colour [c] among [rs]. *)
Definition countColor (c : string) (rs : list Ring) : nat :=
  length (List.filter (fun r => String.eqb (color r) c) rs).



(** The moves [ms], made one after the other from [g], are all legal. *)
Fixpoint allLegal (g : SortingGameLogic) (ms : list (Z * Z)) : Prop :=
  match ms with
  | [] => True
  | (from, to) :: rest =>
      canMove g from to = Normal true /\ allLegal (snd (move g from to)) rest
  end.

(** The object after the moves [ms], and after [n] calls of [undo]. *)
Definition moveAll (g : SortingGameLogic) (ms : list (Z * Z)) : SortingGameLogic :=
  fold_left (fun g '(from, to) => snd (move g from to)) ms g.

Definition undoTimes (n : nat) (g : SortingGameLogic) : SortingGameLogic :=
  Nat.iter n (fun g => snd (undo g)) g.

(** The rings on the pegs, and in every snapshot of the history, are a
    permutation of one pool [ringsPool colours first total]. *)
Definition fromOnePool (d : DifficultyLevel) (g : SortingGameLogic) : Prop :=
  let cfg := DIFFICULTY_LEVELS d in
  _config g = cfg /\ _colors g = take (colors cfg) ALL_COLORS /\
  exists first,
    let pool := ringsPool (take (colors cfg) ALL_COLORS) first
                          ((pegs cfg - 2) * height cfg) in
    allRings g ≡ₚ pool /\ Forall (fun s => concat s ≡ₚ pool) (_history g).

(** The body of the inner loop of [getHint]. *)
Definition hintBody (g : SortingGameLogic) (from to : nat)
    : option (completion (option (nat * nat))) :=
  if from =? to then None
  else match canMove g (Z.of_nat from) (Z.of_nat to) with
       | Normal true => Some (Normal (Some (from, to)))
       | Normal false => None
       | TypeError => Some TypeError
       end.

(** The arrangements before each of the moves [ms]. *)
Fixpoint snapshots (g : SortingGameLogic) (ms : list (Z * Z)) : list (list (list Ring)) :=
  match ms with
  | [] => []
  | (from, to) :: rest => _state g :: snapshots (snd (move g from to)) rest
  end.

End SortingSpec2.

(** ** Further notions for the Tile-Gradient engine *)

Module GradientSpec2.
Import Gradient.

(** What the Fisher-Yates loop keeps: the anchor flag at every position,
    and the tile at every anchor position. *)
Definition anchorsKept (tiles result : list Tile) : Prop :=
  (forall k, isAnchor <$> result !! k = isAnchor <$> tiles !! k) /\
  (forall k t, tiles !! k = Some t -> isAnchor t = true -> result !! k = Some t).

End GradientSpec2.

(** ** The levels of the Tile-Gradient game *)

Module GradientLevels.

Inductive TileShape : Type := square | hexagon | circle.

(** [LevelConfig] of [levels.ts]; the members [name], [description] and
    [gap], which only the display reads, are left out. *)
Record LevelConfig : Type := mkLevelConfig {
  id : string;
  cols : nat;
  rows : nat;
  colors : Gradient.CornerColors;
  anchors : list nat;
  tileShape : TileShape
}.

(** [LevelPack], without [name] and [description]. *)
Record LevelPack : Type := mkPack {
  packId : string;
  levels : list LevelConfig
}.

(** The part of a level that the engine reads. *)
Definition toLevel (level : LevelConfig) : Gradient.LevelConfig :=
  Gradient.mkLevel (cols level) (rows level) (colors level) (anchors level).

Definition LEVEL_PACKS : list LevelPack :=
  [ mkPack "tutorial"
      [ mkLevelConfig "tutorial-1" 3 3
          (Gradient.mkCorners "#cc952e" "#db4734" "#f1660f" "#e74c3c")
          [0; 2; 4; 6; 8] square;
        mkLevelConfig "tutorial-2" 4 3
          (Gradient.mkCorners "#1a1a2e" "#4a1942" "#f39c12" "#e74c3c")
          [0; 3; 8; 11] square;
        mkLevelConfig "tutorial-3" 4 4
          (Gradient.mkCorners "#0c2461" "#1e3799" "#0a3d62" "#82ccdd")
          [0; 3; 12; 15] square ];
    mkPack "forest"
      [ mkLevelConfig "forest-1" 4 4
          (Gradient.mkCorners "#1e8449" "#58d68d" "#145a32" "#82e0aa")
          [0; 3; 12; 15] square;
        mkLevelConfig "forest-2" 5 4
          (Gradient.mkCorners "#0b5345" "#1e8449" "#104728" "#abebc6")
          [0; 4; 15; 19] square;
        mkLevelConfig "forest-3" 5 5
          (Gradient.mkCorners "#0b3d0b" "#27ae60" "#1d8348" "#d5f5e3")
          [0; 4; 12; 20; 24] square;
        mkLevelConfig "forest-4" 6 5
          (Gradient.mkCorners "#0a2f0a" "#196f3d" "#145a32" "#7dcea0")
          [0; 5; 14; 15; 24; 29] square ];
    mkPack "sunset"
      [ mkLevelConfig "sunset-1" 4 4
          (Gradient.mkCorners "#1a1a2e" "#4a235a" "#f39c12" "#e74c3c")
          [0; 3; 12; 15] square;
        mkLevelConfig "sunset-2" 5 4
          (Gradient.mkCorners "#2c3e50" "#8e44ad" "#f1c40f" "#e67e22")
          [0; 4; 15; 19] square;
        mkLevelConfig "sunset-3" 5 5
          (Gradient.mkCorners "#7b241c" "#c0392b" "#f39c12" "#f7dc6f")
          [0; 4; 12; 20; 24] square;
        mkLevelConfig "sunset-4" 6 5
          (Gradient.mkCorners "#1a0a0a" "#641e16" "#c0392b" "#f5b041")
          [0; 5; 14; 15; 24; 29] circle ];
    mkPack "ocean"
      [ mkLevelConfig "ocean-1" 4 4
          (Gradient.mkCorners "#1b4f72" "#2e86ab" "#117a65" "#76d7c4")
          [0; 3; 12; 15] square;
        mkLevelConfig "ocean-2" 5 4
          (Gradient.mkCorners "#0a1628" "#1a5276" "#154360" "#85c1e9")
          [0; 4; 15; 19] square;
        mkLevelConfig "ocean-3" 5 5
          (Gradient.mkCorners "#0e6655" "#148f77" "#1abc9c" "#a3e4d7")
          [0; 4; 12; 20; 24] circle;
        mkLevelConfig "ocean-4" 6 6
          (Gradient.mkCorners "#0a192f" "#172a45" "#2980b9" "#a9cce3")
          [0; 5; 17; 18; 30; 35] square ];
    mkPack "lavender"
      [ mkLevelConfig "lavender-1" 4 4
          (Gradient.mkCorners "#4a235a" "#7d3c98" "#a569bd" "#e8daef")
          [0; 3; 12; 15] square;
        mkLevelConfig "lavender-2" 5 4
          (Gradient.mkCorners "#2e1a47" "#6c3483" "#8e44ad" "#d7bde2")
          [0; 4; 15; 19] square;
        mkLevelConfig "lavender-3" 5 5
          (Gradient.mkCorners "#1a0a2e" "#512e5f" "#76448a" "#f5eef8")
          [0; 4; 12; 20; 24] hexagon;
        mkLevelConfig "lavender-4" 6 6
          (Gradient.mkCorners "#0a0a1a" "#2c0a37" "#4a235a" "#bb8fce")
          [0; 5; 17; 18; 30; 35] circle ];
    mkPack "advanced"
      [ mkLevelConfig "advanced-1" 6 5
          (Gradient.mkCorners "#e74c3c" "#9b59b6" "#f1c40f" "#3498db")
          [0; 5; 24; 29] square;
        mkLevelConfig "advanced-2" 6 6
          (Gradient.mkCorners "#0a3d0a" "#1abc9c" "#2c3e50" "#9b59b6")
          [0; 5; 17; 18; 30; 35] square;
        mkLevelConfig "advanced-3" 7 6
          (Gradient.mkCorners "#0a0a14" "#1a1a3e" "#4a235a" "#f39c12")
          [0; 6; 20; 21; 35; 41] circle;
        mkLevelConfig "advanced-4" 7 7
          (Gradient.mkCorners "#1a2a3a" "#3a5a7a" "#5a3a1a" "#9a7a5a")
          [0; 6; 24; 42; 48] square ] ].

(** [LEVEL_PACKS.flatMap(pack => pack.levels)] *)
Definition ALL_LEVELS : list LevelConfig := flat_map levels LEVEL_PACKS.

(** [xs.findIndex(pred)]: -1 when no element passes. *)
Fixpoint findIndexFrom {A : Type} (pred : A -> bool) (index : Z) (xs : list A) : Z :=
  match xs with
  | [] => (-1)%Z
  | x :: rest => if pred x then index else findIndexFrom pred (index + 1)%Z rest
  end.

Definition findIndex {A : Type} (pred : A -> bool) (xs : list A) : Z :=
  findIndexFrom pred 0%Z xs.

(** [getLevelById] *)
Definition getLevelById (levelId : string) : option LevelConfig :=
  List.find (fun level => String.eqb (id level) levelId) ALL_LEVELS.

(** [getPackByLevelId] *)
Definition getPackByLevelId (levelId : string) : option LevelPack :=
  List.find (fun pack => existsb (fun level => String.eqb (id level) levelId) (levels pack))
            LEVEL_PACKS.

(** [getNextLevel] *)
Definition getNextLevel (currentLevelId : string) : option LevelConfig :=
  let currentIndex :=
    findIndex (fun level => String.eqb (id level) currentLevelId) ALL_LEVELS in
  if (currentIndex =? -1)%Z || (currentIndex =? Z.of_nat (length ALL_LEVELS) - 1)%Z
  then None
  else getIndex ALL_LEVELS (currentIndex + 1)%Z.

(** The checks made of every level of the table: the grid is not empty,
    the anchors are different cells of the grid and include its four
    corners, and at least two tiles are not anchors. *)
Definition distinctb (xs : list nat) : bool :=
  (fix go (l : list nat) : bool :=
     match l with
     | [] => true
     | x :: rest => negb (existsb (Nat.eqb x) rest) && go rest
     end) xs.

Definition stringsDistinct (xs : list string) : bool :=
  (fix go (l : list string) : bool :=
     match l with
     | [] => true
     | x :: rest => negb (existsb (String.eqb x) rest) && go rest
     end) xs.

Definition levelOk (level : LevelConfig) : bool :=
  let total := cols level * rows level in
  (0 <? cols level) && (0 <? rows level)
  && distinctb (anchors level)
  && forallb (fun a => a <? total) (anchors level)
  && forallb (fun corner => existsb (Nat.eqb corner) (anchors level))
             [0; cols level - 1; total - cols level; total - 1]
  && (length (anchors level) + 2 <=? total).

End GradientLevels.

(** ** Further notions for the layout engine *)

Module TetrisSpec2.
Import Tetris TetrisSpec.
Local Open Scope Z_scope.

(** The cells of the piece are those of the table's shape for its type
    and rotation, all moved by the same amount (in any order). *)
Definition isTableShape (p : LayoutPiece) : Prop :=
  exists shape baseRow baseCol,
    TETROMINO_SHAPES (type p) !! layoutRotation p = Some shape /\
    cells p ≡ₚ map (fun pos : Cell => (baseRow + fst pos, baseCol + snd pos)) shape.

(** What both the fill and the fallback maintain: the used cells are the
    cells of the pieces placed so far, no cell is listed twice, all lie in
    the field, and every piece is a shape of the table. *)
Definition layoutInv (fieldWidth fieldHeight : nat) (used : Grid)
    (ps : list LayoutPiece) : Prop :=
  wfGrid fieldWidth fieldHeight used /\
  (forall r c, usedAt used r c = true <-> (r, c) ∈ allCells ps) /\
  NoDup (allCells ps) /\
  (forall cell, cell ∈ allCells ps -> inField fieldWidth fieldHeight cell) /\
  Forall isTableShape ps.

End TetrisSpec2.

(** ** Falling-Piece play engine *)

Module TetrisPlay.
Import Tetris.
Local Open Scope Z_scope.

(** [Math.max(...xs)] and [Math.min(...xs)] for a non-empty list (every
    shape of the table is one; with no argument they are [-Infinity] and
    [Infinity]). *)
Definition mathMax (xs : list Z) : Z := fold_right Z.max (hd 0 xs) xs.
Definition mathMin (xs : list Z) : Z := fold_right Z.min (hd 0 xs) xs.

Record ShapeBounds : Type := mkBounds { rows : Z; cols : Z }.

(** [getShapeBounds]; [shape.map] on a shape that does not exist throws. *)
Definition getShapeBounds (type : TetrominoType) (rotation : Z)
    : completion ShapeBounds :=
  match getIndex (TETROMINO_SHAPES type) rotation with
  | None => TypeError
  | Some shape =>
      let maxRow := mathMax (map fst shape) in
      let maxCol := mathMax (map snd shape) in
      Normal (mkBounds (maxRow + 1) (maxCol + 1))
  end.

(** [Piece]; the numbers that are positions and rotations are integers,
    the image data is carried along unread. *)
Record Piece : Type := mkPlayPiece {
  type : TetrominoType;
  rotation : Z;
  row : Z;
  col : Z;
  targetRow : Z;
  targetCol : Z;
  targetRotation : Z;
  visualRotation : Z;
  imageDataUrl : string;
  imageWidth : Q;
  imageHeight : Q
}.

(** [PlacedPiece] has the members of [Piece]. *)
Definition PlacedPiece : Type := Piece.

(** [{ ...piece, row: r, col: c }] *)
Definition withPosition (piece : Piece) (r c : Z) : Piece :=
  mkPlayPiece (type piece) (rotation piece) r c
              (targetRow piece) (targetCol piece) (targetRotation piece)
              (visualRotation piece)
              (imageDataUrl piece) (imageWidth piece) (imageHeight piece).

(** [{ ...piece, rotation: rot, visualRotation: vis }] *)
Definition withRotation (piece : Piece) (rot vis : Z) : Piece :=
  mkPlayPiece (type piece) rot (row piece) (col piece)
              (targetRow piece) (targetCol piece) (targetRotation piece)
              vis
              (imageDataUrl piece) (imageWidth piece) (imageHeight piece).

(** [getPieceCells] *)
Definition getPieceCells (piece : Piece) : completion (list Cell) :=
  match getIndex (TETROMINO_SHAPES (type piece)) (rotation piece) with
  | None => TypeError
  | Some shape =>
      Normal (map (fun '(dr, dc) => (row piece + dr, col piece + dc)) shape)
  end.

(** [occupiedCells[row][col]] as a condition: a line that does not exist
    makes the read throw, a cell that does not exist in its line is
    [undefined]. *)
Definition readCell (occupiedCells : Grid) (row col : Z) : completion bool :=
  match getIndex occupiedCells row with
  | Some line => Normal (default false (getIndex line col))
  | None => TypeError
  end.

(** [xs.every(pred)] for a predicate that may throw. *)
Fixpoint every {A : Type} (pred : A -> completion bool) (xs : list A)
    : completion bool :=
  match xs with
  | [] => Normal true
  | x :: rest =>
      match pred x with
      | TypeError => TypeError
      | Normal false => Normal false
      | Normal true => every pred rest
      end
  end.

(** [canPlacePiece] *)
Definition canPlacePiece (piece : Piece) (occupiedCells : Grid)
    (fieldWidth fieldHeight : nat) : completion bool :=
  match getPieceCells piece with
  | TypeError => TypeError
  | Normal cells =>
      every (fun '(row, col) =>
               if (0 <=? row) && (row <? Z.of_nat fieldHeight)
                  && (0 <=? col) && (col <? Z.of_nat fieldWidth)
               then match readCell occupiedCells row col with
                    | TypeError => TypeError
                    | Normal occupied => Normal (negb occupied)
                    end
               else Normal false)
            cells
  end.

(** [movePiece]: [None] is the [null] result. *)
Definition movePiece (piece : Piece) (deltaRow deltaCol : Z)
    (occupiedCells : Grid) (fieldWidth fieldHeight : nat)
    : completion (option Piece) :=
  let newPiece := withPosition piece (row piece + deltaRow) (col piece + deltaCol) in
  match canPlacePiece newPiece occupiedCells fieldWidth fieldHeight with
  | TypeError => TypeError
  | Normal true => Normal (Some newPiece)
  | Normal false => Normal None
  end.

(** The wall kicks [rotatePiece] tries, in its order. *)
Definition wallKicks : list (Z * Z) :=
  [(0, -1); (0, 1); (0, -2); (0, 2); (-1, 0); (1, 0)].

(** The loop over the wall kicks. *)
Fixpoint tryKicks (kicks : list (Z * Z)) (piece newPiece : Piece)
    (occupiedCells : Grid) (fieldWidth fieldHeight : nat)
    : completion (option Piece) :=
  match kicks with
  | [] => Normal None
  | (kickRow, kickCol) :: rest =>
      let kickedPiece :=
        withPosition newPiece (row piece + kickRow) (col piece + kickCol) in
      match canPlacePiece kickedPiece occupiedCells fieldWidth fieldHeight with
      | TypeError => TypeError
      | Normal true => Normal (Some kickedPiece)
      | Normal false => tryKicks rest piece newPiece occupiedCells fieldWidth fieldHeight
      end
  end.

(** [rotatePiece]; [%] is the remainder with the sign of the dividend. *)
Definition rotatePiece (piece : Piece) (direction : Z)
    (occupiedCells : Grid) (fieldWidth fieldHeight : nat)
    : completion (option Piece) :=
  let newRotation := Z.rem (rotation piece + direction + 4) 4 in
  let newVisualRotation := Z.rem (visualRotation piece + direction + 4) 4 in
  let newPiece := withRotation piece newRotation newVisualRotation in
  match canPlacePiece newPiece occupiedCells fieldWidth fieldHeight with
  | TypeError => TypeError
  | Normal true => Normal (Some newPiece)
  | Normal false =>
      tryKicks wallKicks piece newPiece occupiedCells fieldWidth fieldHeight
  end.

(** [newOccupiedCells[r][c] = true]: a line that does not exist makes the
    write throw; a column at or after the end of the line extends the line
    (the cells in between read as [undefined]); a negative column sets a
    property that is not an element, which no read of this module sees. *)
Definition writeCell (newOccupiedCells : Grid) (cell : Cell) : completion Grid :=
  let '(r, c) := cell in
  match getIndex newOccupiedCells r with
  | None => TypeError
  | Some line =>
      let line' :=
        if c <? 0 then line
        else if c <? Z.of_nat (length line) then <[Z.to_nat c := true]> line
        else line ++ replicate (Z.to_nat c - length line) false ++ [true] in
      Normal (<[Z.to_nat r := line']> newOccupiedCells)
  end.

Fixpoint writeCells (newOccupiedCells : Grid) (cells : list Cell) : completion Grid :=
  match cells with
  | [] => Normal newOccupiedCells
  | cell :: rest =>
      match writeCell newOccupiedCells cell with
      | TypeError => TypeError
      | Normal grid => writeCells grid rest
      end
  end.

(** [placePiece]: the new grid and the placed piece; the grid given is
    copied first and stays as it is. *)
Definition placePiece (piece : Piece) (occupiedCells : Grid)
    : completion (Grid * PlacedPiece) :=
  let newOccupiedCells := map (fun row => row) occupiedCells in
  match getPieceCells piece with
  | TypeError => TypeError
  | Normal cells =>
      match writeCells newOccupiedCells cells with
      | TypeError => TypeError
      | Normal newOccupiedCells =>
          let placedPiece :=
            mkPlayPiece (type piece) (rotation piece) (row piece) (col piece)
                        (targetRow piece) (targetCol piece) (targetRotation piece)
                        (visualRotation piece)
                        (imageDataUrl piece) (imageWidth piece) (imageHeight piece) in
          Normal (newOccupiedCells, placedPiece)
      end
  end.

(** The loop [while (true)] of [dropPiece]; [None] when the loop has not
    left after [turns] turns. *)
Fixpoint dropLoop (turns : nat) (currentPiece : Piece) (occupiedCells : Grid)
    (fieldWidth fieldHeight : nat) : option (completion Piece) :=
  match turns with
  | O => None
  | S turns' =>
      match movePiece currentPiece 1 0 occupiedCells fieldWidth fieldHeight with
      | TypeError => Some TypeError
      | Normal None => Some (Normal currentPiece)
      | Normal (Some nextPiece) =>
          dropLoop turns' nextPiece occupiedCells fieldWidth fieldHeight
      end
  end.

(** [dropPiece].  A piece that can move is inside the field, so the loop
    leaves within [fieldHeight + 1] turns. *)
Definition dropPiece (piece : Piece) (occupiedCells : Grid)
    (fieldWidth fieldHeight : nat) : option (completion Piece) :=
  dropLoop (S fieldHeight) piece occupiedCells fieldWidth fieldHeight.

(** The test shared by [checkWinCondition] and [calculateCorrectPieces]. *)
Definition inTargetPlace (p : PlacedPiece) : bool :=
  (row p =? targetRow p) && (col p =? targetCol p)
  && (rotation p =? targetRotation p) && (visualRotation p =? 0).

(** [checkWinCondition] *)
Definition checkWinCondition (placedPieces : list PlacedPiece) : bool :=
  forallb inTargetPlace placedPieces.

(** [calculateCorrectPieces] *)
Definition calculateCorrectPieces (placedPieces : list PlacedPiece) : nat :=
  length (List.filter inTargetPlace placedPieces).

(** *** [canReachTargetPosition] *)

(** The steps the search takes from a position: down, left, right. *)
Definition searchSteps : list (Z * Z) := [(1, 0); (0, -1); (0, 1)].

(** The positions seen, [visited] (a set of keys [`${row},${col}`], one
    per pair of integers), and the queue of positions to look at. *)
Definition SearchState : Type := (gset (Z * Z) * list (Z * Z))%type.

(** [if (!visited.has(key)) { if (canPlacePiece(...)) { visited.add(key);
    queue.push([row, col]); } }] *)
Definition visit (piece : Piece) (row col : Z) (occupiedCells : Grid)
    (fieldWidth fieldHeight : nat) (st : SearchState) : completion SearchState :=
  let '(visited, queue) := st in
  if decide ((row, col) ∈ visited) then Normal st
  else
    match canPlacePiece (withPosition piece row col) occupiedCells
                        fieldWidth fieldHeight with
    | TypeError => TypeError
    | Normal true => Normal ({[ (row, col) ]} ∪ visited, queue ++ [(row, col)])
    | Normal false => Normal st
    end.

(** [for (let startCol = ...; startCol < fieldWidth + 3; startCol++)],
    with [n] columns left *)
Fixpoint startColumns (n : nat) (startCol : Z) (piece : Piece) (occupiedCells : Grid)
    (fieldWidth fieldHeight : nat) (st : SearchState) : completion SearchState :=
  match n with
  | O => Normal st
  | S n' =>
      match visit piece 0 startCol occupiedCells fieldWidth fieldHeight st with
      | TypeError => TypeError
      | Normal st' =>
          startColumns n' (startCol + 1) piece occupiedCells fieldWidth fieldHeight st'
      end
  end.

(** [for (const [dr, dc] of [[1, 0], [0, -1], [0, 1]])] *)
Fixpoint visitSteps (steps : list (Z * Z)) (piece : Piece) (row col : Z)
    (occupiedCells : Grid) (fieldWidth fieldHeight : nat) (st : SearchState)
    : completion SearchState :=
  match steps with
  | [] => Normal st
  | (dr, dc) :: rest =>
      match visit piece (row + dr) (col + dc) occupiedCells fieldWidth fieldHeight st with
      | TypeError => TypeError
      | Normal st' =>
          visitSteps rest piece row col occupiedCells fieldWidth fieldHeight st'
      end
  end.

(** [while (queue.length > 0)]; [None] when the loop has not left after
    [turns] turns. *)
Fixpoint searchLoop (turns : nat) (piece : Piece) (pieceTargetRow pieceTargetCol : Z)
    (occupiedCells : Grid) (fieldWidth fieldHeight : nat) (st : SearchState)
    : option (completion bool) :=
  let '(visited, queue) := st in
  match queue with
  | [] => Some (Normal false)
  | (row, col) :: queue' =>
      match turns with
      | O => None
      | S turns' =>
          if (row =? pieceTargetRow) && (col =? pieceTargetCol) then Some (Normal true)
          else if pieceTargetRow <? row then
            searchLoop turns' piece pieceTargetRow pieceTargetCol
                       occupiedCells fieldWidth fieldHeight (visited, queue')
          else
            match visitSteps searchSteps piece row col occupiedCells
                             fieldWidth fieldHeight (visited, queue') with
            | TypeError => Some TypeError
            | Normal st' =>
                searchLoop turns' piece pieceTargetRow pieceTargetCol
                           occupiedCells fieldWidth fieldHeight st'
            end
      end
  end.

(** [canReachTargetPosition].  Every position is put in the queue at most
    once and a position that can be taken is inside the field, so
    [fieldWidth * fieldHeight] turns are enough. *)
Definition canReachTargetPosition (piece : Piece) (occupiedCells : Grid)
    (fieldWidth fieldHeight : nat) : option (completion bool) :=
  match getIndex (TETROMINO_SHAPES (type piece)) (rotation piece) with
  | None => Some TypeError
  | Some shape =>
      let minShapeRow := mathMin (map fst shape) in
      let minShapeCol := mathMin (map snd shape) in
      let pieceTargetRow := targetRow piece - minShapeRow in
      let pieceTargetCol := targetCol piece - minShapeCol in
      let targetPiece := withPosition piece pieceTargetRow pieceTargetCol in
      match canPlacePiece targetPiece occupiedCells fieldWidth fieldHeight with
      | TypeError => Some TypeError
      | Normal false => Some (Normal false)
      | Normal true =>
          match startColumns (fieldWidth + 6) (-3) piece occupiedCells
                             fieldWidth fieldHeight (∅, []) with
          | TypeError => Some TypeError
          | Normal st =>
              searchLoop (fieldWidth * fieldHeight) piece pieceTargetRow pieceTargetCol
                         occupiedCells fieldWidth fieldHeight st
          end
      end
  end.

(** *** The pieces [createPiecesFromLayout] builds *)

Section CreatePieces.

(** [renderPieceImage] draws on a canvas; its result (data URL, width,
    height) is carried by the piece and read by nothing here. *)
Variable renderPieceImage : LayoutPiece -> string * Q * Q.

(** The callback of [layout.map] in [createPiecesFromLayout]: the piece
    built for one entry of the layout, and the variable captured by
    [random] after it. *)
Definition createPiece (fieldWidth : nat) (entry : LayoutPiece) (seed : Z)
    : Piece * Z :=
  let minRow := mathMin (map fst (Tetris.cells entry)) in
  let minCol := mathMin (map snd (Tetris.cells entry)) in
  let '(r, seed) := random seed in
  let rotationOffset := Qfloor (r * 4) in
  let currentRotation :=
    Z.rem (Z.of_nat (layoutRotation entry) + rotationOffset) 4 in
  let '(dataUrl, width, height) := renderPieceImage entry in
  (mkPlayPiece (Tetris.type entry) currentRotation
               0 (Z.of_nat fieldWidth / 2 - 1)
               minRow minCol (Z.of_nat (layoutRotation entry))
               rotationOffset dataUrl width height,
   seed).

(** [layout.map(...)], the generator being in state [seed]. *)
Fixpoint mapCreatePiece (fieldWidth : nat) (layout : list LayoutPiece) (seed : Z)
    : list Piece :=
  match layout with
  | [] => []
  | entry :: rest =>
      let '(piece, seed) := createPiece fieldWidth entry seed in
      piece :: mapCreatePiece fieldWidth rest seed
  end.

(** The pieces of [piecesWithCells], the first step of
    [createPiecesFromLayout]: one piece per entry, in the order of the
    layout, with a generator of its own. *)
Definition piecesWithCells (fieldWidth : nat) (layout : list LayoutPiece) (seed : Z)
    : list Piece :=
  let random := mulberry32 (seed + 12345) in
  mapCreatePiece fieldWidth layout random.

(** *** The order in which [createPiecesFromLayout] hands out the pieces *)

(** [Array.prototype.sort(comparefn)] of the JavaScript engine, as in the
    layout engine. *)
Variable arraySort :
  forall (A St : Type), (A -> A -> St -> Q * St) -> list A -> St -> list A * St.

(** A JavaScript [Set] of numbers: its elements in the order they were
    added, each once. *)
Definition setAdd (x : nat) (s : list nat) : list nat :=
  if decide (x ∈ s) then s else s ++ [x].

Definition setHas (x : nat) (s : list nat) : bool := bool_decide (x ∈ s).

Definition setDelete (x : nat) (s : list nat) : list nat :=
  List.filter (fun y => negb (y =? x)%nat) s.

(** The entry [piecesWithCells[id]] is kept as the piece
    [piecesWithCells ... !! id] and the cells of [layout !! id]. *)

(** [cellToPiece]: the loop over the entries from [id] on. *)
Fixpoint setCells (id : nat) (entries : list LayoutPiece) (cellToPiece : gmap (Z * Z) nat)
    : gmap (Z * Z) nat :=
  match entries with
  | [] => cellToPiece
  | entry :: rest =>
      setCells (S id) rest
        (fold_left (fun m cell => <[cell := id]> m) (Tetris.cells entry) cellToPiece)
  end.

(** The set [dependencies.get(id)] after the loop over the cells of the
    entry. *)
Definition dependenciesOfEntry (cellToPiece : gmap (Z * Z) nat) (fieldHeight : nat)
    (id : nat) (cells : list Cell) : list nat :=
  fold_left
    (fun deps '(r, c) =>
       if r <? Z.of_nat fieldHeight - 1 then
         match cellToPiece !! (r + 1, c) with
         | Some belowId =>
             if negb (belowId =? id)%nat then setAdd belowId deps else deps
         | None => deps
         end
       else deps)
    cells [].

(** [dependencies], as the list of the sets of the entries from [id] on. *)
Fixpoint buildDependencies (cellToPiece : gmap (Z * Z) nat) (fieldHeight : nat)
    (id : nat) (entries : list LayoutPiece) : list (list nat) :=
  match entries with
  | [] => []
  | entry :: rest =>
      dependenciesOfEntry cellToPiece fieldHeight id (Tetris.cells entry)
      :: buildDependencies cellToPiece fieldHeight (S id) rest
  end.

(** The comparison function of [ready.sort]: lowest piece first, then
    leftmost.  (Every identifier compared is one of an entry.) *)
Definition readyOrder (layout : list LayoutPiece) (a b : nat) (s : unit) : Q * unit :=
  let cellsA := default [] (Tetris.cells <$> layout !! a) in
  let cellsB := default [] (Tetris.cells <$> layout !! b) in
  let maxRowA := mathMax (map fst cellsA) in
  let maxRowB := mathMax (map fst cellsB) in
  (inject_Z (if negb (maxRowA =? maxRowB) then maxRowB - maxRowA
             else mathMin (map snd cellsA) - mathMin (map snd cellsB)),
   s).

(** The local variables of the loop. *)
Record OrderState : Type := mkOrder {
  result : list Piece;
  placed : list nat;
  remaining : list nat;
  simulatedField : Grid
}.

(** [result.push(p.piece); placed.add(id); remaining.delete(id);
    p.cells.forEach(...)] for the entry [p] found for [id]; reading
    [p.piece] throws when there is no such entry. *)
Definition placeEntry (layout : list LayoutPiece) (pieces : list Piece) (id : nat)
    (st : OrderState) : completion OrderState :=
  match pieces !! id, layout !! id with
  | Some piece, Some entry =>
      match writeCells (simulatedField st) (Tetris.cells entry) with
      | TypeError => TypeError
      | Normal field =>
          Normal (mkOrder (result st ++ [piece]) (setAdd id (placed st))
                          (setDelete id (remaining st)) field)
      end
  | _, _ => TypeError
  end.

(** [for (const id of ready)]: the first identifier whose piece can reach
    its target; [None] when a search has run out of turns. *)
Fixpoint firstReachable (ready : list nat) (pieces : list Piece) (field : Grid)
    (fieldWidth fieldHeight : nat) : option (completion (option nat)) :=
  match ready with
  | [] => Some (Normal None)
  | id :: rest =>
      match pieces !! id with
      | None => Some TypeError
      | Some piece =>
          match canReachTargetPosition piece field fieldWidth fieldHeight with
          | None => None
          | Some TypeError => Some TypeError
          | Some (Normal true) => Some (Normal (Some id))
          | Some (Normal false) =>
              firstReachable rest pieces field fieldWidth fieldHeight
          end
      end
  end.

(** [Array.from(remaining).forEach(id => result.push(...))] *)
Fixpoint pushAll (ids : list nat) (pieces : list Piece) (result : list Piece)
    : completion (list Piece) :=
  match ids with
  | [] => Normal result
  | id :: rest =>
      match pieces !! id with
      | None => TypeError
      | Some piece => pushAll rest pieces (result ++ [piece])
      end
  end.

(** [while (remaining.size > 0)]; [None] when the loop has not left after
    [turns] turns or a search has run out of turns. *)
Fixpoint orderLoop (turns : nat) (layout : list LayoutPiece) (pieces : list Piece)
    (dependencies : list (list nat)) (fieldWidth fieldHeight : nat) (st : OrderState)
    : option (completion (list Piece)) :=
  match remaining st with
  | [] => Some (Normal (result st))
  | _ :: _ =>
      match turns with
      | O => None
      | S turns' =>
          let ready :=
            List.filter
              (fun id => forallb (fun depId => setHas depId (placed st))
                                 (default [] (dependencies !! id)))
              (remaining st) in
          match ready with
          | [] => Some (pushAll (remaining st) pieces (result st))
          | _ :: _ =>
              let ready := fst (arraySort nat unit (readyOrder layout) ready tt) in
              match firstReachable ready pieces (simulatedField st)
                                   fieldWidth fieldHeight with
              | None => None
              | Some TypeError => Some TypeError
              | Some (Normal found) =>
                  match (match found with
                         | Some id => Some id
                         | None => ready !! 0%nat
                         end) with
                  | None => Some TypeError
                  | Some id =>
                      match placeEntry layout pieces id st with
                      | TypeError => Some TypeError
                      | Normal st' =>
                          orderLoop turns' layout pieces dependencies
                                    fieldWidth fieldHeight st'
                      end
                  end
              end
          end
      end
  end.

(** [createPiecesFromLayout].  Every turn of the loop that does not leave
    it takes one identifier out of [remaining], so one turn for each entry
    of the layout is enough. *)
Definition createPiecesFromLayout (layout : list LayoutPiece)
    (fieldWidth fieldHeight : nat) (seed : Z) : option (completion (list Piece)) :=
  let pieces := piecesWithCells fieldWidth layout seed in
  let cellToPiece := setCells 0 layout ∅ in
  let dependencies := buildDependencies cellToPiece fieldHeight 0 layout in
  orderLoop (length layout) layout pieces dependencies fieldWidth fieldHeight
            (mkOrder [] [] (seq 0 (length layout)) (emptyGrid fieldWidth fieldHeight)).

(** *** [createGameState] *)

Record GameState : Type := mkGameState {
  occupiedCells : Grid;
  placedPieces : list PlacedPiece;
  currentPiece : option Piece;
  nextPieces : list Piece;
  piecesPlaced : nat;
  totalPieces : nat;
  isGameOver : bool;
  isWon : bool;
  imageUrl : option string;
  stateFieldWidth : nat;
  stateFieldHeight : nat
}.

(** [createGameState], for callers that give the seed (its default is the
    clock); [tileSize] and [sourceImage] only go to [renderPieceImage].
    The members [fieldWidth] and [fieldHeight] of the state are
    [stateFieldWidth] and [stateFieldHeight] here. *)
Definition createGameState (fieldWidth fieldHeight : nat) (url : option string)
    (seed : Z) : option (completion GameState) :=
  match generatePieceLayout arraySort fieldWidth fieldHeight seed with
  | TypeError => Some TypeError
  | Normal layout =>
      match createPiecesFromLayout layout fieldWidth fieldHeight seed with
      | None => None
      | Some TypeError => Some TypeError
      | Some (Normal pieces) =>
          Some (Normal (mkGameState (emptyGrid fieldWidth fieldHeight) []
                                    (head pieces) (tail pieces)
                                    0 (length pieces) false false url
                                    fieldWidth fieldHeight))
      end
  end.

End CreatePieces.

End TetrisPlay.
(** ** Specification-side notions for the play engine *)

Module TetrisPlaySpec.
Import Tetris TetrisSpec TetrisSpec2 TetrisPlay.
Local Open Scope Z_scope.

(** A rotation index of the shape table. *)
Definition validRotation (rotation : Z) : Prop := 0 <= rotation < 4.

(** The shape fills its box: four cells, all inside a box of the given
    size, one on each side of it. *)
Definition fillsBox (shape : list Cell) (b : ShapeBounds) : bool :=
  (length shape =? 4)%nat
  && forallb (fun '(dr, dc) => (0 <=? dr) && (dr <? rows b) && (0 <=? dc) && (dc <? cols b))
             shape
  && existsb (fun '(dr, _) => dr =? 0) shape
  && existsb (fun '(_, dc) => dc =? 0) shape
  && existsb (fun '(dr, _) => dr =? rows b - 1) shape
  && existsb (fun '(_, dc) => dc =? cols b - 1) shape.

(** The table entry for each of the four rotations of a type fills the
    box [getShapeBounds] gives for it. *)
Definition tableFillsBoxes (type : TetrominoType) : bool :=
  forallb (fun rotation =>
             match getIndex (TETROMINO_SHAPES type) rotation,
                   getShapeBounds type rotation with
             | Some shape, Normal b => fillsBox shape b
             | _, _ => false
             end)
          [0; 1; 2; 3].

(** The cells of a piece in the field all free. *)
Definition fits (fieldWidth fieldHeight : nat) (occupiedCells : Grid)
    (cells : list Cell) : Prop :=
  forall r c, (r, c) ∈ cells ->
    inField fieldWidth fieldHeight (r, c) /\ usedAt occupiedCells r c = false.

(** The piece is one [createPiecesFromLayout] may build for the entry: of
    the entry's type, at the top of the field, its rotation and visual
    rotation in 0..3 and apart by the target rotation (the entry's), and
    such that a piece of this type and target which is in its target place
    occupies the entry's cells. *)
Definition builtFor (fieldWidth : nat) (entry : LayoutPiece) (piece : Piece) : Prop :=
  type piece = Tetris.type entry /\
  row piece = 0 /\ col piece = Z.of_nat fieldWidth / 2 - 1 /\
  validRotation (rotation piece) /\ validRotation (visualRotation piece) /\
  targetRotation piece = Z.of_nat (layoutRotation entry) /\
  validRotation (targetRotation piece) /\
  (rotation piece - visualRotation piece) mod 4 = targetRotation piece /\
  forall placed : PlacedPiece,
    type placed = type piece -> targetRow placed = targetRow piece ->
    targetCol placed = targetCol piece ->
    targetRotation placed = targetRotation piece ->
    inTargetPlace placed = true ->
    exists cs, getPieceCells placed = Normal cs /\ cs ≡ₚ Tetris.cells entry.

(** The position [(row, col)] can be reached by the piece (as it is
    turned): from a position in row 0, in a column from -3 up to
    [fieldWidth + 2], by steps down, left and right through positions the
    piece can take. *)
Inductive reachable (piece : Piece) (occupiedCells : Grid)
    (fieldWidth fieldHeight : nat) : Z -> Z -> Prop :=
| reach_start (startCol : Z) :
    -3 <= startCol < Z.of_nat fieldWidth + 3 ->
    canPlacePiece (withPosition piece 0 startCol) occupiedCells fieldWidth fieldHeight
      = Normal true ->
    reachable piece occupiedCells fieldWidth fieldHeight 0 startCol
| reach_step (row col dr dc : Z) :
    reachable piece occupiedCells fieldWidth fieldHeight row col ->
    (dr, dc) ∈ searchSteps ->
    canPlacePiece (withPosition piece (row + dr) (col + dc)) occupiedCells
                  fieldWidth fieldHeight = Normal true ->
    reachable piece occupiedCells fieldWidth fieldHeight (row + dr) (col + dc).

(** The search state [st'] is [st] with the positions [added] seen and
    queued. *)
Definition extendsBy (st st' : SearchState) (added : list (Z * Z)) : Prop :=
  snd st' = snd st ++ added /\
  NoDup added /\
  (forall x, x ∈ added -> x ∉ fst st) /\
  (forall x, x ∈ fst st' <-> x ∈ fst st \/ x ∈ added) /\
  size (fst st') = (size (fst st) + length added)%nat.

(** What the search loop maintains, for the target position [(tr, tc)]:
    every position seen can be reached; the queue holds positions seen,
    each once; the positions of the start row that can be taken are seen;
    and a position seen that is no longer in the queue is not the target
    and, when it is not below the target row, has its neighbours that can
    be taken seen. *)
Definition searchInv (piece : Piece) (occupiedCells : Grid)
    (fieldWidth fieldHeight : nat) (tr tc : Z) (st : SearchState) : Prop :=
  (forall r c, (r, c) ∈ fst st ->
     reachable piece occupiedCells fieldWidth fieldHeight r c) /\
  (forall x, x ∈ snd st -> x ∈ fst st) /\
  NoDup (snd st) /\
  (forall c, -3 <= c < Z.of_nat fieldWidth + 3 ->
     canPlacePiece (withPosition piece 0 c) occupiedCells fieldWidth fieldHeight
       = Normal true ->
     (0, c) ∈ fst st) /\
  (forall r c, (r, c) ∈ fst st -> (r, c) ∉ snd st ->
     (r, c) <> (tr, tc) /\
     (r <= tr -> forall dr dc, (dr, dc) ∈ searchSteps ->
        canPlacePiece (withPosition piece (r + dr) (c + dc)) occupiedCells
                      fieldWidth fieldHeight = Normal true ->
        (r + dr, c + dc) ∈ fst st)).

(** The contract of the engine's sort used for the order of the pieces:
    it returns the elements of the array it was given, rearranged. *)
Definition sortPermutes
    (arraySort : forall (A St : Type),
        (A -> A -> St -> Q * St) -> list A -> St -> list A * St) : Prop :=
  forall (A St : Type) (cmp : A -> A -> St -> Q * St) (xs : list A) (s : St),
    fst (arraySort A St cmp xs s) ≡ₚ xs.

(** The entry [below] of the layout has a cell right under a cell of the
    entry [above]. *)
Definition directlyBelow (layout : list LayoutPiece) (below above : nat) : Prop :=
  below <> above /\
  exists entryAbove entryBelow r c,
    layout !! above = Some entryAbove /\ layout !! below = Some entryBelow /\
    (r, c) ∈ Tetris.cells entryAbove /\ (r + 1, c) ∈ Tetris.cells entryBelow.

(** In every column of the shape, the cells are one above the other
    without a gap. *)
Definition columnsConnected (shape : list Cell) : bool :=
  forallb (fun '(dr, dc) =>
             existsb (cell_eqb (dr + 1, dc)) shape
             || negb (existsb (fun '(dr', dc') => (dc' =? dc) && (dr <? dr')) shape))
          shape.

Definition tableColumnsConnected (type : TetrominoType) : bool :=
  forallb columnsConnected (TETROMINO_SHAPES type).

(** A layout as [generatePieceLayout] returns it: table shapes that do
    not overlap, inside the field, each grounded on those before it. *)
Definition groundedLayout (fieldWidth fieldHeight : nat) (layout : list LayoutPiece) : Prop :=
  Forall isTableShape layout /\
  NoDup (allCells layout) /\
  (forall cell, cell ∈ allCells layout -> inField fieldWidth fieldHeight cell) /\
  groundedInOrder fieldHeight layout.

(** The identifiers still in [remaining] when those of [order] are
    taken out. *)
Definition remainingAfter (n : nat) (order : list nat) : list nat :=
  List.filter (fun id => negb (bool_decide (id ∈ order))) (seq 0 n).

(** The pieces of [order] come each after the entries right under it. *)
Definition belowFirst (layout : list LayoutPiece) (order : list nat) : Prop :=
  forall k id, order !! k = Some id ->
    forall below, directlyBelow layout below id -> below ∈ take k order.

(** What the loop of [createPiecesFromLayout] maintains, [order] being
    the identifiers of the pieces handed out so far. *)
Definition orderInv (fieldWidth fieldHeight : nat) (layout : list LayoutPiece)
    (pieces : list Piece) (order : list nat) (st : OrderState) : Prop :=
  Forall2 (fun id piece => pieces !! id = Some piece) order (result st) /\
  (forall id, id ∈ placed st <-> id ∈ order) /\
  NoDup order /\
  (forall id, id ∈ order -> (id < length layout)%nat) /\
  remaining st = remainingAfter (length layout) order /\
  wfGrid fieldWidth fieldHeight (simulatedField st) /\
  belowFirst layout order.

(** A sample piece: a T at the top of the field, to be turned and moved to
    the bottom left corner. *)
Definition sampleT : Piece :=
  mkPlayPiece tT 1 0 4 14 0 0 1 "" 0 0.

End TetrisPlaySpec.

(** * Properties *)

Module ArrayFacts.

Lemma getIndex_Some {A : Type} (l : list A) (i : Z) (x : A) :
  getIndex l i = Some x -> (0 <= i)%Z /\ l !! Z.to_nat i = Some x.
Proof.
  unfold getIndex. destruct (Z.ltb_spec i 0); [discriminate|]. auto.
Qed.

Lemma getIndex_Some_inv {A : Type} (l : list A) (i : Z) (x : A) :
  (0 <= i)%Z -> l !! Z.to_nat i = Some x -> getIndex l i = Some x.
Proof. intros Hi Hl. unfold getIndex. by destruct (Z.ltb_spec i 0); [lia|]. Qed.

Lemma getIndex_of_nat {A : Type} (l : list A) (i : nat) :
  getIndex l (Z.of_nat i) = l !! i.
Proof.
  unfold getIndex. destruct (Z.ltb_spec (Z.of_nat i) 0); [lia|].
  by rewrite Nat2Z.id.
Qed.

Lemma getIndex_insert {A : Type} (l : list A) (i j : Z) (x : A) :
  (0 <= i)%Z -> (Z.to_nat i < length l)%nat ->
  getIndex (<[Z.to_nat i := x]> l) j = if decide (i = j) then Some x else getIndex l j.
Proof.
  intros Hi Hlt. unfold getIndex.
  destruct (Z.ltb_spec j 0) as [Hj|Hj].
  - destruct (decide (i = j)); [lia|done].
  - rewrite list_lookup_insert.
    destruct (decide (i = j)) as [->|Hne].
    + by rewrite decide_True.
    + rewrite decide_False; [done|]. intros [Heq _]. lia.
Qed.

(** A generator value in [0,1) gives an index below [n]. *)
Lemma floorMul_range (r : Q) (n : nat) :
  (0 <= r)%Q -> (r < 1)%Q -> 0 < n ->
  (0 <= floorMul r n < Z.of_nat n)%Z.
Proof.
  intros H0 H1 Hn. unfold floorMul.
  set (q := inject_Z (Z.of_nat n)).
  assert (Hq : (0 < q)%Q).
  { subst q. change 0%Q with (inject_Z 0). rewrite <- Zlt_Qlt. lia. }
  split.
  - change 0%Z with (Qfloor 0). apply Qfloor_resp_le.
    apply Qmult_le_0_compat; [done|]. by apply Qlt_le_weak.
  - rewrite Zlt_Qlt. fold q.
    eapply Qle_lt_trans; [apply Qfloor_le|].
    rewrite <- (Qmult_1_l q) at 2. apply Qmult_lt_compat_r; done.
Qed.

Lemma shuffle_index_inside (random : nat -> Q) (i calls : nat) :
  (forall k, (0 <= random k)%Q /\ (random k < 1)%Q) ->
  Z.to_nat (floorMul (random calls) (i + 1)) <= i.
Proof.
  intros Hrange. destruct (Hrange calls) as [H0 H1].
  pose proof (floorMul_range (random calls) (i + 1) H0 H1 ltac:(lia)). lia.
Qed.

End ArrayFacts.

Module SortingFacts.
Import Sorting SortingSpec ArrayFacts.

Lemma last_None_nil {A : Type} (l : list A) : last l = None -> l = [].
Proof. destruct l using rev_ind; [done|]. by rewrite last_snoc. Qed.

Lemma copyState_id (s : list (list Ring)) : copyState s = s.
Proof.
  unfold copyState. induction s as [|peg s IH]; [done|].
  cbn [map]. rewrite IH. f_equal.
  induction peg as [|[i c] peg IHp]; [done|]. cbn. by rewrite IHp.
Qed.

(** *** The block at the top of a peg *)

Lemma countWhileColor_le c m : countWhileColor c m <= length m.
Proof.
  induction m as [|r m IH]; cbn; [lia|]. destruct (String.eqb _ _); cbn; lia.
Qed.

Lemma countWhileColor_take c m r :
  r ∈ take (countWhileColor c m) m -> color r = c.
Proof.
  induction m as [|x m IH]; cbn.
  - intros H. by apply elem_of_nil in H.
  - destruct (String.eqb_spec (color x) c) as [E|E]; cbn.
    + intros [->|H]%elem_of_cons; auto.
    + intros H. by apply elem_of_nil in H.
Qed.

Lemma countWhileColor_stop c m r :
  m !! countWhileColor c m = Some r -> color r <> c.
Proof.
  induction m as [|x m IH]; cbn; [done|].
  destruct (String.eqb_spec (color x) c) as [E|E]; cbn; [auto|].
  intros [= ->]. done.
Qed.

Lemma getTopBlockSize_isTopBlock (peg : list Ring) :
  isTopBlock peg (getTopBlockSize peg).
Proof.
  unfold isTopBlock, getTopBlockSize.
  destruct peg as [|x l _] using rev_ind; [done|].
  rewrite last_snoc, reverse_snoc.
  set (k := countWhileColor (color x) (reverse l)).
  assert (Hk : k <= length l).
  { subst k. etransitivity; [apply countWhileColor_le|]. by rewrite length_reverse. }
  rewrite length_app. cbn [length].
  split; [lia|]. split.
  - intros r Hr.
    replace (length l + 1 - (1 + k)) with (length l - k) in Hr by lia.
    rewrite drop_app_le in Hr by lia.
    apply elem_of_app in Hr as [Hr|Hr].
    + apply (countWhileColor_take _ (reverse l)). fold k.
      rewrite take_reverse. by apply elem_of_reverse.
    + apply list_elem_of_singleton in Hr. by subst.
  - intros Hlt.
    assert (Hk' : k < length (reverse l)) by (rewrite length_reverse; lia).
    destruct (lookup_lt_is_Some_2 _ _ Hk') as [r Hr].
    exists r. split.
    + replace (length l + 1 - S (1 + k)) with (length l - S k) by lia.
      rewrite lookup_app_l by lia.
      rewrite <- Hr. symmetry. apply reverse_lookup. lia.
    + by apply (countWhileColor_stop _ _ _ Hr).
Qed.

Lemma isTopBlock_unique (peg : list Ring) (n m : nat) :
  isTopBlock peg n -> isTopBlock peg m -> n = m.
Proof.
  unfold isTopBlock. destruct (last peg) as [top|]; [|congruence].
  intros (Hn & Hsame_n & Hstop_n) (Hm & Hsame_m & Hstop_m).
  destruct (Nat.lt_trichotomy n m) as [Hlt|[->|Hlt]]; [exfalso| done |exfalso].
  - destruct Hstop_n as (r & Hr & Hc); [lia|]. apply Hc, Hsame_m.
    apply list_elem_of_lookup. exists (length peg - S n - (length peg - m)).
    rewrite lookup_drop, <- Hr. f_equal. lia.
  - destruct Hstop_m as (r & Hr & Hc); [lia|]. apply Hc, Hsame_n.
    apply list_elem_of_lookup. exists (length peg - S m - (length peg - n)).
    rewrite lookup_drop, <- Hr. f_equal. lia.
Qed.

(** *** [canMove] *)

(** C1. For in-range peg indices, [canMove] returns false when the source
    peg is empty; otherwise, with [blockSize] the size of the block of
    same-coloured rings at the top of the source, it returns true exactly
    when the target is empty or its top ring has the colour of the source's
    top ring, and the room left on the target, maxHeight - target.length,
    is at least [blockSize].  (The two indices need not differ.) *)
Theorem canMove_spec (g : SortingGameLogic) (from to : Z)
    (source target : list Ring) :
  getIndex (_state g) from = Some source ->
  getIndex (_state g) to = Some target ->
  (source = [] -> canMove g from to = Normal false) /\
  (forall top, last source = Some top ->
     exists blockSize b,
       isTopBlock source blockSize /\
       canMove g from to = Normal b /\
       (b = true <->
        (target = [] \/
         exists targetTop, last target = Some targetTop /\
                           color targetTop = color top) /\
        (Z.of_nat (height (_config g)) - Z.of_nat (length target)
           >= Z.of_nat blockSize)%Z)).
Proof.
  intros Hs Ht. unfold canMove. rewrite Hs, Ht. split.
  - intros ->. reflexivity.
  - intros top Htop. rewrite Htop.
    exists (getTopBlockSize source).
    destruct (last target) as [targetTop|] eqn:Hlt.
    + destruct (String.eqb_spec (color targetTop) (color top)) as [E|E]; cbn [negb].
      * destruct (Nat.ltb_spec (height (_config g))
                    (length target + getTopBlockSize source)) as [Hh|Hh].
        -- exists false. split; [apply getTopBlockSize_isTopBlock|].
           split; [done|]. split; [done|]. intros [_ Hroom]. lia.
        -- exists true. split; [apply getTopBlockSize_isTopBlock|].
           split; [done|]. split; [|done]. intros _. split; [|lia].
           right. by exists targetTop.
      * exists false. split; [apply getTopBlockSize_isTopBlock|].
        split; [done|]. split; [done|]. intros [[->|(tt & Htt & Hc)] _].
        -- discriminate.
        -- congruence.
    + apply last_None_nil in Hlt. subst target. cbn [length].
      destruct (Nat.ltb_spec (height (_config g))
                  (0 + getTopBlockSize source)) as [Hh|Hh].
      * exists false. split; [apply getTopBlockSize_isTopBlock|].
        split; [done|]. split; [done|]. intros [_ Hroom]. lia.
      * exists true. split; [apply getTopBlockSize_isTopBlock|].
        split; [done|]. split; [|done]. intros _. split; [by left|lia].
Qed.

(** *** [move], [undo] and the history *)

Lemma forUpTo_Some {A : Type} (n start : nat) (body : nat -> option A) (a : A) :
  forUpTo n start body = Some a ->
  exists i, start <= i < start + n /\ body i = Some a.
Proof.
  revert start. induction n as [|n IH]; intros start; cbn; [done|].
  destruct (body start) as [x|] eqn:Hb.
  - intros [= ->]. exists start. split; [lia|done].
  - intros H. destruct (IH _ H) as (i & Hi & Hbi). exists i. split; [lia|done].
Qed.

Lemma canMove_in_range (g : SortingGameLogic) (from : Z) (to : nat) :
  to < length (_state g) -> canMove g from (Z.of_nat to) <> TypeError.
Proof.
  intros Hto. unfold canMove. rewrite (getIndex_of_nat _ to).
  destruct (lookup_lt_is_Some_2 _ _ Hto) as [target ->].
  destruct (getIndex (_state g) from) as [source|]; [|done].
  destruct (last source); [|done].
  destruct (match last target with Some _ => _ | None => _ end); [done|].
  by destruct (_ <? _).
Qed.

Lemma isDeadlocked_returns (g : SortingGameLogic) : isDeadlocked g <> TypeError.
Proof.
  unfold isDeadlocked.
  destruct (forUpTo _ _ _) as [r|] eqn:Hscan; [|done].
  apply forUpTo_Some in Hscan as (from & _ & Hin).
  apply forUpTo_Some in Hin as (to & Hto & Hbody).
  destruct (from =? to); [done|].
  pose proof (canMove_in_range g (Z.of_nat from) to ltac:(lia)) as Hc.
  destruct (canMove g (Z.of_nat from) (Z.of_nat to)) as [[]|]; congruence.
Qed.


Lemma move_legal (g : SortingGameLogic) (from to : Z) :
  canMove g from to = Normal true ->
  exists r, r <> invalid /\
    move g from to =
      (Normal r, with_state (pushHistory g) (movedPegs (_state g) from to)).
Proof.
  intros Hc. unfold move. rewrite Hc. cbn zeta.
  change (_state (pushHistory g)) with (_state g).
  fold (movedPegs (_state g) from to).
  set (g2 := with_state _ _).
  destruct (checkWin g2); [by exists win|].
  pose proof (isDeadlocked_returns g2) as Hd.
  destruct (isDeadlocked g2) as [[]|]; [by exists deadlock|by exists ok|done].
Qed.

Lemma last_tail {A : Type} (l : list A) : 1 < length l -> last (tail l) = last l.
Proof. destruct l as [|x [|y l]]; cbn; intros; try lia; done. Qed.

Lemma pushHistory_history (g : SortingGameLogic) :
  _history (pushHistory g) =
    if _maxHistorySize <? length (_history g ++ [_state g])
    then tail (_history g ++ [_state g]) else _history g ++ [_state g].
Proof. unfold pushHistory. by rewrite copyState_id. Qed.

Lemma pushHistory_last (g : SortingGameLogic) :
  last (_history (pushHistory g)) = Some (_state g).
Proof.
  rewrite pushHistory_history.
  destruct (Nat.ltb_spec _maxHistorySize (length (_history g ++ [_state g]))) as [H|H].
  - rewrite last_tail; [apply last_snoc|]. unfold _maxHistorySize in H. lia.
  - apply last_snoc.
Qed.

Lemma pushHistory_length (g : SortingGameLogic) :
  length (_history g) <= _maxHistorySize ->
  length (_history (pushHistory g)) <= _maxHistorySize.
Proof.
  intros Hb. rewrite pushHistory_history.
  destruct (Nat.ltb_spec _maxHistorySize (length (_history g ++ [_state g]))) as [H|H];
    [|done].
  rewrite length_app in H. cbn [length] in H.
  destruct (_history g) as [|s0 h]; cbn [app tail length] in *; [lia|].
  rewrite length_app. cbn [length]. lia.
Qed.

Lemma move_illegal (g : SortingGameLogic) (from to : Z) :
  canMove g from to = Normal false -> move g from to = (Normal invalid, g).
Proof. intros Hc. unfold move. by rewrite Hc. Qed.

(** C2. When the move is illegal ([canMove] is false), [move] returns
    [invalid] and changes nothing: the pegs and the history after the call
    are those before it, as is the rest of the object. *)
Theorem move_invalid_unchanged (g : SortingGameLogic) (from to : Z) :
  canMove g from to = Normal false ->
  fst (move g from to) = Normal invalid /\
  _state (snd (move g from to)) = _state g /\
  _history (snd (move g from to)) = _history g /\
  snd (move g from to) = g.
Proof. intros Hc. by rewrite (move_illegal g from to Hc). Qed.

(** C3. After a legal [move], [undo] returns true and the pegs are again
    the pegs before the move: the same rings, ids and colours, in the same
    order on every peg.  This holds in every state, so in every reachable
    one. *)
Theorem move_undo_restores (g : SortingGameLogic) (from to : Z) :
  canMove g from to = Normal true ->
  (exists r, fst (move g from to) = Normal r /\ r <> invalid) /\
  fst (undo (snd (move g from to))) = true /\
  _state (snd (undo (snd (move g from to)))) = _state g.
Proof.
  intros Hc. destruct (move_legal g from to Hc) as (r & Hr & ->). cbn [fst snd].
  split; [by exists r|].
  unfold undo. cbn [_history with_state].
  rewrite pushHistory_last. done.
Qed.

Lemma run_invariant (random : nat -> Q) (allowed : Op -> Prop)
    (P : SortingGameLogic -> Prop) :
  (forall g op, allowed op -> P g -> P (exec random g op)) ->
  forall ops g, Forall allowed ops -> P g -> P (run random ops g).
Proof.
  intros Hstep ops. unfold run.
  induction ops as [|op ops IH]; intros g Hall Hg; [done|].
  apply Forall_cons in Hall as [Hop Hall]. cbn [fold_left].
  apply IH; [done|]. by apply Hstep.
Qed.

Lemma move_history (g : SortingGameLogic) (from to : Z) :
  _history (snd (move g from to)) = _history g \/
  _history (snd (move g from to)) = _history (pushHistory g).
Proof.
  destruct (canMove g from to) as [[]|] eqn:Hc.
  - destruct (move_legal g from to Hc) as (r & _ & ->). by right.
  - left. by rewrite move_illegal.
  - left. unfold move. by rewrite Hc.
Qed.

Lemma undo_history_length (g : SortingGameLogic) :
  length (_history (snd (undo g))) <= length (_history g).
Proof.
  unfold undo. destruct (last (_history g)); [|done]. cbn [snd _history].
  destruct (_history g) as [|s h] using rev_ind; [done|].
  rewrite removelast_last, length_app. lia.
Qed.

Lemma reset_history (random : nat -> Q) (g : SortingGameLogic) :
  _history (reset random g) = [].
Proof.
  unfold reset. by destruct (createInitialState random g) as [[st nextId] calls].
Qed.

(** C4. Whatever sequence of [move], [undo], [reset] (and read-only) calls
    is made on a fresh object, the history never holds more than 200
    snapshots; and a legal move made when it holds 200 drops the oldest
    snapshot and appends the new one, so that it still holds 200. *)
Theorem history_bounded (random : nat -> Q) :
  (forall (d : DifficultyLevel) (ops : list Op),
     length (_history (run random ops (construct random d))) <= 200) /\
  (forall (g : SortingGameLogic) (from to : Z),
     length (_history g) = 200 ->
     canMove g from to = Normal true ->
     _history (snd (move g from to)) = tail (_history g) ++ [_state g] /\
     length (_history (snd (move g from to))) = 200).
Proof.
  split.
  - intros d ops.
    apply (run_invariant random (fun _ => True)
             (fun g => length (_history g) <= _maxHistorySize)).
    + intros g [from to| | | |] _ Hg; cbn [exec]; try done.
      * destruct (move_history g from to) as [-> | ->]; [done|].
        by apply pushHistory_length.
      * etransitivity; [apply undo_history_length|done].
      * rewrite reset_history. cbn. lia.
    + by apply Forall_forall.
    + unfold construct. rewrite reset_history. cbn. lia.
  - intros g from to Hlen Hc.
    destruct (move_legal g from to Hc) as (r & _ & ->).
    cbn [snd _history with_state]. rewrite pushHistory_history.
    destruct (Nat.ltb_spec _maxHistorySize (length (_history g ++ [_state g])))
      as [_|Hle].
    + destruct (_history g) as [|s h]; [done|]. cbn [app tail].
      split; [done|]. rewrite length_app. cbn [length] in *. lia.
    + rewrite length_app, Hlen in Hle. unfold _maxHistorySize in Hle.
      cbn [length] in Hle. lia.
Qed.

(** *** The rings are conserved *)

Lemma insert_cons_Permutation {A : Type} (l : list A) (i : nat) (x y : A) :
  l !! i = Some x -> x :: <[i:=y]> l ≡ₚ y :: l.
Proof.
  revert i. induction l as [|a l IH]; intros [|i]; cbn; try done.
  - intros [= ->]. apply Permutation_swap.
  - intros H. rewrite (Permutation_swap a x), (IH _ H). apply Permutation_swap.
Qed.

Lemma swapAt_Permutation {A : Type} (i j : nat) (l : list A) : swapAt i j l ≡ₚ l.
Proof.
  unfold swapAt.
  destruct (l !! i) as [ri|] eqn:Hi; [|done].
  destruct (l !! j) as [rj|] eqn:Hj; [|done].
  destruct (decide (i = j)) as [->|Hne].
  - rewrite list_insert_insert_eq. rewrite list_insert_id; [done|congruence].
  - apply (Permutation_cons_inv (a := rj)).
    rewrite (insert_cons_Permutation (<[i:=rj]> l) j rj ri).
    + etransitivity; [apply (insert_cons_Permutation l i ri rj Hi)|done].
    + by rewrite list_lookup_insert_ne.
Qed.

Lemma insert_concat_Permutation {A : Type} (l : list (list A)) (i : nat)
    (x y : list A) :
  l !! i = Some x -> x ++ concat (<[i:=y]> l) ≡ₚ y ++ concat l.
Proof.
  revert i. induction l as [|a l IH]; intros [|i]; cbn; try done.
  - intros [= ->]. rewrite !(assoc app). by rewrite (comm app x y).
  - intros H. rewrite (assoc app x a), (comm app x a), <- (assoc app a x).
    rewrite (IH _ H). rewrite !(assoc app). by rewrite (comm app a y).
Qed.

Lemma movedPegs_Permutation (st : list (list Ring)) (from to : Z)
    (source target : list Ring) :
  getIndex st from = Some source ->
  getIndex st to = Some target ->
  concat (movedPegs st from to) ≡ₚ concat st.
Proof.
  intros Hs Ht. unfold movedPegs. rewrite Hs.
  change (default [] (Some source)) with source.
  apply getIndex_Some in Hs as [_ Hs].
  set (n := length source - getTopBlockSize source).
  set (keep := take n source). set (moving := drop n source).
  set (st1 := <[Z.to_nat from := keep]> st).
  assert (H1 : moving ++ concat st1 ≡ₚ concat st).
  { apply (Permutation_app_inv_l keep).
    rewrite (assoc app). subst keep moving. rewrite take_drop.
    by apply insert_concat_Permutation. }
  assert (Hlt : Z.to_nat to < length st1).
  { subst st1. rewrite length_insert.
    apply getIndex_Some in Ht as [_ Ht]. by apply lookup_lt_Some in Ht. }
  destruct (lookup_lt_is_Some_2 _ _ Hlt) as [target1 Ht1].
  assert (Hg : getIndex st1 to = Some target1).
  { unfold getIndex. apply getIndex_Some in Ht as [Hto _].
    destruct (Z.ltb_spec to 0); [lia|done]. }
  fold n keep moving st1. rewrite Hg.
  change (default [] (Some target1)) with target1.
  apply (Permutation_app_inv_l target1).
  rewrite (insert_concat_Permutation st1 _ target1 _ Ht1).
  rewrite <- (assoc app). by rewrite H1.
Qed.

Lemma canMove_true_indices (g : SortingGameLogic) (from to : Z) :
  canMove g from to = Normal true ->
  exists source target,
    getIndex (_state g) from = Some source /\ getIndex (_state g) to = Some target.
Proof.
  unfold canMove.
  destruct (getIndex (_state g) from) as [source|]; [|done].
  destruct (last source); [|done].
  destruct (getIndex (_state g) to) as [target|]; [|done].
  intros _. by exists source, target.
Qed.

Section Shuffle.
Variable random : nat -> Q.

Lemma shuffleLoop_Permutation {A : Type} (i calls : nat) (result : list A) :
  fst (shuffleLoop random i calls result) ≡ₚ result.
Proof.
  revert calls result. induction i as [|i IH]; intros calls result; [done|].
  cbn [shuffleLoop]. rewrite IH. apply swapAt_Permutation.
Qed.

Lemma shuffleArray_Permutation {A : Type} (array : list A) (calls : nat) :
  fst (shuffleArray random array calls) ≡ₚ array.
Proof. apply shuffleLoop_Permutation. Qed.
End Shuffle.

Lemma deal_concat (filled h : nat) (shuffled : list Ring) :
  concat (deal filled h shuffled) = take (filled * h) shuffled.
Proof.
  revert shuffled. induction filled as [|n IH]; intros shuffled; [done|].
  cbn [deal concat Nat.mul]. rewrite IH. apply take_take_drop.
Qed.

Lemma concat_replicate_nil {A : Type} (n : nat) :
  concat (replicate n ([] : list A)) = [].
Proof. induction n as [|n IH]; [done|]. cbn. exact IH. Qed.

Lemma ringsPool_length (cs : list string) (firstId totalSlots : nat) :
  length (ringsPool cs firstId totalSlots) = totalSlots.
Proof. unfold ringsPool. by rewrite length_map, length_seq. Qed.

Lemma construct_allRings (random : nat -> Q) (d : DifficultyLevel) :
  allRings (construct random d) ≡ₚ initialPool d /\
  _history (construct random d) = [].
Proof.
  unfold construct, reset, createInitialState, allRings, initialPool.
  cbn [_config _colors _nextRingId _randomCalls].
  set (cfg := DIFFICULTY_LEVELS d).
  set (pool := ringsPool _ 0 _).
  pose proof (shuffleArray_Permutation random pool 0) as Hperm.
  destruct (shuffleArray random pool 0) as [shuffled calls]. cbn [fst] in Hperm.
  cbn [_state _history]. split; [|done].
  rewrite concat_app, concat_replicate_nil, app_nil_r, deal_concat.
  rewrite take_ge; [done|].
  rewrite (Permutation_length Hperm). subst pool. by rewrite ringsPool_length.
Qed.

(** C10. On an object built by the constructor from a generator whose
    values lie in [0,1), after any sequence of [move], [undo], [getHint]
    and [checkWin] calls the rings on the pegs are, as a multiset of
    (id, colour) pairs, the initial pool: (pegs - 2) * height rings, the
    i-th with id ring-i and the colour i mod colours of the palette.  No
    call creates, destroys, duplicates or recolours a ring.  (First
    conjunct: the position the shuffle exchanges with position i is never
    beyond i, so every exchange is inside the array.) *)
Theorem rings_conserved (random : nat -> Q) (d : DifficultyLevel) (ops : list Op) :
  (forall k, (0 <= random k)%Q /\ (random k < 1)%Q) ->
  Forall (fun op => op <> OpReset) ops ->
  (forall i calls, Z.to_nat (floorMul (random calls) (i + 1)) <= i) /\
  allRings (run random ops (construct random d)) ≡ₚ initialPool d /\
  length (initialPool d)
    = (pegs (DIFFICULTY_LEVELS d) - 2) * height (DIFFICULTY_LEVELS d).
Proof.
  intros Hrange Hops.
  split; [intros i calls; by apply shuffle_index_inside|].
  split; [|apply ringsPool_length].
  set (Inv := fun g : SortingGameLogic =>
                allRings g ≡ₚ initialPool d /\
                Forall (fun s => concat s ≡ₚ initialPool d) (_history g)).
  enough (Inv (run random ops (construct random d))) as [H _] by exact H.
  apply (run_invariant random (fun op => op <> OpReset) Inv); [|done|].
  - intros g op Hop [Hst Hh]. destruct op as [from to| | | |]; cbn [exec];
      [| |done|by split|by split].
    + destruct (canMove g from to) as [[]|] eqn:Hc.
      * destruct (move_legal g from to Hc) as (r & _ & ->).
        cbn [snd]. split.
        -- unfold allRings. cbn [_state with_state].
           destruct (canMove_true_indices g from to Hc) as (s & t & Hs & Ht).
           by rewrite (movedPegs_Permutation _ _ _ s t Hs Ht).
        -- cbn [_history with_state]. rewrite pushHistory_history.
           assert (Hall : Forall (fun s => concat s ≡ₚ initialPool d)
                            (_history g ++ [_state g])).
           { apply Forall_app. split; [done|]. by apply Forall_singleton. }
           destruct (_ <? _); [|done].
           destruct (_history g ++ [_state g]) as [|s0 h0]; [done|].
           by apply Forall_cons in Hall as [_ Hall].
      * rewrite move_illegal by done. by split.
      * unfold move. rewrite Hc. by split.
    + unfold undo. destruct (last (_history g)) as [prev|] eqn:Hl; [|by split].
      cbn [snd]. unfold allRings. cbn [_state _history].
      destruct (_history g) as [|s h _] using rev_ind; [done|].
      rewrite last_snoc in Hl. injection Hl as ->.
      apply Forall_app in Hh as [Hh Hprev].
      rewrite Forall_singleton in Hprev.
      rewrite removelast_last. by split.
  - destruct (construct_allRings random d) as [H1 H2].
    split; [done|]. rewrite H2. constructor.
Qed.

(** *** Calls with an index outside the pegs *)


Lemma canMove_unknown_target (g : SortingGameLogic) (from to : Z)
    (source : list Ring) :
  getIndex (_state g) from = Some source -> source <> [] ->
  getIndex (_state g) to = None ->
  canMove g from to = TypeError.
Proof.
  intros Hs Hne Ht. unfold canMove. rewrite Hs, Ht.
  destruct (last source) eqn:Hl; [done|]. by apply last_None_nil in Hl.
Qed.

Lemma canMove_spec_witness :
  getIndex (_state twoPegs) 0%Z
    = Some [mkRing "ring-0" "#f44336"; mkRing "ring-1" "#f44336"] /\
  getIndex (_state twoPegs) 1%Z = Some [] /\
  ([mkRing "ring-0" "#f44336"; mkRing "ring-1" "#f44336"] = [] ->
   canMove twoPegs 0%Z 1%Z = Normal false) /\
  (forall top,
     last [mkRing "ring-0" "#f44336"; mkRing "ring-1" "#f44336"] = Some top ->
     exists blockSize b,
       isTopBlock [mkRing "ring-0" "#f44336"; mkRing "ring-1" "#f44336"] blockSize /\
       canMove twoPegs 0%Z 1%Z = Normal b /\
       (b = true <->
        (([] : list Ring) = [] \/
         exists targetTop, last ([] : list Ring) = Some targetTop /\
                           color targetTop = color top) /\
        (Z.of_nat (height (_config twoPegs)) - Z.of_nat (length ([] : list Ring))
           >= Z.of_nat blockSize)%Z)).
Proof.
  split; [reflexivity|]. split; [reflexivity|].
  exact (canMove_spec twoPegs 0%Z 1%Z _ _ eq_refl eq_refl).
Defined.

Lemma move_invalid_unchanged_witness :
  canMove twoPegs 1%Z 0%Z = Normal false /\
  fst (move twoPegs 1%Z 0%Z) = Normal invalid /\
  _state (snd (move twoPegs 1%Z 0%Z)) = _state twoPegs /\
  _history (snd (move twoPegs 1%Z 0%Z)) = _history twoPegs /\
  snd (move twoPegs 1%Z 0%Z) = twoPegs.
Proof.
  split; [reflexivity|]. exact (move_invalid_unchanged twoPegs 1%Z 0%Z eq_refl).
Defined.

Lemma move_undo_restores_witness :
  canMove twoPegs 0%Z 1%Z = Normal true /\
  (exists r, fst (move twoPegs 0%Z 1%Z) = Normal r /\ r <> invalid) /\
  fst (undo (snd (move twoPegs 0%Z 1%Z))) = true /\
  _state (snd (undo (snd (move twoPegs 0%Z 1%Z)))) = _state twoPegs.
Proof.
  split; [reflexivity|]. exact (move_undo_restores twoPegs 0%Z 1%Z eq_refl).
Defined.

Lemma history_bounded_witness :
  length (_history twoPegsFullHistory) = 200 /\
  canMove twoPegsFullHistory 0%Z 1%Z = Normal true /\
  _history (snd (move twoPegsFullHistory 0%Z 1%Z))
    = tail (_history twoPegsFullHistory) ++ [_state twoPegsFullHistory] /\
  length (_history (snd (move twoPegsFullHistory 0%Z 1%Z))) = 200.
Proof.
  split; [reflexivity|]. split; [reflexivity|].
  exact (proj2 (history_bounded (fun _ => 0%Q)) twoPegsFullHistory 0%Z 1%Z
               eq_refl eq_refl).
Defined.

Lemma rings_conserved_witness :
  (forall k : nat, (0 <= (fun _ : nat => 0%Q) k)%Q /\ ((fun _ : nat => 0%Q) k < 1)%Q) /\
  Forall (fun op => op <> OpReset) [OpMove 0%Z 5%Z; OpGetHint; OpUndo; OpCheckWin] /\
  (forall i calls, Z.to_nat (floorMul ((fun _ : nat => 0%Q) calls) (i + 1)) <= i) /\
  allRings (run (fun _ => 0%Q) [OpMove 0%Z 5%Z; OpGetHint; OpUndo; OpCheckWin]
                (construct (fun _ => 0%Q) easy))
    ≡ₚ initialPool easy /\
  length (initialPool easy)
    = (pegs (DIFFICULTY_LEVELS easy) - 2) * height (DIFFICULTY_LEVELS easy).
Proof.
  assert (Hrange : forall k : nat,
            (0 <= (fun _ : nat => 0%Q) k)%Q /\ ((fun _ : nat => 0%Q) k < 1)%Q).
  { intros k. split; [apply Qle_refl|reflexivity]. }
  assert (Hops : Forall (fun op => op <> OpReset)
                        [OpMove 0%Z 5%Z; OpGetHint; OpUndo; OpCheckWin]).
  { repeat constructor; discriminate. }
  split; [exact Hrange|]. split; [exact Hops|].
  exact (rings_conserved (fun _ => 0%Q) easy _ Hrange Hops).
Defined.

End SortingFacts.

Module TetrisFacts.
Import Tetris TetrisSpec ArrayFacts.
Local Open Scope Z_scope.

(** *** The grid *)

Lemma usedAt_true (used : Grid) (r c : Z) :
  usedAt used r c = true <->
  exists line, getIndex used r = Some line /\ getIndex line c = Some true.
Proof.
  unfold usedAt. destruct (getIndex used r) as [line|] eqn:Hl.
  - destruct (getIndex line c) as [[]|] eqn:Hc; cbn.
    + split; [|done]. intros _. by exists line.
    + split; [done|]. intros (line' & [= <-] & Hc'). congruence.
    + split; [done|]. intros (line' & [= <-] & Hc'). congruence.
  - split; [done|]. by intros (line' & ? & _).
Qed.

Lemma wfGrid_line (W H : nat) (used : Grid) (r : Z) (line : list bool) :
  wfGrid W H used -> getIndex used r = Some line -> length line = W.
Proof.
  intros [_ Hall] [_ Hi]%getIndex_Some. rewrite Forall_lookup in Hall.
  by apply (Hall (Z.to_nat r)).
Qed.

Lemma wfGrid_empty (W H : nat) : wfGrid W H (emptyGrid W H).
Proof.
  unfold wfGrid, emptyGrid. rewrite length_replicate. split; [done|].
  apply Forall_replicate. by rewrite length_replicate.
Qed.

Lemma usedAt_empty (W H : nat) (r c : Z) : usedAt (emptyGrid W H) r c = false.
Proof.
  apply not_true_is_false. rewrite usedAt_true.
  intros (line & [_ Hl]%getIndex_Some & [_ Hc]%getIndex_Some).
  unfold emptyGrid in Hl. apply lookup_replicate in Hl as [-> _].
  by apply lookup_replicate in Hc as [? _].
Qed.

Lemma setUsed_wf (W H : nat) (used : Grid) (cell : Cell) :
  wfGrid W H used -> wfGrid W H (setUsed used cell).
Proof.
  intros Hwf. destruct cell as [r c]. unfold setUsed.
  destruct (getIndex used r) as [line|] eqn:Hl; [|done].
  destruct (c <? 0); [done|].
  pose proof (wfGrid_line W H used r line Hwf Hl) as Hw.
  destruct Hwf as [Hlen Hall].
  split; [by rewrite length_insert|].
  apply Forall_insert; [done|]. by rewrite length_insert.
Qed.

Lemma usedAt_setUsed (W H : nat) (used : Grid) (cell : Cell) (r c : Z) :
  wfGrid W H used -> inField W H cell ->
  usedAt (setUsed used cell) r c = true <-> cell = (r, c) \/ usedAt used r c = true.
Proof.
  intros Hwf [Hr0 Hc0]. destruct cell as [r0 c0]. cbn [fst snd] in *.
  unfold setUsed.
  assert (Hlt : (Z.to_nat r0 < length used)%nat) by (destruct Hwf; lia).
  destruct (lookup_lt_is_Some_2 _ _ Hlt) as [line Hline].
  assert (Hg : getIndex used r0 = Some line) by (apply getIndex_Some_inv; [lia|done]).
  rewrite Hg. destruct (Z.ltb_spec c0 0) as [?|_]; [lia|].
  assert (Hw : length line = W) by (by apply (wfGrid_line W H used r0)).
  rewrite !usedAt_true.
  setoid_rewrite (getIndex_insert used r0) ; [|lia|done].
  destruct (decide (r0 = r)) as [->|Hner].
  - split.
    + intros (line' & [= <-] & Hc').
      rewrite getIndex_insert in Hc' by lia.
      destruct (decide (c0 = c)) as [->|Hnec]; [by left|].
      right. by exists line.
    + intros [[= <-]|(line' & Hl' & Hc')].
      * eexists. split; [done|]. rewrite getIndex_insert by lia.
        by rewrite decide_True.
      * eexists. split; [done|]. rewrite getIndex_insert by lia.
        destruct (decide (c0 = c)); [done|]. congruence.
  - split.
    + intros (line' & Hl' & Hc'). right. by exists line'.
    + intros [[= ? ?]|(line' & Hl' & Hc')]; [done|]. by exists line'.
Qed.

Lemma markCells_spec (W H : nat) (cs : list Cell) (used : Grid) :
  wfGrid W H used ->
  (forall cell, cell ∈ cs -> inField W H cell) ->
  wfGrid W H (markCells used cs) /\
  forall r c, usedAt (markCells used cs) r c = true
              <-> (r, c) ∈ cs \/ usedAt used r c = true.
Proof.
  unfold markCells. revert used.
  induction cs as [|cell cs IH]; intros used Hwf Hin; cbn [fold_left].
  - split; [done|]. intros r c. split; [by right|].
    intros [Hc|Hu]; [by apply elem_of_nil in Hc|done].
  - destruct (IH (setUsed used cell)) as [Hwf' Hspec].
    + by apply setUsed_wf.
    + intros x Hx. apply Hin. by right.
    + split; [done|]. intros r c. rewrite Hspec.
      rewrite (usedAt_setUsed W H) by (done || apply Hin; by left).
      rewrite elem_of_cons.
      split; [intros [?|[->|?]]; auto | intros [[->|?]|?]; auto].
Qed.

(** *** Grounded pieces *)

Lemma columnBottomsOf_snoc (cs : list Cell) (row col : Z) :
  columnBottomsOf (cs ++ [(row, col)]) =
    match columnBottomsOf cs !! col with
    | None => <[col := row]> (columnBottomsOf cs)
    | Some current =>
        if current <? row then <[col := row]> (columnBottomsOf cs)
        else columnBottomsOf cs
    end.
Proof. unfold columnBottomsOf. by rewrite fold_left_app. Qed.

Lemma columnBottomsOf_spec (cs : list Cell) (c : Z) :
  match columnBottomsOf cs !! c with
  | Some r => (r, c) ∈ cs /\ forall r', (r', c) ∈ cs -> r' <= r
  | None => forall r', (r', c) ∉ cs
  end.
Proof.
  induction cs as [|[row col] cs IH] using rev_ind.
  - unfold columnBottomsOf. cbn [fold_left]. rewrite lookup_empty.
    intros r'. apply not_elem_of_nil.
  - rewrite columnBottomsOf_snoc.
    set (m := columnBottomsOf cs) in *.
    destruct (decide (col = c)) as [->|Hne].
    + destruct (m !! c) as [current|] eqn:Hm.
      * destruct IH as [Hin Hmax].
        destruct (Z.ltb_spec current row) as [Hlt|Hge].
        -- rewrite lookup_insert_eq. split.
           ++ apply elem_of_app. right. by apply list_elem_of_singleton.
           ++ intros r' [Hr'|Hr']%elem_of_app.
              ** specialize (Hmax _ Hr'). lia.
              ** apply list_elem_of_singleton in Hr'. injection Hr' as ->. lia.
        -- rewrite Hm. split.
           ++ apply elem_of_app. by left.
           ++ intros r' [Hr'|Hr']%elem_of_app; [by apply Hmax|].
              apply list_elem_of_singleton in Hr'. injection Hr' as ->. lia.
      * rewrite lookup_insert_eq. split.
        -- apply elem_of_app. right. by apply list_elem_of_singleton.
        -- intros r' [Hr'|Hr']%elem_of_app; [by apply IH in Hr'|].
           apply list_elem_of_singleton in Hr'. injection Hr' as ->. lia.
    + assert (Hsame :
        match m !! col with
        | Some current => if current <? row then <[col:=row]> m else m
        | None => <[col:=row]> m
        end !! c = m !! c).
      { destruct (m !! col) as [current|]; [destruct (current <? row)|];
          try done; by rewrite lookup_insert_ne. }
      rewrite Hsame.
      assert (Hmem : forall r', (r', c) ∈ cs ++ [(row, col)] <-> (r', c) ∈ cs).
      { intros r'. rewrite elem_of_app, list_elem_of_singleton.
        split; [intros [?|[= _ ?]]; congruence|by left]. }
      destruct (m !! c) as [r|].
      * destruct IH as [Hin Hmax]. split; [by apply Hmem|].
        intros r' Hr'. by apply Hmax, Hmem.
      * intros r' Hr'. by apply (IH r'), Hmem.
Qed.

Lemma isPieceGrounded_sound (H : nat) (cs below : list Cell) (used : Grid) :
  isPieceGrounded cs used H = true ->
  (forall r c, usedAt used r c = true -> (r, c) ∈ below) ->
  groundedOn H below cs.
Proof.
  intros Hg Hused r c Hin Hmax.
  pose proof (columnBottomsOf_spec cs c) as Hspec.
  destruct (columnBottomsOf cs !! c) as [r0|] eqn:Hm; [|by apply Hspec in Hin].
  destruct Hspec as [Hin0 Hmax0].
  assert (r0 = r) as -> by (specialize (Hmax _ Hin0); specialize (Hmax0 _ Hin); lia).
  unfold isPieceGrounded in Hg. rewrite forallb_forall in Hg.
  specialize (Hg (c, r)). cbn beta iota in Hg.
  destruct (Z.eqb_spec r (Z.of_nat H - 1)) as [->|Hne]; [by left|].
  right. apply Hused. apply Hg.
  apply list_elem_of_In. by apply elem_of_map_to_list.
Qed.

Lemma groundedAfter_snoc (H : nat) (ps : list LayoutPiece) (p : LayoutPiece)
    (placed : list Cell) :
  groundedAfter H placed (ps ++ [p]) <->
  groundedAfter H placed ps /\ groundedOn H (placed ++ allCells ps) (cells p).
Proof.
  revert placed. induction ps as [|q ps IH]; intros placed; cbn [app groundedAfter].
  - unfold allCells. cbn. rewrite app_nil_r. tauto.
  - rewrite IH. unfold allCells. cbn [map concat]. rewrite (assoc app). tauto.
Qed.

Lemma allCells_snoc (ps : list LayoutPiece) (p : LayoutPiece) :
  allCells (ps ++ [p]) = allCells ps ++ cells p.
Proof.
  unfold allCells. rewrite map_app, concat_app. cbn. by rewrite app_nil_r.
Qed.

Lemma shapes_NoDup (type : TetrominoType) (rotIdx : nat) (shape : list Cell) :
  TETROMINO_SHAPES type !! rotIdx = Some shape -> NoDup shape.
Proof.
  intros Hs.
  assert (Hall : Forall (fun s => bool_decide (NoDup s) = true) (TETROMINO_SHAPES type)).
  { destruct type; repeat constructor. }
  rewrite Forall_lookup in Hall. apply Hall in Hs. by apply bool_decide_eq_true in Hs.
Qed.

Lemma allValid_spec (W H : nat) (used : Grid) (cs : list Cell) :
  allValid W H used cs = true ->
  forall cell, cell ∈ cs -> inField W H cell /\ usedAt used (fst cell) (snd cell) = false.
Proof.
  unfold allValid. rewrite forallb_forall. intros Hall [nr nc] Hin.
  apply list_elem_of_In, Hall in Hin. cbn [fst snd]. unfold inField. cbn [fst snd].
  destruct (usedAt used nr nc); [by rewrite andb_false_r in Hin|].
  split; [lia|done].
Qed.

Lemma place_preserves (W H : nat) (used : Grid) (ps : list LayoutPiece)
    (piece : LayoutPiece) :
  fillInv W H used ps ->
  allValid W H used (cells piece) = true ->
  isPieceGrounded (cells piece) used H = true ->
  NoDup (cells piece) ->
  fillInv W H (markCells used (cells piece)) (ps ++ [piece]).
Proof.
  intros (Hwf & Huse & Hnd & Hfield & Hgr) Hvalid Hground Hndp.
  pose proof (allValid_spec W H used _ Hvalid) as Hv.
  destruct (markCells_spec W H (cells piece) used Hwf) as [Hwf' Hmark].
  { intros cell Hc. by apply Hv. }
  unfold fillInv. rewrite allCells_snoc.
  split; [apply Hwf'|]. split; [|split; [|split]].
  - intros r c. split.
    + intros Hu. apply Hmark in Hu as [Hu|Hu]; apply elem_of_app; [by right|].
      left. by apply Huse.
    + intros [Hc|Hc]%elem_of_app; apply Hmark; [right; by apply Huse|by left].
  - apply NoDup_app. split; [done|]. split; [|done].
    intros [r c] Hold Hnew. apply Huse in Hold.
    destruct (Hv _ Hnew) as [_ Hfree]. cbn [fst snd] in Hfree. congruence.
  - intros cell [Hc|Hc]%elem_of_app; [by apply Hfield|by apply Hv].
  - unfold groundedInOrder. apply groundedAfter_snoc. split; [done|].
    cbn [app]. apply (isPieceGrounded_sound H _ _ used); [done|].
    intros r c Hu. by apply Huse.
Qed.

Lemma filter_eq_NoDup (l : list Cell) (cell : Cell) :
  NoDup l -> cell ∈ l -> length (filter (fun x => x = cell) l) = 1%nat.
Proof.
  induction l as [|x l IH]; intros Hnd Hin; [by apply elem_of_nil in Hin|].
  apply NoDup_cons in Hnd as [Hx Hnd]. rewrite filter_cons.
  destruct (decide (x = cell)) as [->|Hne].
  - cbn [length]. f_equal. apply length_zero_iff_nil.
    apply elem_of_nil_inv. intros y [-> Hy]%list_elem_of_filter. done.
  - apply elem_of_cons in Hin as [->|Hin]; [done|]. by apply IH.
Qed.

(** *** The randomized fill *)

Section Fill.
Variable arraySort :
  forall (A St : Type), (A -> A -> St -> Q * St) -> list A -> St -> list A * St.
Hypothesis arraySort_elements : sortKeepsElements arraySort.
Variables W H : nat.

Lemma tryAnchors_accepts (shape anchors : list Cell) (used : Grid) (row col : Z)
    (cs : list Cell) :
  NoDup shape ->
  tryAnchors W H shape anchors used row col = Some cs -> accepted W H used cs.
Proof.
  intros Hnd. induction anchors as [|[anchorDr anchorDc] rest IH]; cbn [tryAnchors];
    [done|].
  set (placedCells := map _ shape).
  destruct (allValid W H used placedCells && isPieceGrounded placedCells used H)
    eqn:Hok; [|done].
  intros [= <-]. apply andb_true_iff in Hok as [Hv Hg].
  split; [done|]. split; [done|].
  subst placedCells. apply (NoDup_fmap_2_strong _ shape); [|done].
  intros [a b] [a' b'] _ _ [= ? ?]. f_equal; lia.
Qed.

Lemma tryRotations_returns (type : TetrominoType) (rotations : list nat)
    (used : Grid) (row col : Z) :
  (forall k, k ∈ rotations -> (k < 4)%nat) ->
  exists res,
    tryRotations W H type rotations used row col = Normal res /\
    match res with
    | Some (_, cs) => accepted W H used cs
    | None => True
    end.
Proof.
  induction rotations as [|rotIdx rest IH]; intros Hrot; cbn [tryRotations].
  - by exists None.
  - assert (Hlt : (rotIdx < length (TETROMINO_SHAPES type))%nat).
    { specialize (Hrot rotIdx ltac:(by left)). by destruct type. }
    destruct (lookup_lt_is_Some_2 _ _ Hlt) as [shape Hshape]. rewrite Hshape.
    destruct (tryAnchors W H shape shape used row col) as [cs|] eqn:Ha.
    + exists (Some (rotIdx, cs)). split; [done|].
      apply (tryAnchors_accepts shape shape used row col); [|done].
      by apply (shapes_NoDup type rotIdx).
    + apply IH. intros k Hk. apply Hrot. by right.
Qed.

Lemma sortRandomly_rotations (s : Z) (k : nat) :
  k ∈ fst (sortRandomly arraySort [0; 1; 2; 3]%nat s) -> (k < 4)%nat.
Proof.
  intros Hk. apply arraySort_elements in Hk.
  repeat (apply elem_of_cons in Hk as [->|Hk]; [lia|]).
  by apply elem_of_nil in Hk.
Qed.

Lemma tryTypes_returns (types : list TetrominoType) (used : Grid) (row col s : Z) :
  exists res s',
    tryTypes arraySort W H types used row col s = Normal (res, s') /\
    match res with
    | Some piece => accepted W H used (cells piece)
    | None => True
    end.
Proof.
  revert s. induction types as [|type rest IH]; intros s; cbn [tryTypes].
  - by exists None, s.
  - pose proof (sortRandomly_rotations s) as Hrot.
    destruct (sortRandomly arraySort [0; 1; 2; 3]%nat s) as [rotations s1].
    cbn [fst] in Hrot.
    destruct (tryRotations_returns type rotations used row col Hrot)
      as ([[rotIdx cs]|] & -> & Hres).
    + by exists (Some (mkPiece type rotIdx cs)), s1.
    + apply IH.
Qed.

Lemma fillCell_returns (row col : Z) (st : FillState) :
  fillInv W H (used st) (pieces st) ->
  exists st', fillCell arraySort W H row col st = Normal st' /\
              fillInv W H (used st') (pieces st').
Proof.
  intros Hinv. unfold fillCell.
  destruct (usedAt (used st) row col); [by exists st|].
  destruct (sortRandomly arraySort tetrominoTypes (seed st)) as [types s1].
  destruct (tryTypes_returns types (used st) row col s1)
    as ([piece|] & s2 & -> & Hres).
  - eexists. split; [done|]. cbn [used pieces].
    destruct Hres as (Hv & Hg & Hnd). by apply place_preserves.
  - eexists. split; [done|]. done.
Qed.

Lemma scanCols_returns (n col : nat) (row : Z) (st : FillState) :
  fillInv W H (used st) (pieces st) ->
  exists st', scanCols arraySort W H n col row st = Normal st' /\
              fillInv W H (used st') (pieces st').
Proof.
  revert col st. induction n as [|n IH]; intros col st Hinv; cbn [scanCols].
  - by exists st.
  - destruct (failed st); [by exists st|].
    destruct (fillCell_returns row (Z.of_nat col) st Hinv) as (st1 & -> & Hinv1).
    by apply IH.
Qed.

Lemma scanRows_returns (n : nat) (st : FillState) :
  fillInv W H (used st) (pieces st) ->
  exists st', scanRows arraySort W H n st = Normal st' /\
              fillInv W H (used st') (pieces st').
Proof.
  revert st. induction n as [|n IH]; intros st Hinv; cbn [scanRows].
  - by exists st.
  - destruct (failed st); [by exists st|].
    destruct (scanCols_returns W 0 (Z.of_nat n) st Hinv) as (st1 & -> & Hinv1).
    by apply IH.
Qed.

Lemma fillInv_empty : fillInv W H (emptyGrid W H) [].
Proof.
  split; [apply wfGrid_empty|]. split; [|split; [|split]].
  - intros r c. rewrite usedAt_empty. split; [done|].
    intros Hc. by apply elem_of_nil in Hc.
  - constructor.
  - intros cell Hc. by apply elem_of_nil in Hc.
  - exact I.
Qed.

Lemma isComplete_spec (used : Grid) (cell : Cell) :
  isComplete W H used = true -> inField W H cell ->
  usedAt used (fst cell) (snd cell) = true.
Proof.
  unfold isComplete. rewrite forallb_forall. intros Hall [Hr Hc].
  specialize (Hall (Z.to_nat (fst cell))). rewrite forallb_forall in Hall.
  specialize (Hall ltac:(apply in_seq; lia) (Z.to_nat (snd cell))
                   ltac:(apply in_seq; lia)).
  by rewrite !Z2Nat.id in Hall by lia.
Qed.

Lemma fillInv_complete (used : Grid) (ps : list LayoutPiece) :
  fillInv W H used ps -> isComplete W H used = true ->
  partitionsField W H ps /\ groundedInOrder H ps.
Proof.
  intros (Hwf & Huse & Hnd & Hfield & Hgr) Hc. split; [|done].
  split; [done|]. intros [r c] Hin.
  apply filter_eq_NoDup; [done|]. apply Huse.
  by apply (isComplete_spec used (r, c)).
Qed.

Lemma attempt_returns (s : Z) :
  exists res s',
    attempt arraySort W H s = Normal (res, s') /\
    match res with
    | Some ps => partitionsField W H ps /\ groundedInOrder H ps
    | None => True
    end.
Proof.
  unfold attempt.
  destruct (scanRows_returns H (mkFill (emptyGrid W H) [] false s) fillInv_empty)
    as (st & -> & Hinv).
  destruct (negb (failed st) && isComplete W H (used st)) eqn:Hok.
  - exists (Some (pieces st)), (seed st). split; [done|].
    apply andb_true_iff in Hok as [_ Hc]. by apply (fillInv_complete (used st)).
  - by exists None, (seed st).
Qed.

Lemma tryGenerate_returns (maxAttempts : nat) (s : Z) :
  exists res s',
    tryGenerate arraySort W H maxAttempts s = Normal (res, s') /\
    match res with
    | Some ps => partitionsField W H ps /\ groundedInOrder H ps
    | None => True
    end.
Proof.
  revert s. induction maxAttempts as [|n IH]; intros s; cbn [tryGenerate].
  - by exists None, s.
  - destruct (attempt_returns s) as ([ps|] & s1 & -> & Hres).
    + by exists (Some ps), s1.
    + apply IH.
Qed.

End Fill.

(** *** The fallback tiling *)

Lemma cell_eqb_eq (a b : Cell) : cell_eqb a b = true <-> a = b.
Proof.
  destruct a as [r c], b as [r' c']. unfold cell_eqb. cbn [fst snd].
  rewrite andb_true_iff, !Z.eqb_eq. split; [intros [-> ->]; done|].
  by intros [= -> ->].
Qed.

Lemma filter_cell_eqb_length (cell : Cell) (l : list Cell) :
  length (filter (fun x => x = cell) l) = length (List.filter (cell_eqb cell) l).
Proof.
  induction l as [|x l IH]; [done|]. rewrite filter_cons. cbn [List.filter].
  destruct (decide (x = cell)) as [->|Hne].
  - rewrite (proj2 (cell_eqb_eq cell cell) eq_refl). cbn [length]. by rewrite IH.
  - destruct (cell_eqb cell x) eqn:He; [|done].
    apply cell_eqb_eq in He. congruence.
Qed.

Lemma fieldCells_complete (W H : nat) (cell : Cell) :
  inField W H cell -> In cell (fieldCells W H).
Proof.
  intros [Hr Hc]. destruct cell as [r c]. cbn [fst snd] in *.
  unfold fieldCells. apply list_elem_of_In.
  apply list_elem_of_bind. exists (Z.to_nat r). split.
  - apply list_elem_of_bind. exists (Z.to_nat c). split.
    + rewrite !Z2Nat.id by lia. by apply list_elem_of_singleton.
    + apply elem_of_seq. lia.
  - apply elem_of_seq. lia.
Qed.

Lemma partitionsFieldb_sound (W H : nat) (ps : list LayoutPiece) :
  partitionsFieldb W H ps = true -> partitionsField W H ps.
Proof.
  unfold partitionsFieldb. rewrite andb_true_iff, !forallb_forall.
  intros [Hin Hcount]. split.
  - intros cell Hc. apply list_elem_of_In, Hin in Hc. unfold inField. lia.
  - intros cell Hc. rewrite filter_cell_eqb_length.
    apply fieldCells_complete, Hcount in Hc. by apply Nat.eqb_eq in Hc.
Qed.

Lemma groundedOnb_sound (H : nat) (below cs : list Cell) :
  groundedOnb H below cs = true -> groundedOn H below cs.
Proof.
  unfold groundedOnb. rewrite forallb_forall. intros Hall r c Hin Hmax.
  apply list_elem_of_In, Hall in Hin. cbn beta iota in Hin.
  apply orb_true_iff in Hin as [Hin|Hin]; [apply orb_true_iff in Hin as [Hin|Hin]|].
  - apply existsb_exists in Hin as ([r' c'] & Hin' & Hlt).
    apply andb_true_iff in Hlt as [->%Z.eqb_eq Hlt].
    apply list_elem_of_In, Hmax in Hin'. lia.
  - left. by apply Z.eqb_eq.
  - right. apply existsb_exists in Hin as (x & Hx & ->%cell_eqb_eq).
    by apply list_elem_of_In.
Qed.

Lemma groundedAfterb_sound (H : nat) (ps : list LayoutPiece) (placed : list Cell) :
  groundedAfterb H placed ps = true -> groundedAfter H placed ps.
Proof.
  revert placed. induction ps as [|p ps IH]; intros placed; cbn; [done|].
  rewrite andb_true_iff. intros [Hp Hrest]. split.
  - by apply groundedOnb_sound.
  - by apply IH.
Qed.

Lemma fallback_10_16 :
  partitionsField 10 16 (generateFallbackLayout 10 16) /\
  groundedInOrder 16 (generateFallbackLayout 10 16).
Proof.
  split.
  - apply partitionsFieldb_sound. vm_compute. reflexivity.
  - apply groundedAfterb_sound. vm_compute. reflexivity.
Qed.

(** The turn budgets of the two [while] loops of the fallback are never
    the reason a loop stops: any two budgets that cover the columns (or
    rows) still ahead, one turn each, give the same result. *)
Lemma fallbackRow_turns (W : nat) (t1 t2 : nat) (row col : Z)
    (st : list (list bool) * list LayoutPiece) :
  Z.of_nat W - col <= Z.of_nat t1 ->
  Z.of_nat W - col <= Z.of_nat t2 ->
  fallbackRow W t1 row col st = fallbackRow W t2 row col st.
Proof.
  revert t2 col st.
  induction t1 as [|t1 IH]; intros [|t2] col [used ps] H1 H2; cbn [fallbackRow];
    try done.
  - destruct (Z.ltb_spec col (Z.of_nat W)); [lia|done].
  - destruct (Z.ltb_spec col (Z.of_nat W)); [lia|done].
  - destruct (col <? Z.of_nat W); [|done].
    destruct (usedAt used row col); [apply IH; lia|].
    destruct (4 <=? _)%nat; [apply IH; lia|].
    destruct (_ && _); apply IH; lia.
Qed.

Lemma fallbackCol_turns (t1 t2 : nat) (row col : Z)
    (st : list (list bool) * list LayoutPiece) :
  row + 1 <= Z.of_nat t1 ->
  row + 1 <= Z.of_nat t2 ->
  fallbackCol t1 row col st = fallbackCol t2 row col st.
Proof.
  revert t2 row st.
  induction t1 as [|t1 IH]; intros [|t2] row [used ps] H1 H2; cbn [fallbackCol];
    try done.
  - destruct (Z.leb_spec 0 row); [lia|done].
  - destruct (Z.leb_spec 0 row); [lia|done].
  - destruct (0 <=? row); [|done].
    destruct (usedAt used row col); [apply IH; lia|].
    destruct (4 <=? _)%nat; apply IH; lia.
Qed.

(** *** [generatePieceLayout] *)

Lemma generatePieceLayout_10_16
    (arraySort : forall (A St : Type),
        (A -> A -> St -> Q * St) -> list A -> St -> list A * St)
    (seed : Z) :
  sortKeepsElements arraySort ->
  exists ps,
    generatePieceLayout arraySort 10 16 seed = Normal ps /\
    partitionsField 10 16 ps /\ groundedInOrder 16 ps.
Proof.
  intros Hsort. unfold generatePieceLayout.
  destruct (tryGenerate_returns arraySort Hsort 10 16 50 (mulberry32 seed))
    as ([ps|] & s' & -> & Hres).
  - by exists ps.
  - exists (generateFallbackLayout 10 16). split; [done|]. apply fallback_10_16.
Qed.

(** C5. For the field of the game, 10 columns by 16 rows, and every
    integer seed, [generatePieceLayout] returns a list of pieces whose
    cells partition the field: each of the 160 cells is listed exactly once
    over all the pieces, and no piece lists a cell outside the field.  This
    covers the layouts of the randomized fill and the fallback tiling. *)
Theorem generatePieceLayout_partitions
    (arraySort : forall (A St : Type),
        (A -> A -> St -> Q * St) -> list A -> St -> list A * St)
    (seed : Z) :
  sortKeepsElements arraySort ->
  exists ps,
    generatePieceLayout arraySort 10 16 seed = Normal ps /\
    partitionsField 10 16 ps.
Proof.
  intros Hsort.
  destruct (generatePieceLayout_10_16 arraySort seed Hsort) as (ps & Hps & Hpart & _).
  by exists ps.
Qed.

(** C6. For the field of the game and every integer seed, each piece of
    the sequence [generatePieceLayout] returns is grounded on the pieces
    before it in the sequence: in every column the piece occupies, its
    lowest cell is in the bottom row or has the cell under it covered by an
    earlier piece. *)
Theorem generatePieceLayout_grounded
    (arraySort : forall (A St : Type),
        (A -> A -> St -> Q * St) -> list A -> St -> list A * St)
    (seed : Z) :
  sortKeepsElements arraySort ->
  exists ps,
    generatePieceLayout arraySort 10 16 seed = Normal ps /\
    groundedInOrder 16 ps.
Proof.
  intros Hsort.
  destruct (generatePieceLayout_10_16 arraySort seed Hsort) as (ps & Hps & _ & Hgr).
  by exists ps.
Qed.

(** *** The generator *)

Lemma toUint32_range (x : Z) : 0 <= toUint32 x < 4294967296.
Proof. unfold toUint32. apply Z.mod_pos_bound. lia. Qed.

(** Every value of [random()] lies in [0,1). *)
Lemma random_value_range (s : Z) :
  (0 <= fst (random s))%Q /\ (fst (random s) < 1)%Q.
Proof.
  unfold random. cbn [fst].
  set (u := toUint32 _).
  assert (Hu : 0 <= u < 4294967296) by (subst u; apply toUint32_range).
  unfold Qle, Qlt. cbn [Qnum Qden]. lia.
Qed.



Lemma insertSorted_elements {A St : Type} (cmp : A -> A -> St -> Q * St)
    (x : A) (sorted : list A) (s : St) (y : A) :
  y ∈ fst (insertSorted cmp x sorted s) -> y = x \/ y ∈ sorted.
Proof.
  revert s. induction sorted as [|z rest IH]; intros s; cbn [insertSorted].
  - intros Hy%list_elem_of_singleton. by left.
  - destruct (cmp x z s) as [v s1]. destruct (Qle_bool v 0).
    + intros [->|Hy]%elem_of_cons; [by left|by right].
    + specialize (IH s1). destruct (insertSorted cmp x rest s1) as [rest' s2].
      intros [->|Hy]%elem_of_cons; [right; by left|].
      destruct (IH Hy) as [->|Hin]; [by left|right; by right].
Qed.

Lemma insertionSort_elements : sortKeepsElements insertionSort.
Proof.
  intros A St cmp xs. induction xs as [|x rest IH]; intros s y; cbn [insertionSort].
  - done.
  - specialize (IH s). destruct (insertionSort A St cmp rest s) as [sorted s1].
    intros [->|Hy]%insertSorted_elements; [by left|].
    right. by apply IH.
Qed.

(** With insertion sort as the engine's sort, seed 1 is filled by the
    randomized pass: 40 pieces. *)
Example generatePieceLayout_seed_1 :
  match generatePieceLayout insertionSort 10 16 1 with
  | Normal ps => length ps = 40%nat
  | TypeError => False
  end.
Proof. vm_compute. reflexivity. Qed.

Lemma generatePieceLayout_partitions_witness :
  sortKeepsElements insertionSort /\
  exists ps,
    generatePieceLayout insertionSort 10 16 2026 = Normal ps /\
    partitionsField 10 16 ps.
Proof.
  split; [exact insertionSort_elements|].
  exact (generatePieceLayout_partitions insertionSort 2026 insertionSort_elements).
Defined.

Lemma generatePieceLayout_grounded_witness :
  sortKeepsElements insertionSort /\
  exists ps,
    generatePieceLayout insertionSort 10 16 2026 = Normal ps /\
    groundedInOrder 16 ps.
Proof.
  split; [exact insertionSort_elements|].
  exact (generatePieceLayout_grounded insertionSort 2026 insertionSort_elements).
Defined.


End TetrisFacts.

Module GradientFacts.
Import Gradient GradientSpec ArrayFacts.

Lemma everyCorrectFrom_spec (index : nat) (tiles : list Tile) :
  everyCorrectFrom index tiles = true <->
  forall k tile, tiles !! k = Some tile -> correctIndex tile = index + k.
Proof.
  revert index. induction tiles as [|t tiles IH]; intros index; cbn [everyCorrectFrom].
  - split; [|done]. intros _ k tile Hk. by rewrite lookup_nil in Hk.
  - rewrite andb_true_iff, Nat.eqb_eq, IH. split.
    + intros [Ht Hrest] [|k] tile Hk; cbn in Hk.
      * injection Hk as <-. lia.
      * rewrite (Hrest k tile Hk). lia.
    + intros Hall. split.
      * rewrite (Hall 0 t eq_refl). lia.
      * intros k tile Hk. rewrite (Hall (S k) tile Hk). lia.
Qed.

Lemma collectNonAnchors_bounds (i : nat) (tiles : list Tile) (k : nat) :
  k ∈ collectNonAnchors i tiles -> i <= k < i + length tiles.
Proof.
  revert i. induction tiles as [|t tiles IH]; intros i; cbn [collectNonAnchors length].
  - intros Hk. by apply elem_of_nil in Hk.
  - destruct (isAnchor t).
    + intros Hk%IH. lia.
    + intros [->|Hk%IH]%elem_of_cons; lia.
Qed.

Lemma collectNonAnchors_first_two (i : nat) (tiles : list Tile) (a b : nat)
    (rest : list nat) :
  collectNonAnchors i tiles = a :: b :: rest -> i <= a < b /\ b < i + length tiles.
Proof.
  revert i. induction tiles as [|t tiles IH]; intros i; cbn [collectNonAnchors length];
    [done|].
  destruct (isAnchor t).
  - intros Hc%IH. lia.
  - intros [= <- Hc].
    assert (Hb : b ∈ collectNonAnchors (S i) tiles) by (rewrite Hc; by left).
    apply collectNonAnchors_bounds in Hb. lia.
Qed.

Lemma collectNonAnchors_length (i : nat) (tiles : list Tile) :
  length (collectNonAnchors i tiles)
    = length (filter (fun t => isAnchor t = false) tiles).
Proof.
  revert i. induction tiles as [|t tiles IH]; intros i; cbn [collectNonAnchors];
    [done|].
  rewrite filter_cons. destruct (isAnchor t).
  - rewrite decide_False by done. apply IH.
  - rewrite decide_True by done. cbn [length]. f_equal. apply IH.
Qed.

Lemma swapAt_length {A : Type} (i j : nat) (l : list A) :
  length (swapAt i j l) = length l.
Proof.
  unfold swapAt. destruct (l !! i); [|done]. destruct (l !! j); [|done].
  by rewrite !length_insert.
Qed.

Lemma shuffleNonAnchors_length (random : nat -> Q) (nonAnchorIndices : list nat)
    (i calls : nat) (result : list Tile) :
  length (fst (shuffleNonAnchors random nonAnchorIndices i calls result))
    = length result.
Proof.
  revert calls result. induction i as [|i IH]; intros calls result; [done|].
  cbn [shuffleNonAnchors]. rewrite IH.
  destruct (nonAnchorIndices !! S i); [|done].
  destruct (nonAnchorIndices !! _); [|done]. apply swapAt_length.
Qed.

Lemma shuffleTiles_not_complete (random : nat -> Q) (tiles : list Tile)
    (calls : nat) :
  2 <= length (collectNonAnchors 0 tiles) ->
  checkComplete (fst (shuffleTiles random tiles calls)) = false.
Proof.
  intros Htwo. unfold shuffleTiles, checkComplete.
  pose proof (shuffleNonAnchors_length random (collectNonAnchors 0 tiles)
                (length (collectNonAnchors 0 tiles) - 1) calls tiles) as Hlen.
  destruct (shuffleNonAnchors _ _ _ _ _) as [result calls']. cbn [fst] in Hlen.
  destruct (everyCorrectFrom 0 result) eqn:Hsolved; cbn [andb]; [|done].
  destruct (collectNonAnchors 0 tiles) as [|i [|j rest]] eqn:Hna;
    cbn [length] in Htwo; [lia|lia|].
  destruct (Nat.leb_spec 2 (length (i :: j :: rest))) as [_|Hlt];
    [|cbn [length] in Hlt; lia].
  cbn [fst].
  apply collectNonAnchors_first_two in Hna as [Hij Hj]. cbn [Nat.add] in Hj.
  apply not_true_is_false. intros Hc.
  rewrite everyCorrectFrom_spec in Hsolved, Hc.
  assert (Hi' : i < length result) by lia.
  assert (Hj' : j < length result) by lia.
  destruct (lookup_lt_is_Some_2 _ _ Hi') as [ti Hti].
  destruct (lookup_lt_is_Some_2 _ _ Hj') as [tj Htj].
  specialize (Hc i tj). specialize (Hsolved j tj Htj).
  unfold swapAt in Hc. rewrite Hti, Htj in Hc.
  rewrite list_lookup_insert_ne in Hc by lia.
  rewrite list_lookup_insert_eq in Hc by done.
  specialize (Hc eq_refl). lia.
Qed.

(** C8. For the tiles [generateTiles] produces for a level with at least
    two non-anchor tiles, and for every sequence of values of
    [Math.random] (in [0,1)), the result of [shuffleTiles] is not
    complete: the shuffled arrangement is never the solved one.  (First
    conjunct: the index drawn at step i of the shuffle is never beyond i,
    so every exchange is between two non-anchor positions.) *)
Theorem shuffleTiles_never_solved
    (tileColor : LevelConfig -> nat -> string) (random : nat -> Q)
    (level : LevelConfig) (calls : nat) :
  (forall k, (0 <= random k)%Q /\ (random k < 1)%Q) ->
  2 <= length (filter (fun t => isAnchor t = false) (generateTiles tileColor level)) ->
  (forall i k, Z.to_nat (floorMul (random k) (i + 1)) <= i) /\
  checkComplete (fst (shuffleTiles random (generateTiles tileColor level) calls))
    = false.
Proof.
  intros Hrange Htwo.
  split; [intros i k; by apply shuffle_index_inside|].
  apply shuffleTiles_not_complete.
  by rewrite (collectNonAnchors_length 0).
Qed.

Lemma shuffleTiles_never_solved_witness :
  (forall k : nat, (0 <= (fun _ : nat => 0%Q) k)%Q /\ ((fun _ : nat => 0%Q) k < 1)%Q) /\
  2 <= length (filter (fun t => isAnchor t = false)
                      (generateTiles (fun _ _ => "#000000") smallLevel)) /\
  (forall i k, Z.to_nat (floorMul ((fun _ : nat => 0%Q) k) (i + 1)) <= i) /\
  checkComplete
    (fst (shuffleTiles (fun _ => 0%Q)
            (generateTiles (fun _ _ => "#000000") smallLevel) 0)) = false.
Proof.
  assert (Hrange : forall k : nat,
            (0 <= (fun _ : nat => 0%Q) k)%Q /\ ((fun _ : nat => 0%Q) k < 1)%Q).
  { intros k. split; [apply Qle_refl|reflexivity]. }
  assert (Htwo : 2 <= length (filter (fun t => isAnchor t = false)
                                (generateTiles (fun _ _ => "#000000") smallLevel))).
  { vm_compute. lia. }
  split; [exact Hrange|]. split; [exact Htwo|].
  exact (shuffleTiles_never_solved (fun _ _ => "#000000") (fun _ => 0%Q)
           smallLevel 0 Hrange Htwo).
Defined.

End GradientFacts.

(** ** Results of invalid calls, across the engines *)

Module EngineFacts.
Import Sorting SortingSpec ArrayFacts SortingFacts.


(** A fresh easy game (generator constantly 0): an unknown source peg
    makes [canMove] return false, an unknown target peg makes it throw,
    and [move] with it. *)
Example canMove_target_unguarded :
  let g := construct (fun _ => 0%Q) easy in
  canMove g 100%Z 0%Z = Normal false /\
  canMove g 0%Z 100%Z = TypeError /\
  fst (move g 0%Z 100%Z) = TypeError.
Proof. vm_compute. repeat split. Qed.




End EngineFacts.

(** * Decimal identifiers *)

Module StringFacts.

Lemma append_cancel_l (p a b : string) :
  String.append p a = String.append p b -> a = b.
Proof. induction p as [|ch p IH]; cbn; [done|]. intros [= H]. by apply IH. Qed.

(** The decimal numeral of a natural number determines the number. *)
Lemma decimal_inj (n m : nat) :
  NilZero.string_of_uint (Nat.to_uint n) = NilZero.string_of_uint (Nat.to_uint m) ->
  n = m.
Proof.
  intros H. apply DecimalNat.Unsigned.to_uint_inj.
  assert (Hparse : forall k,
            NilZero.uint_of_string (NilZero.string_of_uint (Nat.to_uint k))
              = Some (Nat.to_uint k)).
  { intros k. apply NilZero.usu. intros Hnil.
    pose proof (DecimalNat.Unsigned.of_to k) as Hk. rewrite Hnil in Hk.
    cbn in Hk. subst k. discriminate. }
  pose proof (Hparse n) as Hn. rewrite H, Hparse in Hn. by injection Hn.
Qed.

End StringFacts.

(** * Further properties of the Tower-Sort engine *)

Module SortingFacts2.
Import Sorting SortingSpec SortingSpec2 ArrayFacts SortingFacts.

(** *** [shuffleArray] *)

Lemma shuffleLoop_calls {A : Type} (random : nat -> Q) (i calls : nat)
    (result : list A) :
  snd (shuffleLoop random i calls result) = calls + i.
Proof.
  revert calls result. induction i as [|i IH]; intros calls result; cbn [shuffleLoop].
  - cbn. lia.
  - rewrite IH. lia.
Qed.

(** X1. For a generator with values in [0,1), [shuffleArray] returns a
    permutation of the array it is given, of the same length, and draws
    one value for each position but the first. *)
Theorem shuffleArray_permutes {A : Type} (random : nat -> Q) (array : list A)
    (calls : nat) :
  (forall k, (0 <= random k)%Q /\ (random k < 1)%Q) ->
  fst (shuffleArray random array calls) ≡ₚ array /\
  length (fst (shuffleArray random array calls)) = length array /\
  snd (shuffleArray random array calls) = calls + (length array - 1).
Proof.
  intros _.
  pose proof (shuffleArray_Permutation random array calls) as Hp.
  split; [done|]. split; [by rewrite Hp|].
  apply shuffleLoop_calls.
Qed.

Lemma shuffleArray_permutes_witness :
  (forall k : nat, (0 <= (fun _ : nat => 0%Q) k)%Q /\ ((fun _ : nat => 0%Q) k < 1)%Q) /\
  fst (shuffleArray (fun _ => 0%Q) [1; 2; 3; 4; 5] 0) ≡ₚ [1; 2; 3; 4; 5] /\
  length (fst (shuffleArray (fun _ => 0%Q) [1; 2; 3; 4; 5] 0)) = length [1; 2; 3; 4; 5] /\
  snd (shuffleArray (fun _ => 0%Q) [1; 2; 3; 4; 5] 0) = 0 + (length [1; 2; 3; 4; 5] - 1).
Proof.
  assert (Hrange : forall k : nat,
            (0 <= (fun _ : nat => 0%Q) k)%Q /\ ((fun _ : nat => 0%Q) k < 1)%Q).
  { intros k. split; [apply Qle_refl|reflexivity]. }
  split; [exact Hrange|].
  exact (shuffleArray_permutes (fun _ => 0%Q) [1; 2; 3; 4; 5] 0 Hrange).
Defined.


(** *** The deal *)

Lemma reset_fields (random : nat -> Q) (g : SortingGameLogic) :
  _config (reset random g) = _config g /\
  _colors (reset random g) = _colors g /\
  _history (reset random g) = [] /\
  _nextRingId (reset random g)
    = _nextRingId g + (pegs (_config g) - 2) * height (_config g).
Proof.
  unfold reset, createInitialState.
  by destruct (shuffleArray random _ _) as [shuffled calls].
Qed.

Lemma reset_state (random : nat -> Q) (g : SortingGameLogic) :
  exists shuffled,
    shuffled ≡ₚ ringsPool (_colors g) (_nextRingId g)
                 ((pegs (_config g) - 2) * height (_config g)) /\
    _state (reset random g)
      = deal (pegs (_config g) - 2) (height (_config g)) shuffled
        ++ replicate (pegs (_config g) - (pegs (_config g) - 2)) [].
Proof.
  unfold reset, createInitialState.
  pose proof (shuffleArray_Permutation random
                (ringsPool (_colors g) (_nextRingId g)
                   ((pegs (_config g) - 2) * height (_config g)))
                (_randomCalls g)) as Hperm.
  destruct (shuffleArray random _ _) as [shuffled calls]. cbn [fst] in Hperm.
  by exists shuffled.
Qed.

Lemma deal_length (filled h : nat) (shuffled : list Ring) :
  length (deal filled h shuffled) = filled.
Proof.
  revert shuffled. induction filled as [|n IH]; intros shuffled; [done|].
  cbn [deal length]. by rewrite IH.
Qed.

Lemma deal_lookup (filled h : nat) (shuffled : list Ring) (p : nat) :
  p < filled ->
  deal filled h shuffled !! p = Some (take h (drop (p * h) shuffled)).
Proof.
  revert shuffled p. induction filled as [|n IH]; intros shuffled p Hp; [lia|].
  destruct p as [|p]; cbn [deal].
  - done.
  - change (deal n h (drop h shuffled) !! p
            = Some (take h (drop (S p * h) shuffled))).
    rewrite IH by lia. rewrite drop_drop. do 3 f_equal.
Qed.

(** The arrangement [reset] builds. *)
Lemma reset_shape (random : nat -> Q) (g : SortingGameLogic) :
  2 <= pegs (_config g) ->
  let st := _state (reset random g) in
  length st = pegs (_config g) /\
  (forall p peg, p < pegs (_config g) - 2 -> st !! p = Some peg ->
                 length peg = height (_config g)) /\
  st !! (pegs (_config g) - 2) = Some [] /\
  st !! (pegs (_config g) - 1) = Some [] /\
  _history (reset random g) = [].
Proof.
  intros Hpegs st. subst st.
  destruct (reset_state random g) as (shuffled & Hperm & ->).
  set (n := pegs (_config g) - 2). set (h := height (_config g)).
  assert (Hlen : length shuffled = n * h).
  { rewrite (Permutation_length Hperm). apply ringsPool_length. }
  replace (pegs (_config g) - n) with 2 by (subst n; lia).
  rewrite length_app, deal_length, length_replicate.
  split; [subst n; lia|]. split; [|split; [|split]].
  - intros p peg Hp. rewrite lookup_app_l by (by rewrite deal_length).
    rewrite deal_lookup by done. intros [= <-].
    rewrite length_take, length_drop, Hlen.
    assert (p * h + h <= n * h) by nia. lia.
  - rewrite lookup_app_r by (rewrite deal_length; lia).
    rewrite deal_length. by replace (n - n) with 0 by lia.
  - rewrite lookup_app_r by (rewrite deal_length; subst n; lia).
    rewrite deal_length. by replace (pegs (_config g) - 1 - n) with 1 by (subst n; lia).
  - apply reset_fields.
Qed.

(** X2. [reset] (and so the constructor) deals the shuffled pool into all
    pegs but the last two: the object has [pegs] pegs, the first [pegs - 2]
    hold exactly [height] rings each, the last two are empty, and the
    history is empty. *)
Theorem reset_deals (random : nat -> Q) (g : SortingGameLogic) :
  (forall k, (0 <= random k)%Q /\ (random k < 1)%Q) ->
  2 <= pegs (_config g) ->
  let st := _state (reset random g) in
  length st = pegs (_config g) /\
  (forall p peg, p < pegs (_config g) - 2 -> st !! p = Some peg ->
                 length peg = height (_config g)) /\
  st !! (pegs (_config g) - 2) = Some [] /\
  st !! (pegs (_config g) - 1) = Some [] /\
  _history (reset random g) = [].
Proof. intros _. apply reset_shape. Qed.

Lemma reset_deals_witness :
  (forall k : nat, (0 <= (fun _ : nat => 0%Q) k)%Q /\ ((fun _ : nat => 0%Q) k < 1)%Q) /\
  2 <= pegs (_config twoPegs) /\
  let st := _state (reset (fun _ => 0%Q) twoPegs) in
  length st = pegs (_config twoPegs) /\
  (forall p peg, p < pegs (_config twoPegs) - 2 -> st !! p = Some peg ->
                 length peg = height (_config twoPegs)) /\
  st !! (pegs (_config twoPegs) - 2) = Some [] /\
  st !! (pegs (_config twoPegs) - 1) = Some [] /\
  _history (reset (fun _ => 0%Q) twoPegs) = [].
Proof.
  assert (Hrange : forall k : nat,
            (0 <= (fun _ : nat => 0%Q) k)%Q /\ ((fun _ : nat => 0%Q) k < 1)%Q).
  { intros k. split; [apply Qle_refl|reflexivity]. }
  assert (Hpegs : 2 <= pegs (_config twoPegs)) by (cbn; lia).
  split; [exact Hrange|]. split; [exact Hpegs|].
  exact (reset_deals (fun _ => 0%Q) twoPegs Hrange Hpegs).
Defined.


(** *** What every reachable object keeps *)

Lemma move_cases (g : SortingGameLogic) (from to : Z) :
  snd (move g from to) = g \/
  (canMove g from to = Normal true /\
   snd (move g from to)
     = with_state (pushHistory g) (movedPegs (_state g) from to)).
Proof.
  destruct (canMove g from to) as [[]|] eqn:Hc.
  - right. split; [done|]. by destruct (move_legal g from to Hc) as (r & _ & ->).
  - left. by rewrite move_illegal.
  - left. unfold move. by rewrite Hc.
Qed.

Lemma exec_fields (random : nat -> Q) (g : SortingGameLogic) (op : Op) :
  _config (exec random g op) = _config g /\
  _colors (exec random g op) = _colors g.
Proof.
  destruct op as [from to| | | |]; cbn [exec]; try done.
  - by destruct (move_cases g from to) as [-> | [_ ->]].
  - unfold undo. by destruct (last (_history g)).
  - by destruct (reset_fields random g) as (-> & -> & _).
Qed.

Lemma history_step (P : list (list Ring) -> Prop) (g : SortingGameLogic) :
  P (_state g) -> Forall P (_history g) -> Forall P (_history (pushHistory g)).
Proof.
  intros Hs Hh. rewrite pushHistory_history.
  assert (Hall : Forall P (_history g ++ [_state g])).
  { apply Forall_app. split; [done|]. by apply Forall_singleton. }
  destruct (_ <? _); [|done].
  destruct (_history g ++ [_state g]) as [|s0 h0]; [done|].
  by apply Forall_cons in Hall as [_ Hall].
Qed.

Lemma undo_step (P : list (list Ring) -> Prop) (g : SortingGameLogic) :
  P (_state g) -> Forall P (_history g) ->
  P (_state (snd (undo g))) /\ Forall P (_history (snd (undo g))).
Proof.
  intros Hs Hh. unfold undo.
  destruct (last (_history g)) as [prev|] eqn:Hl; [|by split].
  cbn [snd _state _history].
  destruct (_history g) as [|s h _] using rev_ind; [done|].
  rewrite last_snoc in Hl. injection Hl as ->.
  apply Forall_app in Hh as [Hh Hprev]. rewrite Forall_singleton in Hprev.
  rewrite removelast_last. by split.
Qed.

Lemma movedPegs_fits (cfg : DifficultyConfig) (g : SortingGameLogic) (from to : Z) :
  _config g = cfg ->
  canMove g from to = Normal true ->
  fitsConfig cfg (_state g) ->
  fitsConfig cfg (movedPegs (_state g) from to).
Proof.
  intros Hcfg Hc [Hlen Hall].
  unfold canMove in Hc. unfold movedPegs.
  destruct (getIndex (_state g) from) as [source|] eqn:Hs; [|done].
  destruct (last source) as [top|]; [|done].
  destruct (getIndex (_state g) to) as [target|] eqn:Ht; [|done].
  destruct (match last target with Some _ => _ | None => _ end); [done|].
  destruct (Nat.ltb_spec (height (_config g))
              (length target + getTopBlockSize source)) as [|Hroom]; [done|].
  clear Hc. change (default [] (Some source)) with source.
  set (n := length source - getTopBlockSize source).
  set (st1 := <[Z.to_nat from := take n source]> (_state g)).
  apply getIndex_Some in Hs as [Hfrom Hs]. apply getIndex_Some in Ht as [Hto Ht].
  assert (Hsrc : length source <= height cfg).
  { rewrite Forall_lookup in Hall. by apply (Hall _ _ Hs). }
  assert (Hst1 : Forall (fun peg => length peg <= height cfg) st1).
  { apply Forall_insert; [done|]. rewrite length_take. lia. }
  split; [subst st1; by rewrite !length_insert|].
  apply Forall_insert; [done|].
  rewrite length_app, length_drop.
  destruct (decide (Z.to_nat from = Z.to_nat to)) as [Heq|Hne].
  - assert (Hg : getIndex st1 to = Some (take n source)).
    { apply getIndex_Some_inv; [done|]. subst st1. rewrite <- Heq.
      apply list_lookup_insert_eq. by apply lookup_lt_Some in Hs. }
    rewrite Hg. change (default [] (Some (take n source))) with (take n source).
    rewrite length_take. lia.
  - assert (Hg : getIndex st1 to = Some target).
    { apply getIndex_Some_inv; [done|]. subst st1.
      by rewrite list_lookup_insert_ne. }
    rewrite Hg. change (default [] (Some target)) with target.
    subst cfg. subst n. lia.
Qed.

(** X3. In every object reached from the constructor by any sequence of
    calls (moves, undos, resets, hints), there is one peg per configured
    peg and no peg holds more rings than the configured height. *)
Theorem pegs_within_height (random : nat -> Q) (d : DifficultyLevel) (ops : list Op) :
  (forall k, (0 <= random k)%Q /\ (random k < 1)%Q) ->
  let g := run random ops (construct random d) in
  _config g = DIFFICULTY_LEVELS d /\
  length (_state g) = pegs (DIFFICULTY_LEVELS d) /\
  Forall (fun peg => length peg <= height (DIFFICULTY_LEVELS d)) (_state g).
Proof.
  intros Hrange g. subst g. set (cfg := DIFFICULTY_LEVELS d).
  set (Inv := fun g : SortingGameLogic =>
                _config g = cfg /\ fitsConfig cfg (_state g) /\
                Forall (fitsConfig cfg) (_history g)).
  assert (Hreset : forall g, _config g = cfg -> Inv (reset random g)).
  { intros g Hcfg.
    assert (Hpegs : 2 <= pegs (_config g)) by (rewrite Hcfg; subst cfg; by destruct d; cbn; lia).
    destruct (reset_shape random g Hpegs) as (Hlen & Hfull & He1 & He2 & Hh).
    destruct (reset_fields random g) as (Hc & _).
    split; [congruence|]. split; [|rewrite Hh; constructor].
    split; [congruence|]. apply Forall_lookup. intros p peg Hp.
    destruct (decide (p < pegs (_config g) - 2)) as [Hlt|Hge].
    - rewrite (Hfull p peg Hlt Hp). by rewrite Hcfg.
    - assert (Hp' : p < pegs (_config g)).
      { apply lookup_lt_Some in Hp. lia. }
      destruct (decide (p = pegs (_config g) - 2)) as [->|Hne].
      + rewrite He1 in Hp. injection Hp as <-. cbn. lia.
      + replace p with (pegs (_config g) - 1) in Hp by lia.
        rewrite He2 in Hp. injection Hp as <-. cbn. lia. }
  enough (Inv (run random ops (construct random d))) as (H1 & [H2 H3] & _) by done.
  apply (run_invariant random (fun _ => True) Inv); [|by apply Forall_forall|].
  - intros g op _ (Hcfg & Hst & Hh).
    destruct op as [from to| | | |]; cbn [exec]; try done.
    + destruct (move_cases g from to) as [-> | [Hc ->]]; [done|].
      split; [done|]. split.
      * by apply (movedPegs_fits cfg g).
      * cbn [_history with_state]. by apply history_step.
    + destruct (undo_step (fitsConfig cfg) g Hst Hh) as [H1 H2].
      split; [|done]. unfold undo. by destruct (last (_history g)).
    + by apply Hreset.
  - unfold construct. by apply Hreset.
Qed.

Lemma pegs_within_height_witness :
  (forall k : nat, (0 <= (fun _ : nat => 0%Q) k)%Q /\ ((fun _ : nat => 0%Q) k < 1)%Q) /\
  let g := run (fun _ => 0%Q) [OpMove 0%Z 5%Z; OpReset; OpUndo]
               (construct (fun _ => 0%Q) easy) in
  _config g = DIFFICULTY_LEVELS easy /\
  length (_state g) = pegs (DIFFICULTY_LEVELS easy) /\
  Forall (fun peg => length peg <= height (DIFFICULTY_LEVELS easy)) (_state g).
Proof.
  assert (Hrange : forall k : nat,
            (0 <= (fun _ : nat => 0%Q) k)%Q /\ ((fun _ : nat => 0%Q) k < 1)%Q).
  { intros k. split; [apply Qle_refl|reflexivity]. }
  split; [exact Hrange|].
  exact (pegs_within_height (fun _ => 0%Q) easy
           [OpMove 0%Z 5%Z; OpReset; OpUndo] Hrange).
Defined.


(** *** Ring identities and colours *)

Lemma ringIdOf_inj (n m : nat) : ringIdOf n = ringIdOf m -> n = m.
Proof.
  unfold ringIdOf. intros H.
  by apply StringFacts.decimal_inj, (StringFacts.append_cancel_l "ring-").
Qed.

Lemma ringsPool_ids_NoDup (cs : list string) (first total : nat) :
  NoDup (map id (ringsPool cs first total)).
Proof.
  unfold ringsPool. rewrite map_map. cbn [id].
  apply (NoDup_fmap_2_strong (fun i => ringIdOf (first + i))).
  - intros i j _ _ Hij%ringIdOf_inj. lia.
  - apply NoDup_seq.
Qed.

Lemma ringsPool_colors (cs : list string) (first total : nat) :
  map color (ringsPool cs first total) = map color (ringsPool cs 0 total).
Proof. unfold ringsPool. by rewrite !map_map. Qed.

Lemma countColor_Permutation (c : string) (l k : list Ring) :
  l ≡ₚ k -> countColor c l = countColor c k.
Proof.
  intros Hp. unfold countColor.
  induction Hp as [|x l k Hp IH|x y l|l k m H1 IH1 H2 IH2]; cbn [List.filter].
  - done.
  - destruct (String.eqb (color x) c); cbn [length]; by rewrite IH.
  - by destruct (String.eqb (color x) c), (String.eqb (color y) c).
  - by rewrite IH1.
Qed.

Lemma countColor_map (c : string) (l k : list Ring) :
  map color l = map color k -> countColor c l = countColor c k.
Proof.
  unfold countColor. revert k.
  induction l as [|x l IH]; intros [|y k]; cbn [map List.filter]; try done.
  intros [= Hxy Hlk]. rewrite Hxy.
  destruct (String.eqb (color y) c); cbn [length]; by rewrite (IH k Hlk).
Qed.

Lemma initialPool_balanced (d : DifficultyLevel) :
  Forall (fun c => countColor c (initialPool d)
                   = (pegs (DIFFICULTY_LEVELS d) - 2) * height (DIFFICULTY_LEVELS d)
                     / colors (DIFFICULTY_LEVELS d))
         (take (colors (DIFFICULTY_LEVELS d)) ALL_COLORS).
Proof.
  apply Forall_forall. intros c Hc. apply list_elem_of_In in Hc.
  assert (Hb : forallb (fun c => Nat.eqb (countColor c (initialPool d))
                 ((pegs (DIFFICULTY_LEVELS d) - 2) * height (DIFFICULTY_LEVELS d)
                  / colors (DIFFICULTY_LEVELS d)))
                 (take (colors (DIFFICULTY_LEVELS d)) ALL_COLORS) = true)
    by (destruct d; vm_compute; reflexivity).
  rewrite forallb_forall in Hb. by apply Nat.eqb_eq, Hb.
Qed.

Lemma reset_fromOnePool (random : nat -> Q) (d : DifficultyLevel)
    (g : SortingGameLogic) :
  _config g = DIFFICULTY_LEVELS d ->
  _colors g = take (colors (DIFFICULTY_LEVELS d)) ALL_COLORS ->
  fromOnePool d (reset random g).
Proof.
  intros Hcfg Hcol. destruct (reset_fields random g) as (Hc & Hcs & Hh & _).
  split; [congruence|]. split; [congruence|].
  exists (_nextRingId g). cbn zeta. rewrite Hh. split; [|constructor].
  destruct (reset_state random g) as (shuffled & Hperm & Hst).
  unfold allRings. rewrite Hst.
  rewrite concat_app, concat_replicate_nil, app_nil_r, deal_concat.
  rewrite take_ge.
  - by rewrite Hperm, Hcfg, Hcol.
  - rewrite (Permutation_length Hperm). by rewrite ringsPool_length.
Qed.

Lemma run_fromOnePool (random : nat -> Q) (d : DifficultyLevel) (ops : list Op) :
  fromOnePool d (run random ops (construct random d)).
Proof.
  apply (run_invariant random (fun _ => True) (fromOnePool d));
    [|by apply Forall_forall|by apply reset_fromOnePool].
  intros g op _ (Hcfg & Hcol & first & Hst & Hh).
  destruct op as [from to| | | |]; cbn [exec].
  - destruct (move_cases g from to) as [-> | [Hc ->]];
      [split; [done|]; split; [done|]; by exists first|].
    split; [done|]. split; [done|]. exists first. cbn zeta. split.
    + unfold allRings. cbn [_state with_state].
      destruct (canMove_true_indices g from to Hc) as (src & tgt & Hs & Ht).
      by rewrite (movedPegs_Permutation _ _ _ src tgt Hs Ht).
    + cbn [_history with_state]. by apply history_step.
  - set (P := fun s : list (list Ring) =>
                concat s ≡ₚ ringsPool (take (colors (DIFFICULTY_LEVELS d)) ALL_COLORS)
                              first
                              ((pegs (DIFFICULTY_LEVELS d) - 2)
                               * height (DIFFICULTY_LEVELS d))).
    destruct (undo_step P g Hst Hh) as [H1 H2].
    split; [unfold undo; by destruct (last (_history g))|].
    split; [unfold undo; by destruct (last (_history g))|].
    by exists first.
  - by apply reset_fromOnePool.
  - split; [done|]. split; [done|]. by exists first.
  - split; [done|]. split; [done|]. by exists first.
Qed.

(** X4. In every object reached from the constructor by any sequence of
    calls, resets included, no two rings on the pegs have the same id, and
    the pegs hold exactly (pegs - 2) * height rings. *)
Theorem ring_ids_unique (random : nat -> Q) (d : DifficultyLevel) (ops : list Op) :
  (forall k, (0 <= random k)%Q /\ (random k < 1)%Q) ->
  let g := run random ops (construct random d) in
  NoDup (map id (allRings g)) /\
  length (allRings g)
    = (pegs (DIFFICULTY_LEVELS d) - 2) * height (DIFFICULTY_LEVELS d).
Proof.
  intros _ g. subst g.
  destruct (run_fromOnePool random d ops) as (_ & _ & first & Hst & _).
  cbn zeta in Hst. rewrite Hst. split.
  - apply ringsPool_ids_NoDup.
  - apply ringsPool_length.
Qed.

(** X5. In every such object each colour of the palette in use is the
    colour of exactly (pegs - 2) * height / colours rings. *)
Theorem colours_balanced (random : nat -> Q) (d : DifficultyLevel) (ops : list Op)
    (c : string) :
  (forall k, (0 <= random k)%Q /\ (random k < 1)%Q) ->
  c ∈ take (colors (DIFFICULTY_LEVELS d)) ALL_COLORS ->
  countColor c (allRings (run random ops (construct random d)))
    = (pegs (DIFFICULTY_LEVELS d) - 2) * height (DIFFICULTY_LEVELS d)
      / colors (DIFFICULTY_LEVELS d).
Proof.
  intros _ Hc.
  destruct (run_fromOnePool random d ops) as (_ & _ & first & Hst & _).
  cbn zeta in Hst. rewrite (countColor_Permutation c _ _ Hst).
  rewrite (countColor_map c _ (initialPool d)) by apply ringsPool_colors.
  pose proof (initialPool_balanced d) as Hall. rewrite Forall_forall in Hall.
  by apply Hall.
Qed.

Lemma ring_ids_unique_witness :
  (forall k : nat, (0 <= (fun _ : nat => 0%Q) k)%Q /\ ((fun _ : nat => 0%Q) k < 1)%Q) /\
  let g := run (fun _ => 0%Q) [OpMove 0%Z 5%Z; OpReset] (construct (fun _ => 0%Q) easy) in
  NoDup (map id (allRings g)) /\
  length (allRings g)
    = (pegs (DIFFICULTY_LEVELS easy) - 2) * height (DIFFICULTY_LEVELS easy).
Proof.
  assert (Hrange : forall k : nat,
            (0 <= (fun _ : nat => 0%Q) k)%Q /\ ((fun _ : nat => 0%Q) k < 1)%Q).
  { intros k. split; [apply Qle_refl|reflexivity]. }
  split; [exact Hrange|].
  exact (ring_ids_unique (fun _ => 0%Q) easy [OpMove 0%Z 5%Z; OpReset] Hrange).
Defined.

Lemma colours_balanced_witness :
  (forall k : nat, (0 <= (fun _ : nat => 0%Q) k)%Q /\ ((fun _ : nat => 0%Q) k < 1)%Q) /\
  "#ff9800" ∈ take (colors (DIFFICULTY_LEVELS easy)) ALL_COLORS /\
  countColor "#ff9800"
    (allRings (run (fun _ => 0%Q) [OpMove 0%Z 5%Z] (construct (fun _ => 0%Q) easy)))
    = (pegs (DIFFICULTY_LEVELS easy) - 2) * height (DIFFICULTY_LEVELS easy)
      / colors (DIFFICULTY_LEVELS easy).
Proof.
  assert (Hrange : forall k : nat,
            (0 <= (fun _ : nat => 0%Q) k)%Q /\ ((fun _ : nat => 0%Q) k < 1)%Q).
  { intros k. split; [apply Qle_refl|reflexivity]. }
  assert (Hc : "#ff9800" ∈ take (colors (DIFFICULTY_LEVELS easy)) ALL_COLORS).
  { cbn. apply elem_of_cons. right. by left. }
  split; [exact Hrange|]. split; [exact Hc|].
  exact (colours_balanced (fun _ => 0%Q) easy [OpMove 0%Z 5%Z] "#ff9800" Hrange Hc).
Defined.

(** *** The scans of [getHint] and [isDeadlocked] *)

Lemma forUpTo_first {A : Type} (n start : nat) (body : nat -> option A) (a : A) :
  forUpTo n start body = Some a ->
  exists i, start <= i < start + n /\ body i = Some a /\
            forall j, start <= j < i -> body j = None.
Proof.
  revert start. induction n as [|n IH]; intros start; cbn; [done|].
  destruct (body start) as [x|] eqn:Hb.
  - intros [= ->]. exists start. split; [lia|]. split; [done|]. intros j Hj. lia.
  - intros H. destruct (IH _ H) as (i & Hi & Hbi & Hbefore).
    exists i. split; [lia|]. split; [done|].
    intros j Hj. destruct (decide (j = start)) as [->|Hne]; [done|].
    apply Hbefore. lia.
Qed.

Lemma forUpTo_None {A : Type} (n start : nat) (body : nat -> option A) :
  forUpTo n start body = None <->
  forall i, start <= i < start + n -> body i = None.
Proof.
  revert start. induction n as [|n IH]; intros start; cbn.
  - split; [intros _ i Hi; lia|done].
  - destruct (body start) as [x|] eqn:Hb.
    + split; [done|]. intros H. specialize (H start ltac:(lia)). congruence.
    + rewrite IH. split.
      * intros H i Hi. destruct (decide (i = start)) as [->|Hne]; [done|].
        apply H. lia.
      * intros H i Hi. apply H. lia.
Qed.

Lemma forUpTo_fmap {A B : Type} (f : A -> B) (n start : nat) (body : nat -> option A) :
  forUpTo n start (fun i => f <$> body i) = f <$> forUpTo n start body.
Proof.
  revert start. induction n as [|n IH]; intros start; cbn; [done|].
  destruct (body start); cbn; [done|]. apply IH.
Qed.

Lemma forUpTo_ext {A : Type} (n start : nat) (body1 body2 : nat -> option A) :
  (forall i, body1 i = body2 i) -> forUpTo n start body1 = forUpTo n start body2.
Proof.
  intros Hext. revert start. induction n as [|n IH]; intros start; cbn; [done|].
  rewrite Hext. destruct (body2 start); [done|]. apply IH.
Qed.

Lemma hintBody_None (g : SortingGameLogic) (from to : nat) :
  to < length (_state g) ->
  hintBody g from to = None <->
  (from <> to -> canMove g (Z.of_nat from) (Z.of_nat to) = Normal false).
Proof.
  intros Hto. unfold hintBody.
  pose proof (canMove_in_range g (Z.of_nat from) to Hto) as Hc.
  destruct (Nat.eqb_spec from to) as [->|Hne]; [by split|].
  destruct (canMove g (Z.of_nat from) (Z.of_nat to)) as [[]|]; [|by split|done].
  split; [done|]. intros H. by specialize (H Hne).
Qed.

Lemma hintBody_Some (g : SortingGameLogic) (from to : nat)
    (r : completion (option (nat * nat))) :
  to < length (_state g) ->
  hintBody g from to = Some r ->
  r = Normal (Some (from, to)) /\ from <> to /\
  canMove g (Z.of_nat from) (Z.of_nat to) = Normal true.
Proof.
  intros Hto. unfold hintBody.
  pose proof (canMove_in_range g (Z.of_nat from) to Hto) as Hc.
  destruct (Nat.eqb_spec from to) as [->|Hne]; [done|].
  destruct (canMove g (Z.of_nat from) (Z.of_nat to)) as [[]|]; [|done|done].
  by intros [= <-].
Qed.

Lemma hintBody_not_null (g : SortingGameLogic) (from to : nat) :
  hintBody g from to <> Some (Normal None).
Proof.
  unfold hintBody. destruct (from =? to); [done|].
  by destruct (canMove g (Z.of_nat from) (Z.of_nat to)) as [[]|].
Qed.

Lemma getHint_unfold (g : SortingGameLogic) :
  getHint g
  = match forUpTo (length (_state g)) 0
            (fun from => forUpTo (length (_state g)) 0 (hintBody g from)) with
    | Some r => r
    | None => Normal None
    end.
Proof. reflexivity. Qed.

(** The double scan of [getHint], with its first hit. *)
Lemma getHint_scan (g : SortingGameLogic) :
  match getHint g with
  | Normal (Some (from, to)) =>
      from < length (_state g) /\ to < length (_state g) /\ from <> to /\
      canMove g (Z.of_nat from) (Z.of_nat to) = Normal true /\
      forall f t, f < length (_state g) -> t < length (_state g) -> f <> t ->
                  f < from \/ (f = from /\ t < to) ->
                  canMove g (Z.of_nat f) (Z.of_nat t) = Normal false
  | Normal None =>
      forall f t, f < length (_state g) -> t < length (_state g) -> f <> t ->
                  canMove g (Z.of_nat f) (Z.of_nat t) = Normal false
  | TypeError => False
  end.
Proof.
  rewrite getHint_unfold.
  set (n := length (_state g)).
  destruct (forUpTo n 0 (fun from => forUpTo n 0 (hintBody g from)))
    as [r|] eqn:Hscan.
  - apply forUpTo_first in Hscan as (from & Hfrom & Hin & Hbefore).
    apply forUpTo_first in Hin as (to & Hto & Hbody & Hbefore').
    apply hintBody_Some in Hbody as (-> & Hne & Hc); [|lia].
    split; [lia|]. split; [lia|]. split; [done|]. split; [done|].
    intros f t Hf Ht Hft [Hlt|[-> Hlt]].
    + specialize (Hbefore f ltac:(lia)).
      rewrite forUpTo_None in Hbefore. specialize (Hbefore t ltac:(lia)).
      by apply hintBody_None in Hbefore.
    + specialize (Hbefore' t ltac:(lia)). by apply hintBody_None in Hbefore'.
  - intros f t Hf Ht Hft. rewrite forUpTo_None in Hscan.
    specialize (Hscan f ltac:(lia)). rewrite forUpTo_None in Hscan.
    specialize (Hscan t ltac:(lia)). by apply hintBody_None in Hscan.
Qed.

(** [isDeadlocked] runs the scan of [getHint] and keeps only whether it
    found a move. *)
Lemma isDeadlocked_scan (g : SortingGameLogic) :
  isDeadlocked g = match getHint g with
                   | Normal None => Normal true
                   | Normal (Some _) => Normal false
                   | TypeError => TypeError
                   end.
Proof.
  rewrite getHint_unfold. unfold isDeadlocked.
  set (n := length (_state g)).
  set (phi := fun r : completion (option (nat * nat)) =>
                match r with
                | Normal _ => Normal false
                | TypeError => TypeError
                end).
  rewrite (forUpTo_ext n 0 _
             (fun from => phi <$> forUpTo n 0 (hintBody g from))).
  2:{ intros from. rewrite <- forUpTo_fmap. apply forUpTo_ext. intros to.
      unfold hintBody. destruct (from =? to); [done|].
      by destruct (canMove g (Z.of_nat from) (Z.of_nat to)) as [[]|]. }
  rewrite forUpTo_fmap.
  destruct (forUpTo n 0 (fun from => forUpTo n 0 (hintBody g from)))
    as [r|] eqn:Hscan; cbn; [|done].
  apply forUpTo_first in Hscan as (from & _ & Hin & _).
  apply forUpTo_first in Hin as (to & _ & Hbody & _).
  destruct r as [[h|]|]; [done| |done].
  by apply hintBody_not_null in Hbody.
Qed.

(** X6. [getHint] never throws.  When it returns a move, the two pegs are
    different pegs of the game, the move is legal, and no pair of different
    pegs before it in the scan order (by source, then by target) is legal;
    it returns [null] exactly when no move between two different pegs is
    legal. *)
Theorem getHint_first_legal (g : SortingGameLogic) :
  getHint g <> TypeError /\
  (forall from to, getHint g = Normal (Some (from, to)) ->
     from < length (_state g) /\ to < length (_state g) /\ from <> to /\
     canMove g (Z.of_nat from) (Z.of_nat to) = Normal true /\
     forall f t, f < length (_state g) -> t < length (_state g) -> f <> t ->
                 f < from \/ (f = from /\ t < to) ->
                 canMove g (Z.of_nat f) (Z.of_nat t) = Normal false) /\
  (getHint g = Normal None <->
   forall f t, f < length (_state g) -> t < length (_state g) -> f <> t ->
               canMove g (Z.of_nat f) (Z.of_nat t) = Normal false).
Proof.
  pose proof (getHint_scan g) as Hh.
  destruct (getHint g) as [[[from to]|]|]; [| |done].
  - split; [done|]. split; [by intros ? ? [= <- <-]|].
    split; [done|]. intros Hall.
    destruct Hh as (Hf & Ht & Hne & Hc & _).
    specialize (Hall from to Hf Ht Hne). congruence.
  - split; [done|]. split; [done|]. by split.
Qed.

(** X7. [isDeadlocked] never throws and agrees with [getHint]: it returns
    true exactly when [getHint] returns [null], that is, exactly when no
    move between two different pegs is legal, and false exactly when
    [getHint] returns a move. *)
Theorem isDeadlocked_iff_no_hint (g : SortingGameLogic) :
  (isDeadlocked g = Normal true \/ isDeadlocked g = Normal false) /\
  (isDeadlocked g = Normal true <-> getHint g = Normal None) /\
  (isDeadlocked g = Normal false <-> exists h, getHint g = Normal (Some h)) /\
  (isDeadlocked g = Normal true <->
   forall f t, f < length (_state g) -> t < length (_state g) -> f <> t ->
               canMove g (Z.of_nat f) (Z.of_nat t) = Normal false).
Proof.
  rewrite isDeadlocked_scan.
  pose proof (getHint_scan g) as Hh.
  destruct (getHint g) as [[[from to]|]|]; [| |done].
  - split; [by right|]. split; [by split|]. split; [split; [by eexists|done]|].
    split; [done|]. intros Hall.
    destruct Hh as (Hf & Ht & Hne & Hc & _).
    specialize (Hall from to Hf Ht Hne). congruence.
  - split; [by left|]. split; [by split|].
    split; [split; [done|by intros [h Hh']]|]. by split.
Qed.

(** *** The effect of a legal [move] *)

Lemma movedPegs_lookup (st : list (list Ring)) (from to : Z) (source target : list Ring) :
  getIndex st from = Some source -> getIndex st to = Some target ->
  let n := length source - getTopBlockSize source in
  length (movedPegs st from to) = length st /\
  (from = to -> movedPegs st from to = st) /\
  (from <> to ->
   getIndex (movedPegs st from to) from = Some (take n source) /\
   getIndex (movedPegs st from to) to = Some (target ++ drop n source) /\
   forall k, k <> from -> k <> to ->
             getIndex (movedPegs st from to) k = getIndex st k).
Proof.
  intros Hs Ht n. unfold movedPegs. rewrite Hs.
  change (default [] (Some source)) with source. fold n.
  pose proof (getIndex_Some _ _ _ Hs) as [Hfrom Hs'].
  pose proof (getIndex_Some _ _ _ Ht) as [Hto Ht'].
  pose proof (lookup_lt_Some _ _ _ Hs') as Hfl.
  pose proof (lookup_lt_Some _ _ _ Ht') as Htl.
  split; [by rewrite !length_insert|]. split.
  - intros <-. rewrite getIndex_insert by done.
    rewrite decide_True by done.
    change (default [] (Some (take n source))) with (take n source).
    rewrite take_drop, list_insert_insert_eq. by apply list_insert_id.
  - intros Hne.
    assert (Hg : getIndex (<[Z.to_nat from := take n source]> st) to = Some target).
    { rewrite getIndex_insert by done. by rewrite decide_False. }
    rewrite Hg. change (default [] (Some target)) with target.
    split; [|split].
    + rewrite getIndex_insert; [|done|by rewrite length_insert].
      rewrite decide_False by done.
      rewrite getIndex_insert by done. by rewrite decide_True.
    + rewrite getIndex_insert; [|done|by rewrite length_insert].
      by rewrite decide_True.
    + intros k Hkf Hkt.
      rewrite getIndex_insert; [|done|by rewrite length_insert].
      rewrite decide_False by done.
      rewrite getIndex_insert by done. by rewrite decide_False.
Qed.

(** X8. A legal move between two different pegs takes the block at the top
    of the source peg (the maximal run of rings of the top colour) off the
    source and puts it, in the same order, on top of the target; every other
    peg stays as it was, the target does not exceed the configured height,
    and the snapshot pushed on the history is the arrangement before the
    move.  A legal move from a peg to itself leaves the pegs as they were.
    The tag returned is [win] when [checkWin] holds after the move,
    otherwise [deadlock] or [ok] as [isDeadlocked] says. *)
Theorem move_carries_block (g : SortingGameLogic) (from to : Z) :
  canMove g from to = Normal true ->
  exists source target,
    let b := getTopBlockSize source in
    let g' := snd (move g from to) in
    getIndex (_state g) from = Some source /\
    getIndex (_state g) to = Some target /\
    isTopBlock source b /\ 1 <= b /\
    length (_state g') = length (_state g) /\
    last (_history g') = Some (_state g) /\
    (from = to -> _state g' = _state g) /\
    (from <> to ->
     getIndex (_state g') from = Some (take (length source - b) source) /\
     getIndex (_state g') to = Some (target ++ drop (length source - b) source) /\
     length (target ++ drop (length source - b) source) <= height (_config g) /\
     forall k, k <> from -> k <> to ->
               getIndex (_state g') k = getIndex (_state g) k) /\
    fst (move g from to)
      = Normal (if checkWin g' then win
                else match isDeadlocked g' with
                     | Normal false => ok
                     | _ => deadlock
                     end).
Proof.
  intros Hc.
  destruct (canMove_true_indices g from to Hc) as (source & target & Hs & Ht).
  exists source, target. cbn zeta.
  pose proof (getTopBlockSize_isTopBlock source) as Hb.
  assert (Hroom : 1 <= getTopBlockSize source /\
                  length target + getTopBlockSize source <= height (_config g)).
  { unfold canMove in Hc. rewrite Hs, Ht in Hc.
    unfold isTopBlock in Hb.
    destruct (last source) as [top|]; [|done].
    destruct (match last target with Some _ => _ | None => _ end); [done|].
    destruct (Nat.ltb_spec (height (_config g))
                (length target + getTopBlockSize source)); [done|]. lia. }
  destruct Hroom as [Hb1 Hroom].
  assert (Hmove : move g from to
            = (Normal (if checkWin (with_state (pushHistory g) (movedPegs (_state g) from to))
                       then win
                       else match isDeadlocked
                                    (with_state (pushHistory g) (movedPegs (_state g) from to)) with
                            | Normal false => ok
                            | _ => deadlock
                            end),
               with_state (pushHistory g) (movedPegs (_state g) from to))).
  { unfold move. rewrite Hc. cbn zeta.
    change (_state (pushHistory g)) with (_state g).
    fold (movedPegs (_state g) from to).
    set (g2 := with_state _ _).
    destruct (checkWin g2); [done|].
    pose proof (isDeadlocked_returns g2) as Hd.
    by destruct (isDeadlocked g2) as [[]|]. }
  rewrite Hmove. cbn [fst snd].
  change (_state (with_state (pushHistory g) (movedPegs (_state g) from to)))
    with (movedPegs (_state g) from to).
  change (_history (with_state (pushHistory g) (movedPegs (_state g) from to)))
    with (_history (pushHistory g)).
  destruct (movedPegs_lookup (_state g) from to source target Hs Ht)
    as (Hlen & Hsame & Hdiff).
  split; [done|]. split; [done|]. split; [done|]. split; [done|].
  split; [done|]. split; [apply pushHistory_last|]. split; [done|].
  split; [|done].
  intros Hne. destruct (Hdiff Hne) as (H1 & H2 & H3).
  split; [done|]. split; [done|]. split; [|done].
  rewrite length_app, length_drop. lia.
Qed.

Lemma move_carries_block_witness :
  canMove twoPegs 0 1 = Normal true /\
  exists source target,
    let b := getTopBlockSize source in
    let g' := snd (move twoPegs 0 1) in
    getIndex (_state twoPegs) 0 = Some source /\
    getIndex (_state twoPegs) 1 = Some target /\
    isTopBlock source b /\ 1 <= b /\
    length (_state g') = length (_state twoPegs) /\
    last (_history g') = Some (_state twoPegs) /\
    (0%Z = 1%Z -> _state g' = _state twoPegs) /\
    (0%Z <> 1%Z ->
     getIndex (_state g') 0 = Some (take (length source - b) source) /\
     getIndex (_state g') 1 = Some (target ++ drop (length source - b) source) /\
     length (target ++ drop (length source - b) source) <= height (_config twoPegs) /\
     forall k, k <> 0%Z -> k <> 1%Z ->
               getIndex (_state g') k = getIndex (_state twoPegs) k) /\
    fst (move twoPegs 0 1)
      = Normal (if checkWin g' then win
                else match isDeadlocked g' with
                     | Normal false => ok
                     | _ => deadlock
                     end).
Proof.
  assert (Hc : canMove twoPegs 0 1 = Normal true) by reflexivity.
  split; [exact Hc|]. exact (move_carries_block twoPegs 0 1 Hc).
Defined.

(** *** [checkWin] *)





(** *** Undoing a sequence of moves *)

Lemma snapshots_length (g : SortingGameLogic) (ms : list (Z * Z)) :
  length (snapshots g ms) = length ms.
Proof.
  revert g. induction ms as [|[from to] ms IH]; intros g; cbn; [done|].
  by rewrite IH.
Qed.

Lemma moveAll_history (g : SortingGameLogic) (ms : list (Z * Z)) :
  allLegal g ms -> length (_history g) <= 200 ->
  _history (moveAll g ms)
  = drop (length (_history g) + length ms - 200) (_history g ++ snapshots g ms).
Proof.
  revert g. induction ms as [|[from to] ms IH]; intros g Hlegal Hb.
  - cbn. rewrite app_nil_r.
    replace (length (_history g) + 0 - 200) with 0 by lia. done.
  - destruct Hlegal as [Hc Hlegal]. cbn [moveAll fold_left snapshots length].
    fold (moveAll (snd (move g from to)) ms).
    destruct (move_legal g from to Hc) as (r & _ & Hmove).
    assert (Hh : _history (snd (move g from to)) = _history (pushHistory g))
      by (by rewrite Hmove).
    assert (Hb' : length (_history (snd (move g from to))) <= 200).
    { rewrite Hh. by apply pushHistory_length. }
    rewrite (IH _ Hlegal Hb'). rewrite Hh, pushHistory_history.
    unfold _maxHistorySize. rewrite length_app. cbn [length].
    destruct (Nat.ltb_spec 200 (length (_history g) + 1)) as [Hfull|Hroom].
    + assert (Hlen : length (_history g) = 200) by lia.
      destruct (_history g) as [|h0 hs] eqn:Hhist; [cbn in Hlen; lia|].
      cbn [app tail]. cbn [length] in *.
      rewrite length_app. cbn [length].
      replace (length hs + 1 + length ms - 200) with (length ms) by lia.
      replace (S (length hs) + S (length ms) - 200) with (S (length ms)) by lia.
      cbn [drop]. by rewrite <- app_assoc.
    + rewrite length_app. cbn [length].
      replace (length (_history g) + 1 + length ms - 200)
        with (length (_history g) + S (length ms) - 200) by lia.
      by rewrite <- app_assoc.
Qed.

Lemma undoTimes_history (ss : list (list (list Ring))) (hs : list (list (list Ring)))
    (g : SortingGameLogic) :
  _history g = hs ++ ss ->
  _history (undoTimes (length ss) g) = hs /\
  forall s ss', ss = s :: ss' -> _state (undoTimes (length ss) g) = s.
Proof.
  revert hs. induction ss as [|s ss IH]; intros hs Hg.
  - cbn. rewrite app_nil_r in Hg. by split.
  - cbn [length].
    change (undoTimes (S (length ss)) g)
      with (snd (undo (undoTimes (length ss) g))).
    destruct (IH (hs ++ [s])) as [Hh _]; [by rewrite <- app_assoc|].
    unfold undo. rewrite Hh, last_snoc. cbn [snd _history _state].
    split; [by rewrite removelast_last|]. by intros ? ? [= <- _].
Qed.

(** X10. After at most 200 legal moves, as many calls of [undo] bring back
    the arrangement from before the first move; the history is then the
    one before the moves, less the oldest snapshots the moves pushed out
    of its 200 places. *)
Theorem undo_reverts_moves (g : SortingGameLogic) (ms : list (Z * Z)) :
  allLegal g ms -> length (_history g) <= 200 -> length ms <= 200 ->
  let g' := undoTimes (length ms) (moveAll g ms) in
  _state g' = _state g /\
  _history g' = drop (length (_history g) + length ms - 200) (_history g).
Proof.
  intros Hlegal Hb Hms g'. subst g'.
  pose proof (moveAll_history g ms Hlegal Hb) as Hh.
  rewrite drop_app_le in Hh by lia.
  rewrite <- (snapshots_length g ms) at 1 3.
  destruct (undoTimes_history _ _ _ Hh) as [Hhist Hstate].
  split; [|by rewrite snapshots_length in Hhist |- *].
  destruct ms as [|[from to] ms]; [done|].
  by apply (Hstate _ (snapshots (snd (move g from to)) ms)).
Qed.

Lemma undo_reverts_moves_witness :
  allLegal twoPegsFullHistory [(0%Z, 1%Z); (1%Z, 0%Z)] /\
  length (_history twoPegsFullHistory) <= 200 /\
  length [(0%Z, 1%Z); (1%Z, 0%Z)] <= 200 /\
  let g' := undoTimes 2 (moveAll twoPegsFullHistory [(0%Z, 1%Z); (1%Z, 0%Z)]) in
  _state g' = _state twoPegsFullHistory /\
  _history g' = drop (length (_history twoPegsFullHistory) + 2 - 200)
                     (_history twoPegsFullHistory).
Proof.
  assert (Hl : allLegal twoPegsFullHistory [(0%Z, 1%Z); (1%Z, 0%Z)])
    by (vm_compute; auto).
  assert (Hb : length (_history twoPegsFullHistory) <= 200) by (vm_compute; lia).
  assert (Hm : length [(0%Z, 1%Z); (1%Z, 0%Z)] <= 200) by (cbn; lia).
  split; [exact Hl|]. split; [exact Hb|]. split; [exact Hm|].
  exact (undo_reverts_moves twoPegsFullHistory [(0%Z, 1%Z); (1%Z, 0%Z)] Hl Hb Hm).
Defined.

End SortingFacts2.

(** * Further properties of the Tile-Gradient engine *)

Module GradientFacts2.
Import Gradient GradientSpec GradientSpec2 ArrayFacts GradientFacts.

Lemma swapAt_lookup {A : Type} (i j k : nat) (l : list A) (ri rj : A) :
  l !! i = Some ri -> l !! j = Some rj ->
  swapAt i j l !! k
  = if decide (k = j) then Some ri else if decide (k = i) then Some rj else l !! k.
Proof.
  intros Hi Hj. unfold swapAt. rewrite Hi, Hj.
  pose proof (lookup_lt_Some _ _ _ Hi) as Hil.
  pose proof (lookup_lt_Some _ _ _ Hj) as Hjl.
  destruct (decide (k = j)) as [->|Hkj].
  - rewrite list_lookup_insert_eq; [done|by rewrite length_insert].
  - rewrite list_lookup_insert_ne by done.
    destruct (decide (k = i)) as [->|Hki].
    + by rewrite list_lookup_insert_eq.
    + by rewrite list_lookup_insert_ne.
Qed.

Lemma swapAt_involutive {A : Type} (i j : nat) (l : list A) :
  swapAt i j (swapAt i j l) = l.
Proof.
  destruct (l !! i) as [ri|] eqn:Hi; [|by unfold swapAt; rewrite Hi, ?Hi].
  destruct (l !! j) as [rj|] eqn:Hj.
  2:{ unfold swapAt. rewrite Hi, Hj. by rewrite Hi, Hj. }
  apply list_eq. intros k.
  assert (Hi' : swapAt i j l !! i = Some (if decide (i = j) then ri else rj)).
  { rewrite (swapAt_lookup i j i l ri rj Hi Hj).
    destruct (decide (i = j)); [done|]. by rewrite decide_True. }
  assert (Hj' : swapAt i j l !! j = Some ri).
  { rewrite (swapAt_lookup i j j l ri rj Hi Hj). by rewrite decide_True. }
  rewrite (swapAt_lookup i j k _ _ _ Hi' Hj').
  rewrite (swapAt_lookup i j k l ri rj Hi Hj).
  destruct (decide (k = j)) as [->|Hkj].
  - destruct (decide (i = j)) as [->|Hij]; congruence.
  - destruct (decide (k = i)) as [->|Hki]; [done|done].
Qed.

(** *** [generateTiles] *)

Lemma tileIdOf_inj (n m : nat) : tileIdOf n = tileIdOf m -> n = m.
Proof.
  unfold tileIdOf. intros H. by apply StringFacts.decimal_inj, (StringFacts.append_cancel_l "tile-").
Qed.

Lemma existsb_eqb_elem_of (i : nat) (l : list nat) :
  existsb (Nat.eqb i) l = true <-> i ∈ l.
Proof.
  rewrite existsb_exists. split.
  - intros (x & Hx & ->%Nat.eqb_eq). by apply list_elem_of_In.
  - intros Hi. exists i. split; [by apply list_elem_of_In|apply Nat.eqb_refl].
Qed.

(** X11. [generateTiles] returns the solved arrangement of the level: one
    tile per cell, the tile at index [i] having [i] as its correct index,
    the identifier [tile-i] (so identifiers are pairwise distinct) and the
    anchor flag set exactly when [i] is listed in the level's anchors;
    [checkComplete] holds of it. *)
Theorem generateTiles_solved (tileColor : LevelConfig -> nat -> string)
    (level : LevelConfig) :
  let tiles := generateTiles tileColor level in
  length tiles = cols level * rows level /\
  checkComplete tiles = true /\
  NoDup (id <$> tiles) /\
  forall i tile, tiles !! i = Some tile ->
    id tile = tileIdOf i /\ correctIndex tile = i /\
    color tile = tileColor level i /\
    (isAnchor tile = true <-> i ∈ anchors level).
Proof.
  cbn zeta. unfold generateTiles.
  set (mk := fun i => mkTile (tileIdOf i) (tileColor level i) i
                             (existsb (Nat.eqb i) (anchors level))).
  change (map mk (seq 0 (cols level * rows level)))
    with (mk <$> seq 0 (cols level * rows level)).
  assert (Hlookup : forall i tile,
            (mk <$> seq 0 (cols level * rows level)) !! i = Some tile ->
            tile = mk i).
  { intros i tile. rewrite list_lookup_fmap.
    destruct (seq 0 (cols level * rows level) !! i) as [k|] eqn:Hk; [|done].
    apply lookup_seq in Hk as [-> _]. by intros [= <-]. }
  split; [by rewrite length_fmap, length_seq|]. split; [|split].
  - unfold checkComplete. apply everyCorrectFrom_spec.
    intros k tile Hk. by rewrite (Hlookup k tile Hk).
  - rewrite <- list_fmap_compose.
    apply NoDup_fmap_2_strong; [|apply NoDup_seq].
    intros i j _ _ Hij. cbn in Hij. by apply tileIdOf_inj.
  - intros i tile Hi. rewrite (Hlookup i tile Hi). cbn.
    split; [done|]. split; [done|]. split; [done|]. apply existsb_eqb_elem_of.
Qed.

(** *** [swapTiles] *)

(** X12. When [swapTiles] returns an array, neither of the two tiles is an
    anchor and the array is the given one with the two tiles exchanged:
    same length, same tiles, every other position (hence every anchor) as
    before; the given array is not changed, and swapping the same two
    positions of the result gives the original arrangement back. *)
Theorem swapTiles_exchanges (tiles : list Tile) (indexA indexB : Z)
    (result : list Tile) :
  swapTiles tiles indexA indexB = Normal (Some result) ->
  exists ta tb,
    getIndex tiles indexA = Some ta /\ getIndex tiles indexB = Some tb /\
    isAnchor ta = false /\ isAnchor tb = false /\
    getIndex result indexA = Some tb /\ getIndex result indexB = Some ta /\
    (forall k, k <> indexA -> k <> indexB -> getIndex result k = getIndex tiles k) /\
    (forall k t, tiles !! k = Some t -> isAnchor t = true -> result !! k = Some t) /\
    length result = length tiles /\ result ≡ₚ tiles /\
    swapTiles result indexA indexB = Normal (Some tiles).
Proof.
  unfold swapTiles.
  destruct (getIndex tiles indexA) as [ta|] eqn:Ha; [|done].
  destruct (isAnchor ta) eqn:Hta; [done|].
  destruct (getIndex tiles indexB) as [tb|] eqn:Hb; [|done].
  destruct (isAnchor tb) eqn:Htb; [done|].
  intros [= <-]. exists ta, tb.
  apply getIndex_Some in Ha as [Ha0 Ha]. apply getIndex_Some in Hb as [Hb0 Hb].
  assert (HrA : getIndex (swapAt (Z.to_nat indexA) (Z.to_nat indexB) tiles) indexA
                = Some tb).
  { apply getIndex_Some_inv; [done|]. rewrite (swapAt_lookup _ _ _ _ _ _ Ha Hb).
    destruct (decide (Z.to_nat indexA = Z.to_nat indexB)) as [Heq|Hne].
    - rewrite Heq in Ha. congruence.
    - by rewrite decide_True. }
  assert (HrB : getIndex (swapAt (Z.to_nat indexA) (Z.to_nat indexB) tiles) indexB
                = Some ta).
  { apply getIndex_Some_inv; [done|]. rewrite (swapAt_lookup _ _ _ _ _ _ Ha Hb).
    by rewrite decide_True. }
  split; [done|]. split; [done|].
  split; [done|]. split; [done|]. split; [done|]. split; [done|].
  split; [|split; [|split; [|split]]].
  - intros k Hka Hkb. unfold getIndex.
    destruct (Z.ltb_spec k 0); [done|].
    rewrite (swapAt_lookup _ _ _ _ _ _ Ha Hb).
    rewrite decide_False by lia. by rewrite decide_False by lia.
  - intros k t Hk Ht. rewrite (swapAt_lookup _ _ _ _ _ _ Ha Hb).
    destruct (decide (k = Z.to_nat indexB)) as [->|Hkb]; [congruence|].
    destruct (decide (k = Z.to_nat indexA)) as [->|Hka]; [congruence|done].
  - apply swapAt_length.
  - apply SortingFacts.swapAt_Permutation.
  - rewrite HrA, Htb, HrB, Hta. by rewrite swapAt_involutive.
Qed.

Lemma swapTiles_exchanges_witness :
  swapTiles twoTiles 0 1 = Normal (Some (rev twoTiles)) /\
  exists ta tb,
    getIndex twoTiles 0 = Some ta /\ getIndex twoTiles 1 = Some tb /\
    isAnchor ta = false /\ isAnchor tb = false /\
    getIndex (rev twoTiles) 0 = Some tb /\ getIndex (rev twoTiles) 1 = Some ta /\
    (forall k, k <> 0%Z -> k <> 1%Z -> getIndex (rev twoTiles) k = getIndex twoTiles k) /\
    (forall k t, twoTiles !! k = Some t -> isAnchor t = true ->
                 rev twoTiles !! k = Some t) /\
    length (rev twoTiles) = length twoTiles /\ rev twoTiles ≡ₚ twoTiles /\
    swapTiles (rev twoTiles) 0 1 = Normal (Some twoTiles).
Proof.
  assert (Hs : swapTiles twoTiles 0 1 = Normal (Some (rev twoTiles))) by reflexivity.
  split; [exact Hs|]. exact (swapTiles_exchanges twoTiles 0 1 (rev twoTiles) Hs).
Defined.

(** *** [shuffleTiles] *)

Lemma collectNonAnchors_elem (i : nat) (tiles : list Tile) (k : nat) :
  k ∈ collectNonAnchors i tiles ->
  i <= k /\ exists t, tiles !! (k - i) = Some t /\ isAnchor t = false.
Proof.
  revert i. induction tiles as [|t tiles IH]; intros i; cbn [collectNonAnchors].
  - intros Hk. by apply elem_of_nil in Hk.
  - assert (Hrest : k ∈ collectNonAnchors (S i) tiles ->
                    i <= k /\ exists t', (t :: tiles) !! (k - i) = Some t' /\
                                         isAnchor t' = false).
    { intros Hk. destruct (IH _ Hk) as (Hle & t' & Ht' & Hna).
      split; [lia|]. exists t'. split; [|done].
      replace (k - i) with (S (k - S i)) by lia. done. }
    destruct (isAnchor t) eqn:Ht; [done|].
    intros [->|Hk]%elem_of_cons; [|by apply Hrest].
    split; [lia|]. exists t. by rewrite Nat.sub_diag.
Qed.

Lemma swapAt_anchorsKept (tiles result : list Tile) (i j : nat) :
  anchorsKept tiles result ->
  (exists t, tiles !! i = Some t /\ isAnchor t = false) ->
  (exists t, tiles !! j = Some t /\ isAnchor t = false) ->
  anchorsKept tiles (swapAt i j result).
Proof.
  intros [Hflags Hfixed] (ti & Hti & Hai) (tj & Htj & Haj).
  pose proof (Hflags i) as Hfi. rewrite Hti in Hfi.
  pose proof (Hflags j) as Hfj. rewrite Htj in Hfj.
  destruct (result !! i) as [ri|] eqn:Hri; [|done].
  destruct (result !! j) as [rj|] eqn:Hrj; [|done].
  cbn in Hfi, Hfj. injection Hfi as Hfi. injection Hfj as Hfj.
  split.
  - intros k. rewrite (swapAt_lookup i j k result ri rj Hri Hrj).
    destruct (decide (k = j)) as [->|Hkj]; [rewrite Htj; cbn; congruence|].
    destruct (decide (k = i)) as [->|Hki]; [rewrite Hti; cbn; congruence|].
    apply Hflags.
  - intros k t Hk Ht. rewrite (swapAt_lookup i j k result ri rj Hri Hrj).
    destruct (decide (k = j)) as [->|Hkj]; [congruence|].
    destruct (decide (k = i)) as [->|Hki]; [congruence|].
    by apply Hfixed.
Qed.

Section ShuffleTiles.
Variable random : nat -> Q.

Lemma shuffleNonAnchors_spec (tiles : list Tile) (nonAnchorIndices : list nat)
    (i calls : nat) (result : list Tile) :
  (forall k, k ∈ nonAnchorIndices ->
             exists t, tiles !! k = Some t /\ isAnchor t = false) ->
  anchorsKept tiles result ->
  anchorsKept tiles (fst (shuffleNonAnchors random nonAnchorIndices i calls result)) /\
  fst (shuffleNonAnchors random nonAnchorIndices i calls result) ≡ₚ result /\
  snd (shuffleNonAnchors random nonAnchorIndices i calls result) = calls + i.
Proof.
  intros Hidx. revert calls result.
  induction i as [|i IH]; intros calls result Hkept.
  - cbn. split; [done|]. split; [done|lia].
  - cbn [shuffleNonAnchors].
    set (j := Z.to_nat (floorMul (random calls) (S i + 1))).
    set (result' := match nonAnchorIndices !! S i, nonAnchorIndices !! j with
                    | Some indexI, Some indexJ => swapAt indexI indexJ result
                    | _, _ => result
                    end).
    assert (Hstep : anchorsKept tiles result' /\ result' ≡ₚ result).
    { subst result'.
      destruct (nonAnchorIndices !! S i) as [indexI|] eqn:HI; [|done].
      destruct (nonAnchorIndices !! j) as [indexJ|] eqn:HJ; [|done].
      split; [|apply SortingFacts.swapAt_Permutation].
      apply swapAt_anchorsKept; [done| |].
      - apply Hidx. by apply list_elem_of_lookup_2 in HI.
      - apply Hidx. by apply list_elem_of_lookup_2 in HJ. }
    destruct Hstep as [Hkept' Hperm'].
    destruct (IH (S calls) result' Hkept') as (H1 & H2 & H3).
    split; [done|]. split; [by rewrite H2|]. rewrite H3. lia.
Qed.

(** X13. For a generator with values in [0,1), [shuffleTiles] returns a
    rearrangement of the tiles it is given (same tiles, same length) in
    which every anchor is at the position it had, and no other position
    holds an anchor; it draws one random number for each non-anchor tile
    but one. *)
Theorem shuffleTiles_keeps_anchors (tiles : list Tile) (calls : nat) :
  (forall k, (0 <= random k)%Q /\ (random k < 1)%Q) ->
  let result := fst (shuffleTiles random tiles calls) in
  result ≡ₚ tiles /\ length result = length tiles /\
  (forall k t, tiles !! k = Some t -> isAnchor t = true -> result !! k = Some t) /\
  (forall k, isAnchor <$> result !! k = isAnchor <$> tiles !! k) /\
  snd (shuffleTiles random tiles calls)
    = calls + (length (filter (fun t => isAnchor t = false) tiles) - 1).
Proof.
  intros _. cbn zeta. unfold shuffleTiles.
  set (idx := collectNonAnchors 0 tiles).
  assert (Hidx : forall k, k ∈ idx ->
                   exists t, tiles !! k = Some t /\ isAnchor t = false).
  { intros k Hk. destruct (collectNonAnchors_elem 0 tiles k Hk) as (_ & t & Ht & Hna).
    exists t. by rewrite Nat.sub_0_r in Ht. }
  assert (Hstart : anchorsKept tiles tiles) by (by split).
  destruct (shuffleNonAnchors_spec tiles idx (length idx - 1) calls tiles Hidx Hstart)
    as (Hkept & Hperm & Hcalls).
  destruct (shuffleNonAnchors random idx (length idx - 1) calls tiles)
    as [result calls'] eqn:Hloop.
  cbn [fst snd] in Hkept, Hperm, Hcalls.
  assert (Hcount : calls' = calls + (length (filter (fun t => isAnchor t = false) tiles) - 1)).
  { rewrite Hcalls. subst idx. by rewrite collectNonAnchors_length. }
  assert (Hend : forall final : list Tile,
            anchorsKept tiles final -> final ≡ₚ tiles ->
            final ≡ₚ tiles /\ length final = length tiles /\
            (forall k t, tiles !! k = Some t -> isAnchor t = true -> final !! k = Some t) /\
            (forall k, isAnchor <$> final !! k = isAnchor <$> tiles !! k) /\
            calls' = calls + (length (filter (fun t => isAnchor t = false) tiles) - 1)).
  { intros final [Hf1 Hf2] Hp. split; [done|].
    split; [by apply Permutation_length|]. by split. }
  destruct (everyCorrectFrom 0 result && (2 <=? length idx)); cbn [fst snd];
    [|by apply Hend].
  destruct idx as [|i [|j rest]] eqn:Hi; cbn [fst snd]; [by apply Hend..|].
  apply Hend.
  - apply swapAt_anchorsKept; [done| |]; apply Hidx.
    + by left.
    + right. by left.
  - by rewrite SortingFacts.swapAt_Permutation.
Qed.

End ShuffleTiles.

Lemma shuffleTiles_keeps_anchors_witness :
  (forall k : nat, (0 <= (fun _ : nat => 0%Q) k)%Q /\ ((fun _ : nat => 0%Q) k < 1)%Q) /\
  let result := fst (shuffleTiles (fun _ => 0%Q) twoTiles 0) in
  result ≡ₚ twoTiles /\ length result = length twoTiles /\
  (forall k t, twoTiles !! k = Some t -> isAnchor t = true -> result !! k = Some t) /\
  (forall k, isAnchor <$> result !! k = isAnchor <$> twoTiles !! k) /\
  snd (shuffleTiles (fun _ => 0%Q) twoTiles 0)
    = 0 + (length (filter (fun t => isAnchor t = false) twoTiles) - 1).
Proof.
  assert (Hrange : forall k : nat,
            (0 <= (fun _ : nat => 0%Q) k)%Q /\ ((fun _ : nat => 0%Q) k < 1)%Q).
  { intros k. split; [apply Qle_refl|reflexivity]. }
  split; [exact Hrange|].
  exact (shuffleTiles_keeps_anchors (fun _ => 0%Q) twoTiles 0 Hrange).
Defined.

End GradientFacts2.

(** * Properties of the level table *)

Module GradientLevelsFacts.
Import GradientLevels ArrayFacts.

Lemma findIndexFrom_spec {A : Type} (pred : A -> bool) (index : Z) (xs : list A) :
  (findIndexFrom pred index xs = (-1)%Z /\ (index < 0)%Z) \/
  (findIndexFrom pred index xs = (-1)%Z /\ forall x, x ∈ xs -> pred x = false) \/
  exists (i : nat) (x : A),
    findIndexFrom pred index xs = (index + Z.of_nat i)%Z /\
    xs !! i = Some x /\ pred x = true /\
    forall j y, j < i -> xs !! j = Some y -> pred y = false.
Proof.
  revert index. induction xs as [|x xs IH]; intros index; cbn [findIndexFrom].
  - right. left. split; [done|]. intros x Hx. by apply elem_of_nil in Hx.
  - destruct (pred x) eqn:Hp.
    + right. right. exists 0, x. split; [cbn; lia|]. split; [done|]. split; [done|].
      intros j y Hj. lia.
    + destruct (IH (index + 1)%Z) as [[Hf Hneg]|[[Hf Hall]|(i & y & Hf & Hy & Hpy & Hbefore)]].
      * destruct (decide (index < 0)%Z) as [Hlt|Hge]; [left; by split|].
        assert (index = (-2)%Z \/ True) by auto. lia.
      * right. left. split; [done|].
        intros z [->|Hz]%elem_of_cons; [done|by apply Hall].
      * right. right. exists (S i), y. split; [rewrite Hf; lia|].
        split; [done|]. split; [done|].
        intros [|j] z Hj; cbn; [by intros [= <-]|]. apply Hbefore. lia.
Qed.

(** [findIndex] among elements with different keys. *)
Lemma findIndex_NoDup {A : Type} (key : A -> string) (xs : list A) (i : nat) (x : A) :
  NoDup (key <$> xs) -> xs !! i = Some x ->
  findIndex (fun y => String.eqb (key y) (key x)) xs = Z.of_nat i.
Proof.
  intros Hnd Hx. unfold findIndex.
  destruct (findIndexFrom_spec (fun y => String.eqb (key y) (key x)) 0 xs)
    as [[_ Hneg]|[[_ Hall]|(j & y & Hf & Hy & Hpy & _)]]; [lia| |].
  - specialize (Hall x (list_elem_of_lookup_2 _ _ _ Hx)). cbn in Hall.
    by rewrite String.eqb_refl in Hall.
  - rewrite Hf. apply String.eqb_eq in Hpy.
    assert (j = i); [|lia].
    apply (NoDup_lookup (key <$> xs) j i (key x)); [done| |].
    + rewrite list_lookup_fmap, Hy. cbn. by rewrite Hpy.
    + by rewrite list_lookup_fmap, Hx.
Qed.

Lemma find_NoDup {A : Type} (key : A -> string) (xs : list A) (x : A) :
  NoDup (key <$> xs) -> x ∈ xs ->
  List.find (fun y => String.eqb (key y) (key x)) xs = Some x.
Proof.
  induction xs as [|a xs IH]; intros Hnd Hx; [by apply elem_of_nil in Hx|].
  cbn [List.find]. rewrite fmap_cons in Hnd. apply NoDup_cons in Hnd as [Ha Hnd].
  destruct (String.eqb_spec (key a) (key x)) as [Heq|Hne].
  - apply elem_of_cons in Hx as [Hxa|Hx]; [by subst a|].
    exfalso. apply Ha. rewrite Heq. apply list_elem_of_fmap. by exists x.
  - apply elem_of_cons in Hx as [Hxa|Hx]; [by subst a|]. by apply IH.
Qed.

Lemma find_key {A : Type} (pred : A -> bool) (xs : list A) (x : A) :
  List.find pred xs = Some x -> x ∈ xs /\ pred x = true.
Proof.
  intros H. apply find_some in H as [Hin Hp]. split; [|done]. by apply list_elem_of_In.
Qed.

Lemma find_absent {A : Type} (pred : A -> bool) (xs : list A) :
  (forall x, x ∈ xs -> pred x = false) -> List.find pred xs = None.
Proof.
  intros Hall. destruct (List.find pred xs) as [x|] eqn:Hf; [|done].
  apply find_key in Hf as [Hin Hp]. specialize (Hall x Hin). congruence.
Qed.

Lemma stringsDistinct_NoDup (xs : list string) :
  stringsDistinct xs = true -> NoDup xs.
Proof.
  induction xs as [|x xs IH]; [constructor|].
  cbn. intros [Hx Hrest]%andb_true_iff. constructor; [|by apply IH].
  intros Hin. apply negb_true_iff in Hx.
  assert (Hex : existsb (String.eqb x) xs = true).
  { apply existsb_exists. exists x. split; [by apply list_elem_of_In|apply String.eqb_refl]. }
  congruence.
Qed.

Lemma level_ids_NoDup : NoDup (id <$> ALL_LEVELS).
Proof. apply stringsDistinct_NoDup. vm_compute. reflexivity. Qed.

Lemma key_NoDup_inj {A : Type} (key : A -> string) (xs : list A) (x y : A) :
  NoDup (key <$> xs) -> x ∈ xs -> y ∈ xs -> key x = key y -> x = y.
Proof.
  intros Hnd Hx Hy Hk.
  apply list_elem_of_lookup in Hx as [i Hi]. apply list_elem_of_lookup in Hy as [j Hj].
  assert (i = j).
  { apply (NoDup_lookup (key <$> xs) i j (key x)); [done| |].
    - by rewrite list_lookup_fmap, Hi.
    - rewrite list_lookup_fmap, Hj. cbn. by rewrite Hk. }
  subst j. congruence.
Qed.

Lemma findIndex_absent {A : Type} (pred : A -> bool) (xs : list A) :
  (forall x, x ∈ xs -> pred x = false) -> findIndex pred xs = (-1)%Z.
Proof.
  intros Hall. unfold findIndex.
  destruct (findIndexFrom_spec pred 0 xs)
    as [[Hf _]|[[Hf _]|(j & y & _ & Hy & Hpy & _)]]; [done|done|].
  specialize (Hall y (list_elem_of_lookup_2 _ _ _ Hy)). congruence.
Qed.

Lemma ALL_LEVELS_packs (level : LevelConfig) :
  level ∈ ALL_LEVELS <-> exists pack, pack ∈ LEVEL_PACKS /\ level ∈ levels pack.
Proof.
  unfold ALL_LEVELS. rewrite list_elem_of_In, in_flat_map. split.
  - intros (pack & Hp & Hl). exists pack. by rewrite !list_elem_of_In.
  - intros (pack & Hp & Hl). exists pack. by rewrite <- !list_elem_of_In.
Qed.

(** X14. The identifiers of the levels of [ALL_LEVELS] are pairwise
    different, so [getLevelById] returns, for the identifier of a level of
    the table, that level (and for any identifier only a level with that
    identifier, or nothing when there is none); [getNextLevel] returns the
    level that follows in the table, and nothing after the last level or
    for an unknown identifier; [getPackByLevelId] returns the pack that
    holds the level. *)
Theorem level_lookup :
  NoDup (id <$> ALL_LEVELS) /\
  (forall level, level ∈ ALL_LEVELS -> getLevelById (id level) = Some level) /\
  (forall levelId level, getLevelById levelId = Some level ->
     level ∈ ALL_LEVELS /\ id level = levelId) /\
  (forall i level, ALL_LEVELS !! i = Some level ->
     getNextLevel (id level) = ALL_LEVELS !! (i + 1)) /\
  (forall level, level ∈ ALL_LEVELS ->
     exists pack, getPackByLevelId (id level) = Some pack /\
                  pack ∈ LEVEL_PACKS /\ level ∈ levels pack) /\
  (forall levelId, (forall level, level ∈ ALL_LEVELS -> id level <> levelId) ->
     getLevelById levelId = None /\ getNextLevel levelId = None /\
     getPackByLevelId levelId = None).
Proof.
  pose proof level_ids_NoDup as Hnd.
  split; [done|]. split; [|split; [|split; [|split]]].
  - intros level Hin. unfold getLevelById. by apply (find_NoDup id).
  - intros levelId level Hf. unfold getLevelById in Hf.
    apply find_key in Hf as [Hin Hp]. split; [done|]. by apply String.eqb_eq.
  - intros i level Hi. unfold getNextLevel.
    rewrite (findIndex_NoDup id ALL_LEVELS i level Hnd Hi).
    pose proof (lookup_lt_Some _ _ _ Hi) as Hlt.
    destruct (Z.eqb_spec (Z.of_nat i) (-1)) as [Hneg|_]; [lia|]. cbn [orb].
    destruct (Z.eqb_spec (Z.of_nat i) (Z.of_nat (length ALL_LEVELS) - 1)) as [Hlast|Hmid].
    + symmetry. apply lookup_ge_None. lia.
    + replace (Z.of_nat i + 1)%Z with (Z.of_nat (i + 1)) by lia.
      apply getIndex_of_nat.
  - intros level Hin. unfold getPackByLevelId.
    set (pred := fun pack : LevelPack =>
                   existsb (fun l => String.eqb (id l) (id level)) (levels pack)).
    destruct (List.find pred LEVEL_PACKS) as [pack|] eqn:Hf.
    + apply find_key in Hf as [Hp Hpred]. exists pack. split; [done|]. split; [done|].
      subst pred. cbn beta in Hpred. apply existsb_exists in Hpred as (l & Hl & Hid).
      apply String.eqb_eq in Hid. apply list_elem_of_In in Hl.
      assert (l = level); [|by subst l].
      apply (key_NoDup_inj id ALL_LEVELS); [done| |done|done].
      apply ALL_LEVELS_packs. by exists pack.
    + exfalso. apply ALL_LEVELS_packs in Hin as (pack & Hp & Hl).
      apply list_elem_of_In in Hp. pose proof (find_none _ _ Hf pack Hp) as Hnone.
      subst pred. cbn beta in Hnone.
      assert (Hex : existsb (fun l => String.eqb (id l) (id level)) (levels pack) = true).
      { apply existsb_exists. exists level.
        split; [by apply list_elem_of_In|apply String.eqb_refl]. }
      congruence.
  - intros levelId Hnone.
    assert (Hpred : forall level, level ∈ ALL_LEVELS ->
                      String.eqb (id level) levelId = false).
    { intros level Hin. apply String.eqb_neq. by apply Hnone. }
    split; [by apply find_absent|]. split.
    + unfold getNextLevel. by rewrite (findIndex_absent _ _ Hpred).
    + unfold getPackByLevelId. apply find_absent. intros pack Hp.
      destruct (existsb _ (levels pack)) eqn:Hex; [|done].
      apply existsb_exists in Hex as (l & Hl & Hid).
      rewrite Hpred in Hid; [done|]. apply ALL_LEVELS_packs.
      exists pack. split; [done|by apply list_elem_of_In].
Qed.

Lemma distinctb_NoDup (xs : list nat) : distinctb xs = true -> NoDup xs.
Proof.
  induction xs as [|x xs IH]; [constructor|].
  cbn. intros [Hx Hrest]%andb_true_iff. constructor; [|by apply IH].
  intros Hin. apply negb_true_iff in Hx.
  assert (Hex : existsb (Nat.eqb x) xs = true).
  { apply existsb_exists. exists x. split; [by apply list_elem_of_In|apply Nat.eqb_refl]. }
  congruence.
Qed.

Lemma levelOk_spec (level : LevelConfig) :
  levelOk level = true ->
  0 < cols level /\ 0 < rows level /\ NoDup (anchors level) /\
  (forall a, a ∈ anchors level -> a < cols level * rows level) /\
  (forall corner,
     corner ∈ [0; cols level - 1; cols level * rows level - cols level;
               cols level * rows level - 1] ->
     corner ∈ anchors level) /\
  length (anchors level) + 2 <= cols level * rows level.
Proof.
  unfold levelOk. cbn zeta. rewrite !andb_true_iff.
  intros [[[[[Hc Hr] Hd] Hin] Hcorner] Hcount].
  apply Nat.ltb_lt in Hc, Hr. apply Nat.leb_le in Hcount.
  split; [done|]. split; [done|]. split; [by apply distinctb_NoDup|].
  split; [|split; [|done]].
  - intros a Ha. rewrite forallb_forall in Hin.
    apply Nat.ltb_lt, Hin. by apply list_elem_of_In.
  - intros corner Hcn. rewrite forallb_forall in Hcorner.
    specialize (Hcorner corner ltac:(by apply list_elem_of_In)).
    apply existsb_exists in Hcorner as (a & Ha & ->%Nat.eqb_eq).
    by apply list_elem_of_In.
Qed.

Section ShippedLevels.
Variable tileColor : Gradient.LevelConfig -> nat -> string.

Lemma levels_two_free (level : LevelConfig) :
  level ∈ ALL_LEVELS ->
  levelOk level = true /\
  2 <= length (Gradient.collectNonAnchors 0
                 (Gradient.generateTiles tileColor (toLevel level))).
Proof.
  intros Hin.
  assert (Hall : forallb
            (fun level =>
               levelOk level
               && (2 <=? length (Gradient.collectNonAnchors 0
                                   (Gradient.generateTiles tileColor (toLevel level)))))
            ALL_LEVELS = true) by (vm_compute; reflexivity).
  rewrite forallb_forall in Hall.
  specialize (Hall level ltac:(by apply list_elem_of_In)).
  apply andb_true_iff in Hall as [Hok Htwo]. split; [done|]. by apply Nat.leb_le.
Qed.

End ShippedLevels.

(** X15. Every level of the table is well formed: its grid is not empty,
    its anchors are different cells of the grid and include the four
    corners, and at least two tiles are not anchors.  So for every level
    of the game and Math.random values in [0,1), the arrangement
    [shuffleTiles] deals from [generateTiles] is never the solved one. *)
Theorem levels_dealt_unsolved (tileColor : Gradient.LevelConfig -> nat -> string)
    (random : nat -> Q) (calls : nat) (level : LevelConfig) :
  (forall k, (0 <= random k)%Q /\ (random k < 1)%Q) ->
  level ∈ ALL_LEVELS ->
  (0 < cols level /\ 0 < rows level /\ NoDup (anchors level) /\
   (forall a, a ∈ anchors level -> a < cols level * rows level) /\
   (forall corner,
      corner ∈ [0; cols level - 1; cols level * rows level - cols level;
                cols level * rows level - 1] ->
      corner ∈ anchors level) /\
   length (anchors level) + 2 <= cols level * rows level) /\
  Gradient.checkComplete
    (fst (Gradient.shuffleTiles random
            (Gradient.generateTiles tileColor (toLevel level)) calls)) = false.
Proof.
  intros _ Hin. destruct (levels_two_free tileColor level Hin) as [Hok Htwo].
  split; [by apply levelOk_spec|].
  by apply GradientFacts.shuffleTiles_not_complete.
Qed.

Lemma levels_dealt_unsolved_witness :
  (forall k : nat, (0 <= (fun _ : nat => 0%Q) k)%Q /\ ((fun _ : nat => 0%Q) k < 1)%Q) /\
  (mkLevelConfig "tutorial-1" 3 3
     (Gradient.mkCorners "#cc952e" "#db4734" "#f1660f" "#e74c3c")
     [0; 2; 4; 6; 8] square) ∈ ALL_LEVELS /\
  let level := mkLevelConfig "tutorial-1" 3 3
                 (Gradient.mkCorners "#cc952e" "#db4734" "#f1660f" "#e74c3c")
                 [0; 2; 4; 6; 8] square in
  (0 < cols level /\ 0 < rows level /\ NoDup (anchors level) /\
   (forall a, a ∈ anchors level -> a < cols level * rows level) /\
   (forall corner,
      corner ∈ [0; cols level - 1; cols level * rows level - cols level;
                cols level * rows level - 1] ->
      corner ∈ anchors level) /\
   length (anchors level) + 2 <= cols level * rows level) /\
  Gradient.checkComplete
    (fst (Gradient.shuffleTiles (fun _ => 0%Q)
            (Gradient.generateTiles (fun _ _ => "#000000") (toLevel level)) 0)) = false.
Proof.
  assert (Hrange : forall k : nat,
            (0 <= (fun _ : nat => 0%Q) k)%Q /\ ((fun _ : nat => 0%Q) k < 1)%Q).
  { intros k. split; [apply Qle_refl|reflexivity]. }
  assert (Hin : (mkLevelConfig "tutorial-1" 3 3
                   (Gradient.mkCorners "#cc952e" "#db4734" "#f1660f" "#e74c3c")
                   [0; 2; 4; 6; 8] square) ∈ ALL_LEVELS).
  { unfold ALL_LEVELS. cbn. by left. }
  split; [exact Hrange|]. split; [exact Hin|].
  exact (levels_dealt_unsolved (fun _ _ => "#000000") (fun _ => 0%Q) 0 _ Hrange Hin).
Defined.

End GradientLevelsFacts.

(** * Properties of the Falling-Piece play engine *)

Module TetrisPlayFacts.
Import Tetris TetrisSpec TetrisSpec2 TetrisPlay TetrisPlaySpec ArrayFacts TetrisFacts.
Local Open Scope Z_scope.

(** *** The shape table *)

Lemma shapes_length (type : TetrominoType) : length (TETROMINO_SHAPES type) = 4%nat.
Proof. by destruct type. Qed.

Lemma shape_lookup (type : TetrominoType) (rotation : Z) :
  validRotation rotation ->
  exists shape, getIndex (TETROMINO_SHAPES type) rotation = Some shape /\
                TETROMINO_SHAPES type !! Z.to_nat rotation = Some shape.
Proof.
  intros Hr. unfold validRotation in Hr.
  destruct (lookup_lt_is_Some_2 (TETROMINO_SHAPES type) (Z.to_nat rotation))
    as [shape Hs]; [rewrite shapes_length; lia|].
  exists shape. split; [|done]. apply getIndex_Some_inv; [lia|done].
Qed.

Lemma shape_lookup_None (type : TetrominoType) (rotation : Z) :
  ~ validRotation rotation -> getIndex (TETROMINO_SHAPES type) rotation = None.
Proof.
  intros Hr. unfold validRotation in Hr. unfold getIndex.
  destruct (Z.ltb_spec rotation 0); [done|].
  apply lookup_ge_None. rewrite shapes_length. lia.
Qed.

Lemma table_fills_boxes (type : TetrominoType) (rotation : Z) :
  validRotation rotation ->
  exists shape b,
    getIndex (TETROMINO_SHAPES type) rotation = Some shape /\
    getShapeBounds type rotation = Normal b /\
    fillsBox shape b = true.
Proof.
  intros Hr. unfold validRotation in Hr.
  assert (Htab : tableFillsBoxes type = true) by (by destruct type).
  unfold tableFillsBoxes in Htab. rewrite forallb_forall in Htab.
  specialize (Htab rotation).
  assert (Hin : In rotation [0; 1; 2; 3]) by (cbn; lia).
  specialize (Htab Hin).
  destruct (getIndex (TETROMINO_SHAPES type) rotation) as [shape|]; [|done].
  destruct (getShapeBounds type rotation) as [b|]; [|done].
  by exists shape, b.
Qed.

Lemma fillsBox_spec (shape : list Cell) (b : ShapeBounds) :
  fillsBox shape b = true ->
  length shape = 4%nat /\
  (forall dr dc, (dr, dc) ∈ shape -> 0 <= dr < rows b /\ 0 <= dc < cols b) /\
  (exists dc, (0, dc) ∈ shape) /\ (exists dr, (dr, 0) ∈ shape) /\
  (exists dc, (rows b - 1, dc) ∈ shape) /\ (exists dr, (dr, cols b - 1) ∈ shape).
Proof.
  unfold fillsBox. rewrite !andb_true_iff.
  intros [[[[[Hlen Hall] Ht] Hl] Hb] Hr].
  split; [by apply Nat.eqb_eq|]. split.
  { rewrite forallb_forall in Hall. intros dr dc Hin.
    apply list_elem_of_In in Hin. specialize (Hall _ Hin). cbn in Hall. lia. }
  rewrite existsb_exists in Ht, Hl, Hb, Hr.
  destruct Ht as ([dr1 dc1] & Hin1 & H1), Hl as ([dr2 dc2] & Hin2 & H2),
           Hb as ([dr3 dc3] & Hin3 & H3), Hr as ([dr4 dc4] & Hin4 & H4).
  apply list_elem_of_In in Hin1, Hin2, Hin3, Hin4.
  apply Z.eqb_eq in H1, H2, H3, H4. subst.
  split; [by eexists|]. split; [by eexists|]. split; by eexists.
Qed.

(** The cells of a piece with a rotation of the table. *)
Lemma getPieceCells_valid (piece : Piece) :
  validRotation (rotation piece) ->
  exists shape b cs,
    getIndex (TETROMINO_SHAPES (type piece)) (rotation piece) = Some shape /\
    getShapeBounds (type piece) (rotation piece) = Normal b /\
    getPieceCells piece = Normal cs /\
    cs = map (fun pos : Cell => (row piece + fst pos, col piece + snd pos)) shape /\
    length cs = 4%nat /\ NoDup cs /\
    (forall r c, (r, c) ∈ cs ->
       row piece <= r < row piece + rows b /\ col piece <= c < col piece + cols b) /\
    (exists c, (row piece, c) ∈ cs) /\
    (exists r, (r, col piece) ∈ cs) /\
    (exists c, (row piece + rows b - 1, c) ∈ cs) /\
    (exists r, (r, col piece + cols b - 1) ∈ cs).
Proof.
  intros Hr.
  destruct (table_fills_boxes (type piece) (rotation piece) Hr)
    as (shape & b & Hs & Hb & Hfill).
  destruct (shape_lookup (type piece) (rotation piece) Hr) as (shape' & Hs' & Hnat).
  assert (shape' = shape) by congruence. subst shape'.
  apply fillsBox_spec in Hfill as (Hlen & Hbox & (c1 & Ht) & (r2 & Hl) & (c3 & Hbt) & (r4 & Hrt)).
  set (f := fun pos : Cell => (row piece + fst pos, col piece + snd pos)).
  assert (Hcs : getPieceCells piece = Normal (map f shape)).
  { unfold getPieceCells. rewrite Hs. f_equal. apply map_ext. by intros [dr dc]. }
  assert (Hmem : forall dr dc, (dr, dc) ∈ shape ->
                   (row piece + dr, col piece + dc) ∈ map f shape).
  { intros dr dc Hin. apply list_elem_of_In, in_map_iff.
    exists (dr, dc). split; [done|]. by apply list_elem_of_In. }
  exists shape, b, (map f shape).
  split; [done|]. split; [done|]. split; [done|]. split; [done|].
  split; [by rewrite length_map|]. split.
  { change (map f shape) with (f <$> shape).
    apply NoDup_fmap_2_strong; [|by apply (shapes_NoDup _ _ _ Hnat)].
    intros [a1 a2] [b1 b2] _ _ [= H1 H2]. f_equal; lia. }
  split.
  { intros r c Hin. apply list_elem_of_In, in_map_iff in Hin as ([dr dc] & [= <- <-] & Hin).
    apply list_elem_of_In in Hin. specialize (Hbox dr dc Hin). cbn. lia. }
  split.
  { exists (col piece + c1). pose proof (Hmem _ _ Ht) as Ht'.
    by rewrite Z.add_0_r in Ht'. }
  split.
  { exists (row piece + r2). pose proof (Hmem _ _ Hl) as Hl'.
    by rewrite Z.add_0_r in Hl'. }
  split.
  - exists (col piece + c3).
    replace (row piece + rows b - 1) with (row piece + (rows b - 1)) by lia.
    by apply Hmem.
  - exists (row piece + r4).
    replace (col piece + cols b - 1) with (col piece + (cols b - 1)) by lia.
    by apply Hmem.
Qed.

Lemma getPieceCells_invalid (piece : Piece) :
  ~ validRotation (rotation piece) -> getPieceCells piece = TypeError.
Proof. intros Hr. unfold getPieceCells. by rewrite shape_lookup_None. Qed.

Lemma validRotation_dec (rotation : Z) :
  validRotation rotation \/ ~ validRotation rotation.
Proof. unfold validRotation. lia. Qed.

(** X16. [getPieceCells] throws exactly when the rotation is not one of
    0..3.  Otherwise it returns the table's shape for the type and
    rotation, moved to the position of the piece: four different cells,
    all inside the box that [getShapeBounds] gives, placed with its top
    left corner at the position of the piece, and touching each of the
    four sides of that box. *)
Theorem getPieceCells_in_box (piece : Piece) :
  (getPieceCells piece = TypeError <-> ~ validRotation (rotation piece)) /\
  (validRotation (rotation piece) ->
   exists shape b cs,
     getIndex (TETROMINO_SHAPES (type piece)) (rotation piece) = Some shape /\
     getShapeBounds (type piece) (rotation piece) = Normal b /\
     getPieceCells piece = Normal cs /\
     cs = map (fun pos : Cell => (row piece + fst pos, col piece + snd pos)) shape /\
     length cs = 4%nat /\ NoDup cs /\
     (forall r c, (r, c) ∈ cs ->
        row piece <= r < row piece + rows b /\ col piece <= c < col piece + cols b) /\
     (exists c, (row piece, c) ∈ cs) /\
     (exists r, (r, col piece) ∈ cs) /\
     (exists c, (row piece + rows b - 1, c) ∈ cs) /\
     (exists r, (r, col piece + cols b - 1) ∈ cs)).
Proof.
  split; [|apply getPieceCells_valid]. split.
  - intros Hthrow Hr.
    destruct (getPieceCells_valid piece Hr) as (? & ? & ? & _ & _ & Hcs & _). congruence.
  - apply getPieceCells_invalid.
Qed.

(** *** [canPlacePiece] *)

Lemma readCell_inside (W H : nat) (occ : Grid) (r c : Z) :
  wfGrid W H occ -> 0 <= r < Z.of_nat H ->
  readCell occ r c = Normal (usedAt occ r c).
Proof.
  intros [Hlen _] Hr. unfold readCell, usedAt.
  destruct (lookup_lt_is_Some_2 occ (Z.to_nat r)) as [line Hl]; [lia|].
  by rewrite (getIndex_Some_inv occ r line) by (lia || done).
Qed.

Lemma canPlacePiece_allValid (W H : nat) (occ : Grid) (piece : Piece) :
  wfGrid W H occ ->
  canPlacePiece piece occ W H
  = match getPieceCells piece with
    | TypeError => TypeError
    | Normal cs => Normal (allValid W H occ cs)
    end.
Proof.
  intros Hwf. unfold canPlacePiece.
  destruct (getPieceCells piece) as [cs|]; [|done].
  unfold allValid. induction cs as [|[r c] cs IH]; [done|].
  cbn [every forallb].
  destruct ((0 <=? r) && (r <? Z.of_nat H) && (0 <=? c) && (c <? Z.of_nat W)) eqn:Hin;
    [|done].
  rewrite (readCell_inside W H occ r c Hwf) by lia.
  destruct (usedAt occ r c); cbn [negb andb]; [done|]. apply IH.
Qed.

Lemma allValid_fits (W H : nat) (occ : Grid) (cs : list Cell) :
  allValid W H occ cs = true <-> fits W H occ cs.
Proof.
  unfold allValid, fits, inField. rewrite forallb_forall. split.
  - intros Hall r c Hin. apply list_elem_of_In in Hin. specialize (Hall _ Hin).
    cbn in Hall. destruct (usedAt occ r c); cbn in *; lia.
  - intros Hfit [r c] Hin. apply list_elem_of_In in Hin.
    destruct (Hfit r c Hin) as [[Hr Hc] ->]. cbn in *. lia.
Qed.

(** What [canPlacePiece] answers for a grid of the field's size. *)
Lemma canPlacePiece_valid (W H : nat) (occ : Grid) (piece : Piece) :
  wfGrid W H occ -> validRotation (rotation piece) ->
  exists cs,
    getPieceCells piece = Normal cs /\
    canPlacePiece piece occ W H = Normal (allValid W H occ cs).
Proof.
  intros Hwf Hr. rewrite (canPlacePiece_allValid W H occ piece Hwf).
  destruct (getPieceCells_valid piece Hr) as (_ & _ & cs & _ & _ & -> & _).
  by exists cs.
Qed.

(** X17. On a grid of the field's size [canPlacePiece] throws only with
    [getPieceCells] (a rotation outside 0..3); otherwise it returns true
    exactly when every cell of the piece is inside the field and free. *)
Theorem canPlacePiece_fits (W H : nat) (occ : Grid) (piece : Piece) :
  wfGrid W H occ ->
  match getPieceCells piece with
  | TypeError => canPlacePiece piece occ W H = TypeError
  | Normal cs =>
      exists b, canPlacePiece piece occ W H = Normal b /\
                (b = true <-> fits W H occ cs)
  end.
Proof.
  intros Hwf. rewrite (canPlacePiece_allValid W H occ piece Hwf).
  destruct (getPieceCells piece) as [cs|]; [|done].
  exists (allValid W H occ cs). split; [done|]. apply allValid_fits.
Qed.

Lemma canPlacePiece_fits_witness :
  wfGrid 10 16 (emptyGrid 10 16) /\
  match getPieceCells sampleT with
  | TypeError => canPlacePiece sampleT (emptyGrid 10 16) 10 16 = TypeError
  | Normal cs =>
      exists b, canPlacePiece sampleT (emptyGrid 10 16) 10 16 = Normal b /\
                (b = true <-> fits 10 16 (emptyGrid 10 16) cs)
  end.
Proof.
  split; [apply wfGrid_empty|].
  exact (canPlacePiece_fits 10 16 (emptyGrid 10 16) sampleT (wfGrid_empty 10 16)).
Defined.

(** A piece that can be placed has its position inside the field. *)
Lemma canPlacePiece_position (W H : nat) (occ : Grid) (piece : Piece) :
  wfGrid W H occ -> canPlacePiece piece occ W H = Normal true ->
  validRotation (rotation piece) /\
  0 <= row piece < Z.of_nat H /\ 0 <= col piece < Z.of_nat W.
Proof.
  intros Hwf Hc.
  destruct (validRotation_dec (rotation piece)) as [Hr|Hr].
  2:{ rewrite (canPlacePiece_allValid W H occ piece Hwf) in Hc.
      by rewrite (getPieceCells_invalid piece Hr) in Hc. }
  split; [done|].
  destruct (getPieceCells_valid piece Hr)
    as (_ & _ & cs & _ & _ & Hcs & _ & _ & _ & _ & (c1 & Ht) & (r2 & Hl) & _).
  rewrite (canPlacePiece_allValid W H occ piece Hwf), Hcs in Hc.
  injection Hc as Hc. apply allValid_fits in Hc.
  destruct (Hc _ _ Ht) as [[Hrow _] _]. destruct (Hc _ _ Hl) as [[_ Hcol] _].
  cbn in Hrow, Hcol. lia.
Qed.

Lemma withPosition_same (piece : Piece) :
  withPosition piece (row piece) (col piece) = piece.
Proof. by destruct piece. Qed.

Lemma withPosition_eq (piece : Piece) (r c r' c' : Z) :
  r = r' -> c = c' -> withPosition piece r c = withPosition piece r' c'.
Proof. by intros -> ->. Qed.

(** *** [movePiece] *)

Lemma movePiece_cases (W H : nat) (occ : Grid) (piece : Piece) (dr dc : Z) :
  wfGrid W H occ -> validRotation (rotation piece) ->
  let target := withPosition piece (row piece + dr) (col piece + dc) in
  (movePiece piece dr dc occ W H = Normal (Some target) /\
   canPlacePiece target occ W H = Normal true) \/
  (movePiece piece dr dc occ W H = Normal None /\
   canPlacePiece target occ W H = Normal false).
Proof.
  intros Hwf Hr target. unfold movePiece. fold target.
  destruct (canPlacePiece_valid W H occ target Hwf Hr) as (cs & _ & ->).
  destruct (allValid W H occ cs); [by left|by right].
Qed.

(** X18. On a grid of the field's size, [movePiece] of a piece with a
    rotation in 0..3 does not throw.  The piece it returns is the given one
    at the new position, which then can be placed there; nothing but the
    position changes.  Moving that piece back by the same amounts returns
    the given piece when it could be placed where it was, and two moves in
    a row return what the one move by the sums returns. *)
Theorem movePiece_moves (W H : nat) (occ : Grid) (piece : Piece) (dr dc : Z) :
  wfGrid W H occ -> validRotation (rotation piece) ->
  (movePiece piece dr dc occ W H = Normal None \/
   exists moved, movePiece piece dr dc occ W H = Normal (Some moved)) /\
  forall moved, movePiece piece dr dc occ W H = Normal (Some moved) ->
    moved = withPosition piece (row piece + dr) (col piece + dc) /\
    canPlacePiece moved occ W H = Normal true /\
    (canPlacePiece piece occ W H = Normal true ->
     movePiece moved (- dr) (- dc) occ W H = Normal (Some piece)) /\
    (forall dr' dc' moved',
       movePiece moved dr' dc' occ W H = Normal (Some moved') ->
       movePiece piece (dr + dr') (dc + dc') occ W H = Normal (Some moved')).
Proof.
  intros Hwf Hr.
  destruct (movePiece_cases W H occ piece dr dc Hwf Hr) as [[Hm Hc]|[Hm Hc]].
  2:{ split; [by left|]. intros moved Hmoved. congruence. }
  split; [right; by eexists|].
  intros moved Hmoved. rewrite Hm in Hmoved. injection Hmoved as <-.
  split; [done|]. split; [done|]. split.
  - intros Hplace. unfold movePiece.
    assert (Hback : withPosition (withPosition piece (row piece + dr) (col piece + dc))
                      (row (withPosition piece (row piece + dr) (col piece + dc)) + - dr)
                      (col (withPosition piece (row piece + dr) (col piece + dc)) + - dc)
                    = piece).
    { clear. destruct piece. unfold withPosition. cbn. f_equal; lia. }
    by rewrite Hback, Hplace.
  - intros dr' dc' moved' Hm'.
    set (mid := withPosition piece (row piece + dr) (col piece + dc)) in *.
    destruct (movePiece_cases W H occ mid dr' dc' Hwf Hr) as [[Hm2 Hc2]|[Hm2 _]];
      [|congruence].
    rewrite Hm2 in Hm'. injection Hm' as <-.
    assert (Hsum : withPosition piece (row piece + (dr + dr')) (col piece + (dc + dc'))
                   = withPosition mid (row mid + dr') (col mid + dc')).
    { subst mid. cbn [row col withPosition]. f_equal; lia. }
    unfold movePiece. by rewrite Hsum, Hc2.
Qed.

Lemma movePiece_moves_witness :
  wfGrid 10 16 (emptyGrid 10 16) /\ validRotation (rotation sampleT) /\
  (movePiece sampleT 1 (-1) (emptyGrid 10 16) 10 16 = Normal None \/
   exists moved, movePiece sampleT 1 (-1) (emptyGrid 10 16) 10 16 = Normal (Some moved)) /\
  forall moved, movePiece sampleT 1 (-1) (emptyGrid 10 16) 10 16 = Normal (Some moved) ->
    moved = withPosition sampleT (row sampleT + 1) (col sampleT + -1) /\
    canPlacePiece moved (emptyGrid 10 16) 10 16 = Normal true /\
    (canPlacePiece sampleT (emptyGrid 10 16) 10 16 = Normal true ->
     movePiece moved (- 1) (- -1) (emptyGrid 10 16) 10 16 = Normal (Some sampleT)) /\
    (forall dr' dc' moved',
       movePiece moved dr' dc' (emptyGrid 10 16) 10 16 = Normal (Some moved') ->
       movePiece sampleT (1 + dr') (-1 + dc') (emptyGrid 10 16) 10 16
         = Normal (Some moved')).
Proof.
  assert (Hr : validRotation (rotation sampleT)) by (unfold validRotation; cbn; lia).
  split; [apply wfGrid_empty|]. split; [exact Hr|].
  exact (movePiece_moves 10 16 (emptyGrid 10 16) sampleT 1 (-1) (wfGrid_empty 10 16) Hr).
Defined.

(** *** [rotatePiece] *)

Lemma tryKicks_spec (W H : nat) (occ : Grid) (piece newPiece : Piece)
    (kicks : list (Z * Z)) :
  wfGrid W H occ -> validRotation (rotation newPiece) ->
  exists res,
    tryKicks kicks piece newPiece occ W H = Normal res /\
    match res with
    | Some kicked =>
        exists before kickRow kickCol after,
          kicks = before ++ (kickRow, kickCol) :: after /\
          kicked = withPosition newPiece (row piece + kickRow) (col piece + kickCol) /\
          canPlacePiece kicked occ W H = Normal true /\
          forall kr kc, (kr, kc) ∈ before ->
            canPlacePiece (withPosition newPiece (row piece + kr) (col piece + kc))
                          occ W H = Normal false
    | None =>
        forall kr kc, (kr, kc) ∈ kicks ->
          canPlacePiece (withPosition newPiece (row piece + kr) (col piece + kc))
                        occ W H = Normal false
    end.
Proof.
  intros Hwf Hr. induction kicks as [|[kickRow kickCol] kicks IH].
  - exists None. split; [done|]. intros kr kc Hin. by apply elem_of_nil in Hin.
  - cbn [tryKicks].
    set (kicked := withPosition newPiece (row piece + kickRow) (col piece + kickCol)).
    destruct (canPlacePiece_valid W H occ kicked Hwf Hr) as (cs & _ & Hc).
    rewrite Hc. destruct (allValid W H occ cs) eqn:Hv.
    + exists (Some kicked). split; [done|].
      exists [], kickRow, kickCol, kicks. split; [done|]. split; [done|].
      split; [done|]. intros kr kc Hin. by apply elem_of_nil in Hin.
    + destruct IH as (res & Hres & Hspec). exists res. split; [done|].
      destruct res as [k|].
      * destruct Hspec as (before & kr0 & kc0 & after & -> & Hk & Hplace & Hbefore).
        exists ((kickRow, kickCol) :: before), kr0, kc0, after.
        split; [done|]. split; [done|]. split; [done|].
        intros kr kc [[= -> ->]|Hin]%elem_of_cons; [done|by apply Hbefore].
      * intros kr kc [[= -> ->]|Hin]%elem_of_cons; [done|by apply Hspec].
Qed.

Lemma rotation_step (rotation direction : Z) :
  validRotation rotation -> direction = 1 \/ direction = -1 ->
  Z.rem (rotation + direction + 4) 4 = (rotation + direction) mod 4 /\
  validRotation (Z.rem (rotation + direction + 4) 4).
Proof.
  unfold validRotation. intros Hr Hd.
  rewrite Z.rem_mod_nonneg by lia.
  replace (rotation + direction + 4) with (rotation + direction + 1 * 4) by lia.
  rewrite Z.mod_add by lia. split; [done|]. apply Z.mod_pos_bound. lia.
Qed.

(** X19. On a grid of the field's size, [rotatePiece] by one quarter turn
    (direction 1 or -1) of a piece whose two rotations are in 0..3 does
    not throw.  The piece it returns can be placed; its rotation and its
    visual rotation are the old ones plus the direction, modulo 4, so
    their difference modulo 4 is kept; it is at the position of the given
    piece, or at that position moved by the first wall kick of the list
    that fits; nothing else changes.  It returns [null] exactly when
    neither the position nor any wall kick fits. *)
Theorem rotatePiece_turns (W H : nat) (occ : Grid) (piece : Piece) (direction : Z) :
  wfGrid W H occ -> validRotation (rotation piece) ->
  validRotation (visualRotation piece) ->
  direction = 1 \/ direction = -1 ->
  let turned :=
    withRotation piece ((rotation piece + direction) mod 4)
                       ((visualRotation piece + direction) mod 4) in
  exists res,
    rotatePiece piece direction occ W H = Normal res /\
    validRotation (rotation turned) /\ validRotation (visualRotation turned) /\
    (rotation turned - visualRotation turned) mod 4
      = (rotation piece - visualRotation piece) mod 4 /\
    match res with
    | Some rotated =>
        canPlacePiece rotated occ W H = Normal true /\
        exists before kickRow kickCol after,
          (0, 0) :: wallKicks = before ++ (kickRow, kickCol) :: after /\
          rotated = withPosition turned (row piece + kickRow) (col piece + kickCol) /\
          forall kr kc, (kr, kc) ∈ before ->
            canPlacePiece (withPosition turned (row piece + kr) (col piece + kc))
                          occ W H = Normal false
    | None =>
        forall kr kc, (kr, kc) ∈ (0, 0) :: wallKicks ->
          canPlacePiece (withPosition turned (row piece + kr) (col piece + kc))
                        occ W H = Normal false
    end.
Proof.
  intros Hwf Hr Hv Hd turned.
  destruct (rotation_step (rotation piece) direction Hr Hd) as [Hrot Hrv].
  destruct (rotation_step (visualRotation piece) direction Hv Hd) as [Hvis Hvv].
  assert (Hturned : withRotation piece (Z.rem (rotation piece + direction + 4) 4)
                      (Z.rem (visualRotation piece + direction + 4) 4) = turned).
  { subst turned. by rewrite Hrot, Hvis. }
  assert (Hrt : validRotation (rotation turned)).
  { subst turned. cbn [rotation withRotation]. by rewrite <- Hrot. }
  assert (Hvt : validRotation (visualRotation turned)).
  { subst turned. cbn [visualRotation withRotation]. by rewrite <- Hvis. }
  assert (Hdiff : (rotation turned - visualRotation turned) mod 4
                  = (rotation piece - visualRotation piece) mod 4).
  { subst turned. cbn [rotation visualRotation withRotation].
    rewrite <- Zminus_mod. f_equal. lia. }
  assert (Hzero : withPosition turned (row piece + 0) (col piece + 0) = turned).
  { rewrite !Z.add_0_r. clear. subst turned. by destruct piece. }
  unfold rotatePiece. rewrite Hturned.
  destruct (canPlacePiece_valid W H occ turned Hwf Hrt) as (cs & _ & Hc).
  rewrite Hc. destruct (allValid W H occ cs) eqn:Hvalid.
  - exists (Some turned). split; [done|]. split; [done|]. split; [done|].
    split; [done|]. split; [done|].
    exists [], 0, 0, wallKicks. split; [done|]. split; [done|].
    intros kr kc Hin. by apply elem_of_nil in Hin.
  - destruct (tryKicks_spec W H occ piece turned wallKicks Hwf Hrt)
      as (res & Hres & Hspec).
    exists res. split; [done|]. split; [done|]. split; [done|]. split; [done|].
    destruct res as [kicked|].
    + destruct Hspec as (before & kr0 & kc0 & after & Heq & Hk & Hplace & Hbefore).
      split; [done|].
      exists ((0, 0) :: before), kr0, kc0, after.
      split; [by rewrite Heq|]. split; [done|].
      intros kr kc [[= -> ->]|Hin]%elem_of_cons; [by rewrite Hzero|by apply Hbefore].
    + intros kr kc [[= -> ->]|Hin]%elem_of_cons; [by rewrite Hzero|by apply Hspec].
Qed.

Lemma rotatePiece_turns_witness :
  wfGrid 10 16 (emptyGrid 10 16) /\ validRotation (rotation sampleT) /\
  validRotation (visualRotation sampleT) /\ ((-1) = 1 \/ (-1) = -1) /\
  let turned :=
    withRotation sampleT ((rotation sampleT + -1) mod 4)
                         ((visualRotation sampleT + -1) mod 4) in
  exists res,
    rotatePiece sampleT (-1) (emptyGrid 10 16) 10 16 = Normal res /\
    validRotation (rotation turned) /\ validRotation (visualRotation turned) /\
    (rotation turned - visualRotation turned) mod 4
      = (rotation sampleT - visualRotation sampleT) mod 4 /\
    match res with
    | Some rotated =>
        canPlacePiece rotated (emptyGrid 10 16) 10 16 = Normal true /\
        exists before kickRow kickCol after,
          (0, 0) :: wallKicks = before ++ (kickRow, kickCol) :: after /\
          rotated = withPosition turned (row sampleT + kickRow) (col sampleT + kickCol) /\
          forall kr kc, (kr, kc) ∈ before ->
            canPlacePiece (withPosition turned (row sampleT + kr) (col sampleT + kc))
                          (emptyGrid 10 16) 10 16 = Normal false
    | None =>
        forall kr kc, (kr, kc) ∈ (0, 0) :: wallKicks ->
          canPlacePiece (withPosition turned (row sampleT + kr) (col sampleT + kc))
                        (emptyGrid 10 16) 10 16 = Normal false
    end.
Proof.
  assert (Hr : validRotation (rotation sampleT)) by (unfold validRotation; cbn; lia).
  assert (Hv : validRotation (visualRotation sampleT)) by (unfold validRotation; cbn; lia).
  assert (Hd : (-1) = 1 \/ (-1) = -1) by (right; reflexivity).
  split; [apply wfGrid_empty|]. split; [exact Hr|]. split; [exact Hv|].
  split; [exact Hd|].
  exact (rotatePiece_turns 10 16 (emptyGrid 10 16) sampleT (-1)
           (wfGrid_empty 10 16) Hr Hv Hd).
Defined.

(** *** [dropPiece] *)

Lemma dropLoop_spec (W H : nat) (occ : Grid) (turns : nat) (piece : Piece) :
  wfGrid W H occ -> validRotation (rotation piece) ->
  (if row piece + 1 <? 0 then 1 else Z.max 1 (Z.of_nat H - row piece)) <= Z.of_nat turns ->
  exists n : nat,
    dropLoop turns piece occ W H
      = Some (Normal (withPosition piece (row piece + Z.of_nat n) (col piece))) /\
    (forall k : nat, (1 <= k <= n)%nat ->
       canPlacePiece (withPosition piece (row piece + Z.of_nat k) (col piece)) occ W H
         = Normal true) /\
    canPlacePiece (withPosition piece (row piece + Z.of_nat n + 1) (col piece)) occ W H
      = Normal false /\
    ((0 < n)%nat -> 0 <= row piece + 1 /\ row piece + Z.of_nat n < Z.of_nat H).
Proof.
  intros Hwf. revert piece. induction turns as [|turns IH]; intros piece Hr Hneed.
  { destruct (row piece + 1 <? 0); lia. }
  cbn [dropLoop].
  destruct (movePiece_cases W H occ piece 1 0 Hwf Hr) as [[Hm Hc]|[Hm Hc]];
    rewrite Hm; rewrite Z.add_0_r in Hc.
  - set (next := withPosition piece (row piece + 1) (col piece)) in *.
    rewrite Z.add_0_r. fold next.
    destruct (canPlacePiece_position W H occ next Hwf Hc) as (_ & Hrow & _).
    cbn [next row withPosition] in Hrow.
    destruct (IH next Hr) as (n & Hloop & Hsteps & Hstop & Hin).
    { cbn [next row withPosition].
      destruct (Z.ltb_spec (row piece + 1) 0); [lia|].
      destruct (Z.ltb_spec (row piece + 1 + 1) 0); lia. }
    exists (S n). split; [|split; [|split]].
    + rewrite Hloop. do 2 f_equal. subst next. cbn [row col withPosition].
      unfold withPosition. cbn. f_equal. lia.
    + intros k Hk. destruct (decide (k = 1%nat)) as [->|Hne].
      * by rewrite Z.add_comm, Z.add_comm.
      * specialize (Hsteps (k - 1)%nat ltac:(lia)).
        subst next. cbn [row col withPosition] in Hsteps.
        replace (row piece + 1 + Z.of_nat (k - 1)) with (row piece + Z.of_nat k)
          in Hsteps by lia.
        exact Hsteps.
    + subst next. cbn [row col withPosition] in Hstop.
      replace (row piece + 1 + Z.of_nat n + 1) with (row piece + Z.of_nat (S n) + 1)
        in Hstop by lia.
      exact Hstop.
    + intros _. split; [lia|]. subst next. cbn [row col withPosition] in Hin.
      destruct n as [|n]; [lia|]. specialize (Hin ltac:(lia)). lia.
  - exists 0%nat. cbn [Z.of_nat]. rewrite !Z.add_0_r.
    split; [by rewrite withPosition_same|]. split; [intros k Hk; lia|].
    split; [done|]. lia.
Qed.

(** X20. On a grid of the field's size, [dropPiece] of a piece with a
    rotation in 0..3 leaves its loop (within [fieldHeight + 1] turns) and
    returns the piece moved down by the largest number of rows such that
    each position on the way can be taken: the position one row further
    down cannot.  Only the row changes. *)
Theorem dropPiece_lands (W H : nat) (occ : Grid) (piece : Piece) :
  wfGrid W H occ -> validRotation (rotation piece) ->
  exists n : nat,
    dropPiece piece occ W H
      = Some (Normal (withPosition piece (row piece + Z.of_nat n) (col piece))) /\
    (n <= H)%nat /\
    (forall k : nat, (1 <= k <= n)%nat ->
       canPlacePiece (withPosition piece (row piece + Z.of_nat k) (col piece)) occ W H
         = Normal true) /\
    canPlacePiece (withPosition piece (row piece + Z.of_nat n + 1) (col piece)) occ W H
      = Normal false.
Proof.
  intros Hwf Hr. unfold dropPiece.
  destruct (dropLoop_spec W H occ (S H) piece Hwf Hr) as (n & Hloop & Hsteps & Hstop & Hin).
  { destruct (Z.ltb_spec (row piece + 1) 0); lia. }
  exists n. split; [done|]. split; [|by split].
  destruct n as [|n]; [lia|]. specialize (Hin ltac:(lia)). lia.
Qed.

Lemma dropPiece_lands_witness :
  wfGrid 10 16 (emptyGrid 10 16) /\ validRotation (rotation sampleT) /\
  exists n : nat,
    dropPiece sampleT (emptyGrid 10 16) 10 16
      = Some (Normal (withPosition sampleT (row sampleT + Z.of_nat n) (col sampleT))) /\
    (n <= 16)%nat /\
    (forall k : nat, (1 <= k <= n)%nat ->
       canPlacePiece (withPosition sampleT (row sampleT + Z.of_nat k) (col sampleT))
                     (emptyGrid 10 16) 10 16 = Normal true) /\
    canPlacePiece (withPosition sampleT (row sampleT + Z.of_nat n + 1) (col sampleT))
                  (emptyGrid 10 16) 10 16 = Normal false.
Proof.
  assert (Hr : validRotation (rotation sampleT)) by (unfold validRotation; cbn; lia).
  split; [apply wfGrid_empty|]. split; [exact Hr|].
  exact (dropPiece_lands 10 16 (emptyGrid 10 16) sampleT (wfGrid_empty 10 16) Hr).
Defined.

(** *** [placePiece] *)

Lemma writeCell_inside (W H : nat) (occ : Grid) (cell : Cell) :
  wfGrid W H occ -> inField W H cell ->
  writeCell occ cell = Normal (setUsed occ cell).
Proof.
  intros Hwf [Hrow Hcol]. destruct cell as [r c]. cbn [fst snd] in Hrow, Hcol.
  unfold writeCell, setUsed.
  destruct (getIndex occ r) as [line|] eqn:Hl.
  - rewrite (wfGrid_line W H occ r line Hwf Hl).
    destruct (Z.ltb_spec c 0); [lia|].
    destruct (Z.ltb_spec c (Z.of_nat W)); [done|lia].
  - destruct Hwf as [Hlen _]. unfold getIndex in Hl.
    destruct (Z.ltb_spec r 0); [lia|].
    apply lookup_ge_None in Hl. lia.
Qed.

Lemma writeCells_inside (W H : nat) (cs : list Cell) (occ : Grid) :
  wfGrid W H occ -> (forall cell, cell ∈ cs -> inField W H cell) ->
  writeCells occ cs = Normal (markCells occ cs).
Proof.
  revert occ. induction cs as [|cell cs IH]; intros occ Hwf Hin; [done|].
  cbn [writeCells]. rewrite (writeCell_inside W H occ cell Hwf) by (apply Hin; by left).
  unfold markCells. cbn [fold_left]. apply IH.
  - by apply setUsed_wf.
  - intros cell' Hc. apply Hin. by right.
Qed.

Lemma map_id_rows (occ : Grid) : map (fun row : list bool => row) occ = occ.
Proof. induction occ as [|line occ IH]; [done|]. cbn. by rewrite IH. Qed.

Lemma placePiece_marks (W H : nat) (occ : Grid) (piece : Piece) (cs : list Cell) :
  wfGrid W H occ -> getPieceCells piece = Normal cs -> fits W H occ cs ->
  placePiece piece occ = Normal (markCells occ cs, piece) /\
  wfGrid W H (markCells occ cs) /\
  forall r c, usedAt (markCells occ cs) r c = true <-> (r, c) ∈ cs \/ usedAt occ r c = true.
Proof.
  intros Hwf Hcs Hfit.
  assert (Hin : forall cell, cell ∈ cs -> inField W H cell).
  { intros [r c] Hc. by destruct (Hfit r c Hc). }
  split; [|by apply markCells_spec].
  unfold placePiece. rewrite Hcs, map_id_rows.
  rewrite (writeCells_inside W H cs occ Hwf Hin). by destruct piece.
Qed.

(** X21. When [canPlacePiece] holds of a piece on a grid of the field's
    size, [placePiece] does not throw; the placed piece has the members of
    the given piece; the new grid has the field's size and its occupied
    cells are those of the given grid and the four cells of the piece,
    which were free in the given grid; and the piece can no longer be
    placed on the new grid. *)
Theorem placePiece_occupies (W H : nat) (occ : Grid) (piece : Piece) :
  wfGrid W H occ -> canPlacePiece piece occ W H = Normal true ->
  exists newOccupiedCells cs,
    getPieceCells piece = Normal cs /\
    placePiece piece occ = Normal (newOccupiedCells, piece) /\
    wfGrid W H newOccupiedCells /\
    (forall r c, usedAt newOccupiedCells r c = true
                 <-> (r, c) ∈ cs \/ usedAt occ r c = true) /\
    (forall r c, (r, c) ∈ cs -> usedAt occ r c = false) /\
    canPlacePiece piece newOccupiedCells W H = Normal false.
Proof.
  intros Hwf Hc.
  destruct (canPlacePiece_position W H occ piece Hwf Hc) as (Hr & _ & _).
  destruct (getPieceCells_valid piece Hr)
    as (_ & _ & cs & _ & _ & Hcs & _ & _ & _ & _ & (c1 & Ht) & _).
  pose proof Hc as Hfit.
  rewrite (canPlacePiece_allValid W H occ piece Hwf), Hcs in Hfit.
  injection Hfit as Hfit. apply allValid_fits in Hfit.
  destruct (placePiece_marks W H occ piece cs Hwf Hcs Hfit) as (Hp & Hwf' & Hused).
  exists (markCells occ cs), cs.
  split; [done|]. split; [done|]. split; [done|]. split; [done|].
  split; [intros r c Hin; by destruct (Hfit r c Hin)|].
  rewrite (canPlacePiece_allValid W H _ piece Hwf'), Hcs. f_equal.
  destruct (allValid W H (markCells occ cs) cs) eqn:Hv; [|done].
  apply allValid_fits in Hv. destruct (Hv _ _ Ht) as [_ Hfree].
  assert (Hset : usedAt (markCells occ cs) (row piece) c1 = true)
    by (apply Hused; by left).
  congruence.
Qed.

Lemma placePiece_occupies_witness :
  wfGrid 10 16 (emptyGrid 10 16) /\
  canPlacePiece sampleT (emptyGrid 10 16) 10 16 = Normal true /\
  exists newOccupiedCells cs,
    getPieceCells sampleT = Normal cs /\
    placePiece sampleT (emptyGrid 10 16) = Normal (newOccupiedCells, sampleT) /\
    wfGrid 10 16 newOccupiedCells /\
    (forall r c, usedAt newOccupiedCells r c = true
                 <-> (r, c) ∈ cs \/ usedAt (emptyGrid 10 16) r c = true) /\
    (forall r c, (r, c) ∈ cs -> usedAt (emptyGrid 10 16) r c = false) /\
    canPlacePiece sampleT newOccupiedCells 10 16 = Normal false.
Proof.
  assert (Hc : canPlacePiece sampleT (emptyGrid 10 16) 10 16 = Normal true)
    by reflexivity.
  split; [apply wfGrid_empty|]. split; [exact Hc|].
  exact (placePiece_occupies 10 16 (emptyGrid 10 16) sampleT (wfGrid_empty 10 16) Hc).
Defined.

Lemma forallb_false {A : Type} (f : A -> bool) (l : list A) :
  forallb f l = false -> exists x, In x l /\ f x = false.
Proof.
  induction l as [|x l IH]; cbn; [done|].
  destruct (f x) eqn:Hx; cbn.
  - intros H. destruct (IH H) as (y & Hy & Hf). exists y. auto.
  - intros _. exists x. auto.
Qed.

(** X22. A piece that can be placed, once dropped, can still be placed,
    and it rests: one of its cells is in the bottom row of the field or
    has an occupied cell right under it.  [placePiece] then accepts it. *)
Theorem dropPiece_rests (W H : nat) (occ : Grid) (piece : Piece) :
  wfGrid W H occ -> canPlacePiece piece occ W H = Normal true ->
  exists dropped cs newOccupiedCells,
    dropPiece piece occ W H = Some (Normal dropped) /\
    canPlacePiece dropped occ W H = Normal true /\
    getPieceCells dropped = Normal cs /\
    (exists r c, (r, c) ∈ cs /\
       (r = Z.of_nat H - 1 \/ usedAt occ (r + 1) c = true)) /\
    placePiece dropped occ = Normal (newOccupiedCells, dropped).
Proof.
  intros Hwf Hc.
  destruct (canPlacePiece_position W H occ piece Hwf Hc) as (Hr & _ & _).
  destruct (dropLoop_spec W H occ (S H) piece Hwf Hr) as (n & Hloop & Hsteps & Hstop & _).
  { destruct (Z.ltb_spec (row piece + 1) 0); lia. }
  set (dropped := withPosition piece (row piece + Z.of_nat n) (col piece)) in *.
  assert (Hplace : canPlacePiece dropped occ W H = Normal true).
  { destruct n as [|n].
    - subst dropped. cbn [Z.of_nat]. by rewrite Z.add_0_r, withPosition_same.
    - apply Hsteps. lia. }
  destruct (getPieceCells_valid dropped Hr) as (shape & _ & cs & Hshape & _ & Hcs & Hmap & _).
  pose proof Hplace as Hfit.
  rewrite (canPlacePiece_allValid W H occ dropped Hwf), Hcs in Hfit.
  injection Hfit as Hfit. apply allValid_fits in Hfit.
  destruct (placePiece_marks W H occ dropped cs Hwf Hcs Hfit) as (Hp & _ & _).
  exists dropped, cs, (markCells occ cs).
  split; [done|]. split; [done|]. split; [done|]. split; [|done].
  set (below := withPosition piece (row piece + Z.of_nat n + 1) (col piece)) in *.
  assert (Hbelow : getPieceCells below
                   = Normal (map (fun cell : Cell => (fst cell + 1, snd cell)) cs)).
  { unfold getPieceCells. cbn [below dropped type rotation row col withPosition] in *.
    rewrite Hshape. f_equal. rewrite Hmap, map_map. apply map_ext.
    intros [dr dc]. cbn. f_equal. lia. }
  rewrite (canPlacePiece_allValid W H occ below Hwf), Hbelow in Hstop.
  injection Hstop as Hstop.
  unfold allValid in Hstop.
  destruct (forallb_false _ _ Hstop) as ([r' c'] & Hin & Hbad).
  apply in_map_iff in Hin as ([r c] & [= <- <-] & Hin). apply list_elem_of_In in Hin.
  exists r, c. split; [done|].
  destruct (Hfit r c Hin) as [[Hrow Hcol] _]. cbn [fst snd] in Hrow, Hcol, Hbad.
  destruct (usedAt occ (r + 1) c); [by right|]. left.
  cbn [negb] in Hbad. rewrite andb_true_r in Hbad. lia.
Qed.

Lemma dropPiece_rests_witness :
  wfGrid 10 16 (emptyGrid 10 16) /\
  canPlacePiece sampleT (emptyGrid 10 16) 10 16 = Normal true /\
  exists dropped cs newOccupiedCells,
    dropPiece sampleT (emptyGrid 10 16) 10 16 = Some (Normal dropped) /\
    canPlacePiece dropped (emptyGrid 10 16) 10 16 = Normal true /\
    getPieceCells dropped = Normal cs /\
    (exists r c, (r, c) ∈ cs /\
       (r = Z.of_nat 16 - 1 \/ usedAt (emptyGrid 10 16) (r + 1) c = true)) /\
    placePiece dropped (emptyGrid 10 16) = Normal (newOccupiedCells, dropped).
Proof.
  assert (Hc : canPlacePiece sampleT (emptyGrid 10 16) 10 16 = Normal true)
    by reflexivity.
  split; [apply wfGrid_empty|]. split; [exact Hc|].
  exact (dropPiece_rests 10 16 (emptyGrid 10 16) sampleT (wfGrid_empty 10 16) Hc).
Defined.

(** *** [checkWinCondition] and [calculateCorrectPieces] *)

(** X23. [calculateCorrectPieces] counts at most the placed pieces, and
    [checkWinCondition] holds exactly when it counts them all, that is,
    when every placed piece is at its target position with its target
    rotation and visual rotation 0. *)
Theorem checkWinCondition_counts (placedPieces : list PlacedPiece) :
  (calculateCorrectPieces placedPieces <= length placedPieces)%nat /\
  (checkWinCondition placedPieces = true
   <-> calculateCorrectPieces placedPieces = length placedPieces) /\
  (checkWinCondition placedPieces = true
   <-> forall p, p ∈ placedPieces ->
         row p = targetRow p /\ col p = targetCol p /\
         rotation p = targetRotation p /\ visualRotation p = 0).
Proof.
  unfold checkWinCondition, calculateCorrectPieces.
  assert (Hle : forall ps : list PlacedPiece,
            (length (List.filter inTargetPlace ps) <= length ps)%nat).
  { intros ps. induction ps as [|p ps IH]; cbn; [lia|].
    destruct (inTargetPlace p); cbn; lia. }
  split; [apply Hle|]. split.
  - induction placedPieces as [|p ps IH]; cbn; [done|].
    destruct (inTargetPlace p); cbn.
    + rewrite IH. lia.
    + split; [done|]. pose proof (Hle ps). lia.
  - rewrite forallb_forall. split.
    + intros Hall p Hp. apply list_elem_of_In in Hp. specialize (Hall p Hp).
      unfold inTargetPlace in Hall. lia.
    + intros Hall p Hp. apply list_elem_of_In in Hp.
      destruct (Hall p Hp) as (H1 & H2 & H3 & H4).
      unfold inTargetPlace. lia.
Qed.

(** *** The pieces built from a layout *)

Lemma mathMin_spec (xs : list Z) :
  xs <> [] -> mathMin xs ∈ xs /\ forall x, x ∈ xs -> mathMin xs <= x.
Proof.
  destruct xs as [|x0 xs]; [done|]. intros _. unfold mathMin. cbn [hd].
  assert (Hgen : forall l : list Z,
            (fold_right Z.min x0 l = x0 \/ fold_right Z.min x0 l ∈ l) /\
            forall x, x ∈ l -> fold_right Z.min x0 l <= x).
  { induction l as [|y l (Hmem & Hall)]; cbn [fold_right].
    - split; [by left|]. intros x Hx. by apply elem_of_nil in Hx.
    - split.
      + destruct (Z.min_spec y (fold_right Z.min x0 l)) as [[_ ->]|[_ ->]].
        * right. by left.
        * destruct Hmem as [Heq|Hin]; [by left|right; by right].
      + intros x [->|Hx]%elem_of_cons; [lia|]. specialize (Hall x Hx). lia. }
  destruct (Hgen (x0 :: xs)) as (Hmem & Hall).
  split; [|exact Hall]. destruct Hmem as [Heq|Hin]; [|done].
  rewrite Heq. by left.
Qed.

Lemma table_shape_origin (type : TetrominoType) (rotIdx : nat) (shape : list Cell) :
  TETROMINO_SHAPES type !! rotIdx = Some shape ->
  (rotIdx < 4)%nat /\
  (forall dr dc, (dr, dc) ∈ shape -> 0 <= dr /\ 0 <= dc) /\
  (exists dc, (0, dc) ∈ shape) /\ (exists dr, (dr, 0) ∈ shape).
Proof.
  intros Hs.
  assert (Hlt : (rotIdx < 4)%nat).
  { apply lookup_lt_Some in Hs. by rewrite shapes_length in Hs. }
  split; [done|].
  assert (Hr : validRotation (Z.of_nat rotIdx)) by (unfold validRotation; lia).
  destruct (table_fills_boxes type (Z.of_nat rotIdx) Hr) as (shape' & b & Hs' & _ & Hfill).
  rewrite getIndex_of_nat, Hs in Hs'. injection Hs' as <-.
  apply fillsBox_spec in Hfill as (_ & Hbox & Ht & Hl & _).
  split; [|by split]. intros dr dc Hin. specialize (Hbox dr dc Hin). lia.
Qed.

(** The least row and column of a table shape moved by [(baseRow, baseCol)]. *)
Lemma isTableShape_base (type : TetrominoType) (rotIdx : nat) (shape cs : list Cell)
    (baseRow baseCol : Z) :
  TETROMINO_SHAPES type !! rotIdx = Some shape ->
  cs ≡ₚ map (fun pos : Cell => (baseRow + fst pos, baseCol + snd pos)) shape ->
  mathMin (map fst cs) = baseRow /\ mathMin (map snd cs) = baseCol.
Proof.
  intros Hs Hperm.
  destruct (table_shape_origin type rotIdx shape Hs) as (_ & Hpos & (dc0 & Ht) & (dr0 & Hl)).
  assert (Hmem : forall r c, (r, c) ∈ cs <->
            exists dr dc, (dr, dc) ∈ shape /\ r = baseRow + dr /\ c = baseCol + dc).
  { intros r c. rewrite Hperm. rewrite list_elem_of_In, in_map_iff. split.
    - intros ([dr dc] & [= <- <-] & Hin). exists dr, dc.
      split; [by apply list_elem_of_In|done].
    - intros (dr & dc & Hin & -> & ->). exists (dr, dc).
      split; [done|by apply list_elem_of_In]. }
  assert (Hne : cs <> []).
  { intros ->. assert (Hin : (baseRow + 0, baseCol + dc0) ∈ @nil Cell)
      by (apply Hmem; by exists 0, dc0).
    by apply elem_of_nil in Hin. }
  split.
  - destruct (mathMin_spec (map fst cs)) as [Hin Hall]; [by destruct cs|].
    apply list_elem_of_In, in_map_iff in Hin as ([r c] & Hr & Hin).
    apply list_elem_of_In, Hmem in Hin as (dr & dc & Hin & -> & ->).
    cbn [fst] in Hr. destruct (Hpos dr dc Hin) as [Hdr _].
    assert (Hle : mathMin (map fst cs) <= baseRow + 0).
    { apply Hall. apply list_elem_of_In, in_map_iff. exists (baseRow + 0, baseCol + dc0).
      split; [done|]. apply list_elem_of_In, Hmem. by exists 0, dc0. }
    lia.
  - destruct (mathMin_spec (map snd cs)) as [Hin Hall]; [by destruct cs|].
    apply list_elem_of_In, in_map_iff in Hin as ([r c] & Hc & Hin).
    apply list_elem_of_In, Hmem in Hin as (dr & dc & Hin & -> & ->).
    cbn [snd] in Hc. destruct (Hpos dr dc Hin) as [_ Hdc].
    assert (Hle : mathMin (map snd cs) <= baseCol + 0).
    { apply Hall. apply list_elem_of_In, in_map_iff. exists (baseRow + dr0, baseCol + 0).
      split; [done|]. apply list_elem_of_In, Hmem. by exists dr0, 0. }
    lia.
Qed.

Lemma rotationOffset_range (s : Z) :
  0 <= Qfloor (fst (random s) * 4) < 4.
Proof.
  destruct (random_value_range s) as [H0 H1].
  change (Qfloor (fst (random s) * 4)) with (floorMul (fst (random s)) 4).
  apply (floorMul_range (fst (random s)) 4 H0 H1). lia.
Qed.

Lemma createPiece_builtFor (renderPieceImage : LayoutPiece -> string * Q * Q)
    (fieldWidth : nat) (entry : LayoutPiece) (seed : Z) :
  isTableShape entry ->
  builtFor fieldWidth entry (fst (createPiece renderPieceImage fieldWidth entry seed)) /\
  snd (createPiece renderPieceImage fieldWidth entry seed) = snd (random seed).
Proof.
  intros (shape & baseRow & baseCol & Hs & Hperm).
  destruct (isTableShape_base _ _ _ _ _ _ Hs Hperm) as [HminR HminC].
  destruct (table_shape_origin _ _ _ Hs) as (Hlt & _).
  pose proof (rotationOffset_range seed) as Hoff.
  unfold createPiece, builtFor. destruct (random seed) as [r seed'] eqn:Hrand.
  cbn [fst snd] in Hoff. destruct (renderPieceImage entry) as [[dataUrl width] height].
  cbn [fst snd type row col rotation visualRotation targetRotation targetRow targetCol].
  rewrite HminR, HminC.
  set (off := Qfloor (r * 4)) in *.
  assert (Hrem : Z.rem (Z.of_nat (layoutRotation entry) + off) 4
                 = (Z.of_nat (layoutRotation entry) + off) mod 4)
    by (apply Z.rem_mod_nonneg; lia).
  rewrite Hrem. unfold validRotation.
  split; [|done].
  split; [done|]. split; [done|]. split; [done|].
  split; [apply Z.mod_pos_bound; lia|]. split; [lia|]. split; [done|]. split; [lia|].
  split.
  { rewrite Zminus_mod_idemp_l.
    replace (Z.of_nat (layoutRotation entry) + off - off)
      with (Z.of_nat (layoutRotation entry)) by lia.
    apply Z.mod_small. lia. }
  intros placed Htype HtR HtC Hrot Hplace.
  unfold inTargetPlace in Hplace.
  assert (Hrow : row placed = baseRow) by lia.
  assert (Hcol : col placed = baseCol) by lia.
  assert (Hr : rotation placed = Z.of_nat (layoutRotation entry)) by lia.
  unfold getPieceCells. rewrite Htype, Hr, getIndex_of_nat, Hs, Hrow, Hcol.
  eexists. split; [done|]. rewrite Hperm.
  apply Permutation_refl'. apply map_ext. by intros [dr dc].
Qed.

Lemma mapCreatePiece_builtFor (renderPieceImage : LayoutPiece -> string * Q * Q)
    (fieldWidth : nat) (layout : list LayoutPiece) (s : Z) :
  Forall isTableShape layout ->
  Forall2 (builtFor fieldWidth) layout
          (mapCreatePiece renderPieceImage fieldWidth layout s).
Proof.
  intros Hall. revert s. induction Hall as [|entry layout Hentry Hall IH]; intros s.
  - constructor.
  - cbn [mapCreatePiece].
    destruct (createPiece_builtFor renderPieceImage fieldWidth entry s Hentry)
      as [Hbuilt _].
    destruct (createPiece renderPieceImage fieldWidth entry s) as [piece s'].
    constructor; [done|apply IH].
Qed.

(** X24. [createPiecesFromLayout] builds one piece per entry of the
    layout, in the layout's order.  For an entry that is a table shape (as
    every entry of [generatePieceLayout] is), the piece has the entry's
    type, starts in row 0 and column [floor(fieldWidth / 2) - 1] with a
    rotation and a visual rotation in 0..3 whose difference, modulo 4, is
    the target rotation (the entry's), and its target position is the top
    left corner of the box of the entry's cells: a piece of that type and
    target that is in its target place (as [checkWinCondition] tests)
    occupies exactly the cells the layout gave the entry. *)
Theorem piecesWithCells_targets (renderPieceImage : LayoutPiece -> string * Q * Q)
    (fieldWidth : nat) (layout : list LayoutPiece) (seed : Z) :
  Forall isTableShape layout ->
  length (piecesWithCells renderPieceImage fieldWidth layout seed) = length layout /\
  Forall2 (builtFor fieldWidth) layout
          (piecesWithCells renderPieceImage fieldWidth layout seed).
Proof.
  intros Hall. unfold piecesWithCells. cbn zeta.
  pose proof (mapCreatePiece_builtFor renderPieceImage fieldWidth layout
                (mulberry32 (seed + 12345)) Hall) as Hb.
  split; [|done]. symmetry. by apply (Forall2_length _ _ _ Hb).
Qed.

Lemma piecesWithCells_targets_witness :
  Forall isTableShape [mkPiece tO 0 [(14, 0); (14, 1); (15, 0); (15, 1)]] /\
  length (piecesWithCells (fun _ => ("", 0%Q, 0%Q)) 10
            [mkPiece tO 0 [(14, 0); (14, 1); (15, 0); (15, 1)]] 5)
    = length [mkPiece tO 0 [(14, 0); (14, 1); (15, 0); (15, 1)]] /\
  Forall2 (builtFor 10) [mkPiece tO 0 [(14, 0); (14, 1); (15, 0); (15, 1)]]
          (piecesWithCells (fun _ => ("", 0%Q, 0%Q)) 10
             [mkPiece tO 0 [(14, 0); (14, 1); (15, 0); (15, 1)]] 5).
Proof.
  assert (Hshape : Forall isTableShape
                     [mkPiece tO 0 [(14, 0); (14, 1); (15, 0); (15, 1)]]).
  { apply Forall_singleton.
    exists [(0, 0); (0, 1); (1, 0); (1, 1)], 14, 0. split; reflexivity. }
  split; [exact Hshape|].
  exact (piecesWithCells_targets (fun _ => ("", 0%Q, 0%Q)) 10
           [mkPiece tO 0 [(14, 0); (14, 1); (15, 0); (15, 1)]] 5 Hshape).
Defined.

End TetrisPlayFacts.

(** * Further properties of the layout engine *)

Module TetrisFacts2.
Import Tetris TetrisSpec TetrisSpec2 TetrisPlaySpec ArrayFacts TetrisFacts.
Local Open Scope Z_scope.

(** *** Every piece is a shape of the table *)

Lemma table_shape_length (type : TetrominoType) (rotIdx : nat) (shape : list Cell) :
  TETROMINO_SHAPES type !! rotIdx = Some shape -> length shape = 4%nat.
Proof.
  destruct type; destruct rotIdx as [|[|[|[|k]]]]; cbn; intros [= <-] || intros [=]; done.
Qed.

Lemma isTableShape_cells (p : LayoutPiece) :
  isTableShape p -> length (cells p) = 4%nat /\ NoDup (cells p).
Proof.
  intros (shape & br & bc & Hs & Hperm). split.
  - rewrite (Permutation_length Hperm), length_map. by apply (table_shape_length _ _ _ Hs).
  - rewrite Hperm.
    change (NoDup ((fun pos : Cell => (br + fst pos, bc + snd pos)) <$> shape)).
    apply NoDup_fmap_2_strong; [|by apply (shapes_NoDup _ _ _ Hs)].
    intros [a1 a2] [b1 b2] _ _ [= H1 H2]. f_equal; lia.
Qed.

Lemma tryAnchors_shape (W H : nat) (shape anchors : list Cell) (used : Grid)
    (row col : Z) (cs : list Cell) :
  tryAnchors W H shape anchors used row col = Some cs ->
  exists baseRow baseCol,
    cs = map (fun pos : Cell => (baseRow + fst pos, baseCol + snd pos)) shape.
Proof.
  induction anchors as [|[anchorDr anchorDc] rest IH]; cbn [tryAnchors]; [done|].
  destruct (allValid W H used _ && isPieceGrounded _ used H); [|done].
  intros [= <-]. by exists (row - anchorDr), (col - anchorDc).
Qed.

Lemma tryRotations_shape (W H : nat) (type : TetrominoType) (rotations : list nat)
    (used : Grid) (row col : Z) (rotIdx : nat) (cs : list Cell) :
  tryRotations W H type rotations used row col = Normal (Some (rotIdx, cs)) ->
  isTableShape (mkPiece type rotIdx cs).
Proof.
  induction rotations as [|k rest IH]; cbn [tryRotations]; [done|].
  destruct (TETROMINO_SHAPES type !! k) as [shape|] eqn:Hs; [|done].
  destruct (tryAnchors W H shape shape used row col) as [cs'|] eqn:Ha; [|done].
  intros [= <- <-].
  destruct (tryAnchors_shape W H shape shape used row col cs' Ha) as (br & bc & ->).
  by exists shape, br, bc.
Qed.

Section FillShapes.
Variable arraySort :
  forall (A St : Type), (A -> A -> St -> Q * St) -> list A -> St -> list A * St.
Variables W H : nat.

Lemma tryTypes_shape (types : list TetrominoType) (used : Grid) (row col s : Z)
    (piece : LayoutPiece) (s' : Z) :
  tryTypes arraySort W H types used row col s = Normal (Some piece, s') ->
  isTableShape piece.
Proof.
  revert s. induction types as [|type rest IH]; intros s; cbn [tryTypes]; [done|].
  destruct (sortRandomly arraySort [0; 1; 2; 3]%nat s) as [rotations s1].
  destruct (tryRotations W H type rotations used row col) as [[[rotIdx cs]|]|] eqn:Hr;
    [|by apply IH|done].
  intros [= <- <-]. by apply (tryRotations_shape W H type rotations used row col).
Qed.

Lemma fillCell_shape (row col : Z) (st st' : FillState) :
  fillCell arraySort W H row col st = Normal st' ->
  Forall isTableShape (pieces st) -> Forall isTableShape (pieces st').
Proof.
  unfold fillCell. destruct (usedAt (used st) row col); [by intros [= <-]|].
  destruct (sortRandomly arraySort tetrominoTypes (seed st)) as [types s1].
  destruct (tryTypes arraySort W H types (used st) row col s1)
    as [[[piece|] s2]|] eqn:Ht; [| |done].
  - intros [= <-] Hall. cbn [pieces]. apply Forall_app. split; [done|].
    apply Forall_singleton. by apply (tryTypes_shape types (used st) row col s1 piece s2).
  - by intros [= <-].
Qed.

Lemma scanCols_shape (n col : nat) (row : Z) (st st' : FillState) :
  scanCols arraySort W H n col row st = Normal st' ->
  Forall isTableShape (pieces st) -> Forall isTableShape (pieces st').
Proof.
  revert col st. induction n as [|n IH]; intros col st; cbn [scanCols].
  - by intros [= <-].
  - destruct (failed st); [by intros [= <-]|].
    destruct (fillCell arraySort W H row (Z.of_nat col) st) as [st1|] eqn:Hf; [|done].
    intros Hs Hall. apply (IH _ _ Hs). by apply (fillCell_shape _ _ _ _ Hf).
Qed.

Lemma scanRows_shape (n : nat) (st st' : FillState) :
  scanRows arraySort W H n st = Normal st' ->
  Forall isTableShape (pieces st) -> Forall isTableShape (pieces st').
Proof.
  revert st. induction n as [|n IH]; intros st; cbn [scanRows].
  - by intros [= <-].
  - destruct (failed st); [by intros [= <-]|].
    destruct (scanCols arraySort W H W 0 (Z.of_nat n) st) as [st1|] eqn:Hc; [|done].
    intros Hs Hall. apply (IH _ Hs). by apply (scanCols_shape _ _ _ _ _ Hc).
Qed.

Lemma tryGenerate_shape (maxAttempts : nat) (s : Z) (ps : list LayoutPiece) (s' : Z) :
  tryGenerate arraySort W H maxAttempts s = Normal (Some ps, s') ->
  Forall isTableShape ps.
Proof.
  revert s. induction maxAttempts as [|n IH]; intros s; cbn [tryGenerate]; [done|].
  destruct (attempt arraySort W H s) as [[[res|] s1]|] eqn:Ha; [| |done].
  - intros [= <- <-]. unfold attempt in Ha.
    destruct (scanRows arraySort W H H (mkFill (emptyGrid W H) [] false s))
      as [st|] eqn:Hs; [|done].
    destruct (negb (failed st) && isComplete W H (used st)); [|done].
    injection Ha as <- _. by apply (scanRows_shape _ _ _ Hs).
  - apply IH.
Qed.

End FillShapes.

(** *** The fallback tiling, for a field of any size *)

Lemma place_layout (W H : nat) (used : Grid) (ps : list LayoutPiece)
    (piece : LayoutPiece) :
  layoutInv W H used ps ->
  fits W H used (cells piece) ->
  isTableShape piece ->
  layoutInv W H (markCells used (cells piece)) (ps ++ [piece]).
Proof.
  intros (Hwf & Huse & Hnd & Hfield & Hshapes) Hfit Hshape.
  assert (Hv : forall cell, cell ∈ cells piece ->
                 inField W H cell /\ usedAt used (fst cell) (snd cell) = false).
  { intros [r c] Hc. by apply Hfit. }
  destruct (markCells_spec W H (cells piece) used Hwf) as [Hwf' Hmark].
  { intros cell Hc. by apply Hv. }
  unfold layoutInv. rewrite allCells_snoc.
  split; [apply Hwf'|]. split; [|split; [|split]].
  - intros r c. split.
    + intros Hu. apply Hmark in Hu as [Hu|Hu]; apply elem_of_app; [by right|].
      left. by apply Huse.
    + intros [Hc|Hc]%elem_of_app; apply Hmark; [right; by apply Huse|by left].
  - apply NoDup_app. split; [done|]. split; [|by apply isTableShape_cells].
    intros [r c] Hold Hnew. apply Huse in Hold.
    destruct (Hv _ Hnew) as [_ Hfree]. cbn [fst snd] in Hfree. congruence.
  - intros cell [Hc|Hc]%elem_of_app; [by apply Hfield|by apply Hv].
  - apply Forall_app. split; [done|]. by apply Forall_singleton.
Qed.

Lemma freeRight_free (W : nat) (n : nat) (used : Grid) (row c : Z) (k : nat) :
  (k < freeRight W n used row c)%nat ->
  c + Z.of_nat k < Z.of_nat W /\ usedAt used row (c + Z.of_nat k) = false.
Proof.
  revert c k. induction n as [|n IH]; intros c k; cbn [freeRight]; [lia|].
  destruct (Z.ltb_spec c (Z.of_nat W)) as [Hc|Hc]; cbn [andb]; [|lia].
  destruct (usedAt used row c) eqn:Hu; cbn [negb]; [lia|].
  destruct k as [|k]; intros Hk.
  - cbn [Z.of_nat]. rewrite Z.add_0_r. by split.
  - destruct (IH (c + 1) k ltac:(lia)) as [H1 H2].
    replace (c + Z.of_nat (S k)) with (c + 1 + Z.of_nat k) by lia. by split.
Qed.

Lemma freeUp_free (n : nat) (used : Grid) (r col : Z) (k : nat) :
  (k < freeUp n used r col)%nat ->
  0 <= r - Z.of_nat k /\ usedAt used (r - Z.of_nat k) col = false.
Proof.
  revert r k. induction n as [|n IH]; intros r k; cbn [freeUp]; [lia|].
  destruct (Z.leb_spec 0 r) as [Hr|Hr]; cbn [andb]; [|lia].
  destruct (usedAt used r col) eqn:Hu; cbn [negb]; [lia|].
  destruct k as [|k]; intros Hk.
  - cbn [Z.of_nat]. rewrite Z.sub_0_r. by split.
  - destruct (IH (r - 1) k ltac:(lia)) as [H1 H2].
    replace (r - Z.of_nat (S k)) with (r - 1 - Z.of_nat k) by lia. by split.
Qed.

Lemma fits_four (W H : nat) (used : Grid) (c1 c2 c3 c4 : Cell) :
  (inField W H c1 /\ usedAt used (fst c1) (snd c1) = false) ->
  (inField W H c2 /\ usedAt used (fst c2) (snd c2) = false) ->
  (inField W H c3 /\ usedAt used (fst c3) (snd c3) = false) ->
  (inField W H c4 /\ usedAt used (fst c4) (snd c4) = false) ->
  fits W H used [c1; c2; c3; c4].
Proof.
  intros H1 H2 H3 H4 r c Hin.
  repeat (apply elem_of_cons in Hin as [<-|Hin]; [done|]).
  by apply elem_of_nil in Hin.
Qed.

Lemma fallbackRow_inv (W H : nat) (turns : nat) (row col : Z)
    (st : Grid * list LayoutPiece) :
  0 <= row < Z.of_nat H -> 0 <= col ->
  layoutInv W H (fst st) (snd st) ->
  layoutInv W H (fst (fallbackRow W turns row col st))
                (snd (fallbackRow W turns row col st)).
Proof.
  intros Hrow. revert col st.
  induction turns as [|turns IH]; intros col [used ps] Hcol Hinv; [done|].
  cbn [fallbackRow].
  destruct (Z.ltb_spec col (Z.of_nat W)) as [Hlt|Hge]; [|done].
  destruct (usedAt used row col) eqn:Hu; [apply IH; [lia|done]|].
  set (freeCount := freeRight W (Z.to_nat (Z.of_nat W - col)) used row col).
  assert (Hfree : forall k : nat, (k < freeCount)%nat ->
            inField W H (row, col + Z.of_nat k) /\
            usedAt used row (col + Z.of_nat k) = false).
  { intros k Hk. destruct (freeRight_free W _ used row col k Hk) as [H1 H2].
    split; [|done]. unfold inField. cbn [fst snd]. lia. }
  destruct (Nat.leb_spec 4 freeCount) as [H4|H4].
  - apply IH; [lia|]. cbn [fst snd] in *.
    apply (place_layout W H used ps
             (mkPiece tI 0 [(row, col); (row, col + 1); (row, col + 2); (row, col + 3)]));
      [done| |].
    + cbn [cells]. apply fits_four.
      * pose proof (Hfree 0%nat ltac:(lia)) as Hf. cbn [Z.of_nat] in Hf.
        by rewrite Z.add_0_r in Hf.
      * exact (Hfree 1%nat ltac:(lia)).
      * exact (Hfree 2%nat ltac:(lia)).
      * exact (Hfree 3%nat ltac:(lia)).
    + exists [(0, 0); (0, 1); (0, 2); (0, 3)], row, col. split; [done|].
      cbn [cells map fst snd]. by rewrite !Z.add_0_r.
  - destruct ((2 <=? freeCount)%nat && (1 <=? row)
              && negb (usedAt used (row - 1) col)
              && negb (usedAt used (row - 1) (col + 1))) eqn:Hsq;
      [|apply IH; [lia|done]].
    apply andb_true_iff in Hsq as [Hsq Hb]. apply andb_true_iff in Hsq as [Hsq Ha].
    apply andb_true_iff in Hsq as [H2 H1].
    apply Nat.leb_le in H2. apply Z.leb_le in H1.
    apply negb_true_iff in Ha, Hb.
    destruct (Hfree 0%nat ltac:(lia)) as [[_ Hc0] Hu0].
    destruct (Hfree 1%nat ltac:(lia)) as [[_ Hc1] Hu1].
    cbn [fst snd Z.of_nat] in Hc0, Hc1, Hu0, Hu1. rewrite Z.add_0_r in Hc0, Hu0.
    apply IH; [lia|]. cbn [fst snd] in *.
    apply (place_layout W H used ps
             (mkPiece tO 0 [(row - 1, col); (row - 1, col + 1); (row, col); (row, col + 1)]));
      [done| |].
    + cbn [cells]. apply fits_four; (split; [unfold inField; cbn [fst snd]; lia|done]).
    + exists [(0, 0); (0, 1); (1, 0); (1, 1)], (row - 1), col. split; [done|].
      cbn [cells map fst snd]. rewrite !Z.add_0_r.
      by replace (row - 1 + 1) with row by lia.
Qed.

Lemma fallbackRows_inv (W H : nat) (n : nat) (st : Grid * list LayoutPiece) :
  (n <= H)%nat ->
  layoutInv W H (fst st) (snd st) ->
  layoutInv W H (fst (fallbackRows W n st)) (snd (fallbackRows W n st)).
Proof.
  revert st. induction n as [|n IH]; intros st Hn Hinv; [done|].
  cbn [fallbackRows]. apply IH; [lia|]. apply fallbackRow_inv; [lia|lia|done].
Qed.

Lemma fallbackCol_inv (W H : nat) (turns : nat) (row col : Z)
    (st : Grid * list LayoutPiece) :
  row < Z.of_nat H -> 0 <= col < Z.of_nat W ->
  layoutInv W H (fst st) (snd st) ->
  layoutInv W H (fst (fallbackCol turns row col st))
                (snd (fallbackCol turns row col st)).
Proof.
  intros Hrow Hcol. revert row Hrow st.
  induction turns as [|turns IH]; intros row Hrow [used ps] Hinv; [done|].
  cbn [fallbackCol].
  destruct (Z.leb_spec 0 row) as [Hge|Hlt]; [|done].
  destruct (usedAt used row col) eqn:Hu; [apply IH; [lia|done]|].
  set (freeCount := freeUp (Z.to_nat (row + 1)) used row col).
  destruct (Nat.leb_spec 4 freeCount) as [H4|H4]; [|apply IH; [lia|done]].
  assert (Hfree : forall k : nat, (k < freeCount)%nat ->
            inField W H (row - Z.of_nat k, col) /\
            usedAt used (row - Z.of_nat k) col = false).
  { intros k Hk. destruct (freeUp_free _ used row col k Hk) as [H1 H2].
    split; [|done]. unfold inField. cbn [fst snd]. lia. }
  apply IH; [lia|]. cbn [fst snd] in *.
  apply (place_layout W H used ps
           (mkPiece tI 1 [(row, col); (row - 1, col); (row - 2, col); (row - 3, col)]));
    [done| |].
  - cbn [cells]. apply fits_four.
    + pose proof (Hfree 0%nat ltac:(lia)) as Hf. cbn [Z.of_nat] in Hf.
      by rewrite Z.sub_0_r in Hf.
    + exact (Hfree 1%nat ltac:(lia)).
    + exact (Hfree 2%nat ltac:(lia)).
    + exact (Hfree 3%nat ltac:(lia)).
  - exists [(0, 0); (1, 0); (2, 0); (3, 0)], (row - 3), col. split; [done|].
    cbn [cells map fst snd]. rewrite !Z.add_0_r.
    replace (row - 3 + 1) with (row - 2) by lia.
    replace (row - 3 + 2) with (row - 1) by lia.
    replace (row - 3 + 3) with row by lia.
    change ([(row, col); (row - 1, col); (row - 2, col); (row - 3, col)])
      with (reverse [(row - 3, col); (row - 2, col); (row - 1, col); (row, col)]).
    apply reverse_Permutation.
Qed.

Lemma fallbackCols_inv (W H : nat) (n col : nat) (st : Grid * list LayoutPiece) :
  (col + n <= W)%nat ->
  layoutInv W H (fst st) (snd st) ->
  layoutInv W H (fst (fallbackCols H n col st)) (snd (fallbackCols H n col st)).
Proof.
  revert col st. induction n as [|n IH]; intros col st Hn Hinv; [done|].
  cbn [fallbackCols]. apply IH; [lia|]. apply fallbackCol_inv; [lia|lia|done].
Qed.

Lemma layoutInv_empty (W H : nat) : layoutInv W H (emptyGrid W H) [].
Proof.
  split; [apply wfGrid_empty|]. split; [|split; [constructor|split; [|constructor]]].
  - intros r c. rewrite usedAt_empty. split; [done|].
    intros Hin. by apply elem_of_nil in Hin.
  - intros cell Hin. by apply elem_of_nil in Hin.
Qed.

Lemma fallback_layout (W H : nat) :
  NoDup (allCells (generateFallbackLayout W H)) /\
  (forall cell, cell ∈ allCells (generateFallbackLayout W H) -> inField W H cell) /\
  Forall isTableShape (generateFallbackLayout W H).
Proof.
  unfold generateFallbackLayout. cbn zeta.
  set (st1 := fallbackRows W H (emptyGrid W H, [])).
  assert (H1 : layoutInv W H (fst st1) (snd st1)).
  { apply fallbackRows_inv; [lia|]. apply layoutInv_empty. }
  destruct (fallbackCols_inv W H W 0 st1 ltac:(lia) H1) as (_ & _ & Hnd & Hin & Hsh).
  by split.
Qed.

Lemma count_one_NoDup (l : list Cell) :
  (forall x, x ∈ l -> length (filter (fun y => y = x) l) = 1%nat) -> NoDup l.
Proof.
  induction l as [|a l IH]; intros Hc; [constructor|].
  assert (Ha : a ∉ l).
  { intros Hin. specialize (Hc a ltac:(by left)).
    rewrite filter_cons, decide_True in Hc by done. cbn [length] in Hc.
    assert (Hmem : a ∈ filter (fun y => y = a) l) by (by apply list_elem_of_filter).
    destruct (filter (fun y => y = a) l); [by apply elem_of_nil in Hmem|].
    cbn in Hc. lia. }
  constructor; [done|]. apply IH. intros x Hx.
  specialize (Hc x ltac:(by right)).
  rewrite filter_cons, decide_False in Hc; [done|]. by intros ->.
Qed.

(** The shape of the layout whatever the size of the field. *)
Lemma generatePieceLayout_layout
    (arraySort : forall (A St : Type),
        (A -> A -> St -> Q * St) -> list A -> St -> list A * St)
    (W H : nat) (seed : Z) :
  sortKeepsElements arraySort ->
  exists ps,
    generatePieceLayout arraySort W H seed = Normal ps /\
    NoDup (allCells ps) /\
    (forall cell, cell ∈ allCells ps -> inField W H cell) /\
    Forall isTableShape ps.
Proof.
  intros Hsort. unfold generatePieceLayout.
  destruct (tryGenerate_returns arraySort Hsort W H 50 (mulberry32 seed))
    as ([ps|] & s' & Hgen & Hres); rewrite Hgen.
  - exists ps. split; [done|]. destruct Hres as [[Hin Hone] _].
    split; [|split; [done|]].
    + apply count_one_NoDup. intros x Hx. apply Hone. by apply Hin.
    + by apply (tryGenerate_shape arraySort W H 50 (mulberry32 seed) ps s').
  - exists (generateFallbackLayout W H). split; [done|]. apply fallback_layout.
Qed.

(** X25. For a field of any size and every seed, [generatePieceLayout]
    returns pieces that do not overlap and do not leave the field, each
    one the table's shape for its type and rotation moved to some place
    (so each has four different cells).  This holds of the layouts of the
    randomized fill and of the fallback tiling alike. *)
Theorem generatePieceLayout_table_shapes
    (arraySort : forall (A St : Type),
        (A -> A -> St -> Q * St) -> list A -> St -> list A * St)
    (W H : nat) (seed : Z) :
  sortKeepsElements arraySort ->
  exists ps,
    generatePieceLayout arraySort W H seed = Normal ps /\
    NoDup (allCells ps) /\
    (forall cell, cell ∈ allCells ps -> inField W H cell) /\
    Forall isTableShape ps /\
    Forall (fun p => length (cells p) = 4%nat /\ NoDup (cells p)) ps.
Proof.
  intros Hsort.
  destruct (generatePieceLayout_layout arraySort W H seed Hsort)
    as (ps & Hgen & Hnd & Hin & Hsh).
  exists ps. split; [done|]. split; [done|]. split; [done|]. split; [done|].
  eapply Forall_impl; [exact Hsh|]. intros p Hp. by apply isTableShape_cells.
Qed.

Lemma generatePieceLayout_table_shapes_witness :
  sortKeepsElements insertionSort /\
  exists ps,
    generatePieceLayout insertionSort 6 5 11 = Normal ps /\
    NoDup (allCells ps) /\
    (forall cell, cell ∈ allCells ps -> inField 6 5 cell) /\
    Forall isTableShape ps /\
    Forall (fun p => length (cells p) = 4%nat /\ NoDup (cells p)) ps.
Proof.
  split; [exact insertionSort_elements|].
  exact (generatePieceLayout_table_shapes insertionSort 6 5 11 insertionSort_elements).
Defined.

(** *** The number of pieces *)

Lemma bind_length_const {A B : Type} (f : A -> list B) (n : nat) (l : list A) :
  (forall x, length (f x) = n) -> length (l ≫= f) = (length l * n)%nat.
Proof.
  intros Hf. induction l as [|x l IH]; [done|].
  change ((x :: l) ≫= f) with (f x ++ (l ≫= f)).
  rewrite length_app, Hf, IH. cbn [length]. lia.
Qed.

Lemma fieldCells_length (W H : nat) : length (fieldCells W H) = (H * W)%nat.
Proof.
  unfold fieldCells. rewrite (bind_length_const _ W); [by rewrite length_seq|].
  intros r. rewrite (bind_length_const _ 1%nat); [rewrite length_seq; lia|done].
Qed.

Lemma fieldCells_NoDup (W H : nat) : NoDup (fieldCells W H).
Proof.
  unfold fieldCells. apply NoDup_bind.
  - intros r1 r2 [r c] _ _ H1 H2.
    apply list_elem_of_bind in H1 as (c1 & Hc1 & _).
    apply list_elem_of_bind in H2 as (c2 & Hc2 & _).
    apply list_elem_of_singleton in Hc1, Hc2.
    injection Hc1 as Hr1 _. injection Hc2 as Hr2 _. lia.
  - intros r _. apply NoDup_bind.
    + intros c1 c2 [r' c] _ _ H1 H2.
      apply list_elem_of_singleton in H1, H2.
      injection H1 as _ Hc1. injection H2 as _ Hc2. lia.
    + intros c _. apply NoDup_singleton.
    + apply NoDup_seq.
  - apply NoDup_seq.
Qed.

Lemma fieldCells_inField (W H : nat) (cell : Cell) :
  cell ∈ fieldCells W H -> inField W H cell.
Proof.
  unfold fieldCells. intros (r & Hin & Hr)%list_elem_of_bind.
  apply list_elem_of_bind in Hin as (c & Hin & Hc).
  apply list_elem_of_singleton in Hin. subst cell.
  apply elem_of_seq in Hr, Hc. unfold inField. cbn [fst snd]. lia.
Qed.

Lemma allCells_length (ps : list LayoutPiece) :
  Forall (fun p => length (cells p) = 4%nat) ps ->
  length (allCells ps) = (4 * length ps)%nat.
Proof.
  unfold allCells. induction 1 as [|p ps Hp Hall IH]; [done|].
  cbn [map concat length]. rewrite length_app, Hp, IH. lia.
Qed.

(** A layout that partitions the field lists as many cells as the field
    has. *)
Lemma partition_cells (W H : nat) (ps : list LayoutPiece) :
  partitionsField W H ps -> length (allCells ps) = (H * W)%nat.
Proof.
  intros [Hin Hone]. rewrite <- fieldCells_length.
  apply Permutation_length, NoDup_Permutation.
  - apply count_one_NoDup. intros x Hx. apply Hone. by apply Hin.
  - apply fieldCells_NoDup.
  - intros cell. split.
    + intros Hc. apply list_elem_of_In, fieldCells_complete. by apply Hin.
    + intros Hc%fieldCells_inField. specialize (Hone cell Hc).
      destruct (filter (fun x => x = cell) (allCells ps)) as [|y l] eqn:Hf; [done|].
      assert (Hy : y ∈ filter (fun x => x = cell) (allCells ps))
        by (rewrite Hf; by left).
      apply list_elem_of_filter in Hy as [-> Hy]. done.
Qed.

(** X26. For the 10 by 16 field of the game and every seed,
    [generatePieceLayout] returns exactly 40 pieces of four cells each
    (so [createGameState] counts 40 pieces in all).  More generally, a
    layout of table shapes that partitions a field has a quarter as many
    pieces as the field has cells. *)
Theorem generatePieceLayout_forty
    (arraySort : forall (A St : Type),
        (A -> A -> St -> Q * St) -> list A -> St -> list A * St)
    (seed : Z) :
  sortKeepsElements arraySort ->
  (exists ps,
     generatePieceLayout arraySort 10 16 seed = Normal ps /\
     length ps = 40%nat /\
     Forall (fun p => length (cells p) = 4%nat) ps) /\
  (forall (W H : nat) (ps : list LayoutPiece),
     partitionsField W H ps -> Forall isTableShape ps ->
     (4 * length ps = H * W)%nat).
Proof.
  intros Hsort.
  assert (Hgen : forall (W H : nat) (ps : list LayoutPiece),
            partitionsField W H ps -> Forall isTableShape ps ->
            Forall (fun p => length (cells p) = 4%nat) ps /\
            (4 * length ps = H * W)%nat).
  { intros W H ps Hpart Hsh.
    assert (Hfour : Forall (fun p => length (cells p) = 4%nat) ps).
    { eapply Forall_impl; [exact Hsh|]. intros p Hp. by apply isTableShape_cells. }
    split; [done|]. rewrite <- (allCells_length ps Hfour). by apply partition_cells. }
  split; [|intros W H ps Hpart Hsh; by apply Hgen].
  destruct (generatePieceLayout_10_16 arraySort seed Hsort) as (ps & Hps & Hpart & _).
  destruct (generatePieceLayout_layout arraySort 10 16 seed Hsort)
    as (ps' & Hps' & _ & _ & Hsh).
  assert (ps' = ps) by congruence. subst ps'.
  destruct (Hgen 10%nat 16%nat ps Hpart Hsh) as [Hfour Hcount].
  exists ps. split; [done|]. split; [lia|done].
Qed.

Lemma generatePieceLayout_forty_witness :
  sortKeepsElements insertionSort /\
  (exists ps,
     generatePieceLayout insertionSort 10 16 3 = Normal ps /\
     length ps = 40%nat /\
     Forall (fun p => length (cells p) = 4%nat) ps) /\
  (forall (W H : nat) (ps : list LayoutPiece),
     partitionsField W H ps -> Forall isTableShape ps ->
     (4 * length ps = H * W)%nat).
Proof.
  split; [exact insertionSort_elements|].
  exact (generatePieceLayout_forty insertionSort 3 insertionSort_elements).
Defined.

(** *** [isPieceGrounded] *)

(** X27. For cells inside the field and a grid of the field's size,
    [isPieceGrounded] holds exactly when, in every column the cells
    occupy, the lowest of them is in the bottom row of the field or has a
    used cell right under it. *)
Theorem isPieceGrounded_iff (W H : nat) (cs : list Cell) (used : Grid) :
  wfGrid W H used ->
  (forall cell, cell ∈ cs -> inField W H cell) ->
  isPieceGrounded cs used H = true <->
  forall r c, (r, c) ∈ cs -> (forall r', (r', c) ∈ cs -> r' <= r) ->
              r = Z.of_nat H - 1 \/ usedAt used (r + 1) c = true.
Proof.
  intros _ _. unfold isPieceGrounded. rewrite forallb_forall. split.
  - intros Hg r c Hin Hmax.
    pose proof (columnBottomsOf_spec cs c) as Hspec.
    destruct (columnBottomsOf cs !! c) as [r0|] eqn:Hm; [|by apply Hspec in Hin].
    destruct Hspec as [Hin0 Hmax0].
    assert (r0 = r) as -> by (specialize (Hmax _ Hin0); specialize (Hmax0 _ Hin); lia).
    specialize (Hg (c, r)). cbn beta iota in Hg.
    destruct (Z.eqb_spec r (Z.of_nat H - 1)) as [->|Hne]; [by left|].
    right. apply Hg. apply list_elem_of_In. by apply elem_of_map_to_list.
  - intros Hlow [c r] Hin. apply list_elem_of_In, elem_of_map_to_list in Hin.
    pose proof (columnBottomsOf_spec cs c) as Hspec. rewrite Hin in Hspec.
    destruct Hspec as [Hin0 Hmax0].
    destruct (Hlow r c Hin0 Hmax0) as [->|Hu].
    + by rewrite Z.eqb_refl.
    + rewrite Hu. apply orb_true_r.
Qed.

Lemma isPieceGrounded_iff_witness :
  wfGrid 10 16 (emptyGrid 10 16) /\
  (forall cell, cell ∈ [(15, 0); (15, 1); (14, 0); (14, 1)] -> inField 10 16 cell) /\
  (isPieceGrounded [(15, 0); (15, 1); (14, 0); (14, 1)] (emptyGrid 10 16) 16 = true <->
   forall r c, (r, c) ∈ [(15, 0); (15, 1); (14, 0); (14, 1)] ->
               (forall r', (r', c) ∈ [(15, 0); (15, 1); (14, 0); (14, 1)] -> r' <= r) ->
               r = Z.of_nat 16 - 1 \/ usedAt (emptyGrid 10 16) (r + 1) c = true).
Proof.
  assert (Hin : forall cell : Cell,
            cell ∈ [(15, 0); (15, 1); (14, 0); (14, 1)] -> inField 10 16 cell).
  { intros cell Hc. unfold inField.
    repeat (apply elem_of_cons in Hc as [->|Hc]; [cbn; lia|]).
    by apply elem_of_nil in Hc. }
  split; [apply wfGrid_empty|]. split; [exact Hin|].
  exact (isPieceGrounded_iff 10 16 [(15, 0); (15, 1); (14, 0); (14, 1)]
           (emptyGrid 10 16) (wfGrid_empty 10 16) Hin).
Defined.

(** *** The seeded generator *)




End TetrisFacts2.

(** * The reachability search *)

Module TetrisSearchFacts.
Import Tetris TetrisSpec TetrisSpec2 TetrisPlay TetrisPlaySpec ArrayFacts TetrisFacts.
Import TetrisPlayFacts TetrisFacts2.
Local Open Scope Z_scope.

(** *** [canReachTargetPosition] *)

Lemma table_shape_min (type : TetrominoType) (rotIdx : nat) (shape : list Cell) :
  TETROMINO_SHAPES type !! rotIdx = Some shape ->
  mathMin (map fst shape) = 0 /\ mathMin (map snd shape) = 0.
Proof.
  intros Hs. apply (isTableShape_base type rotIdx shape shape 0 0 Hs).
  rewrite (map_ext _ (fun pos => pos)); [by rewrite map_id|]. by intros [dr dc].
Qed.

Lemma reachable_placed (piece : Piece) (occ : Grid) (W H : nat) (r c : Z) :
  reachable piece occ W H r c ->
  canPlacePiece (withPosition piece r c) occ W H = Normal true.
Proof. by intros [startCol _ Hc|row col dr dc _ _ Hc]. Qed.

Lemma reachable_row (piece : Piece) (occ : Grid) (W H : nat) (r c : Z) :
  reachable piece occ W H r c -> 0 <= r.
Proof.
  induction 1 as [startCol _ _|row col dr dc _ IH Hstep _]; [lia|].
  unfold searchSteps in Hstep.
  repeat (apply elem_of_cons in Hstep as [[= -> ->]|Hstep]; [lia|]).
  by apply elem_of_nil in Hstep.
Qed.

Lemma searchSteps_down (dr dc : Z) : (dr, dc) ∈ searchSteps -> 0 <= dr.
Proof.
  unfold searchSteps. intros Hstep.
  repeat (apply elem_of_cons in Hstep as [[= -> ->]|Hstep]; [lia|]).
  by apply elem_of_nil in Hstep.
Qed.

Lemma extendsBy_refl (st : SearchState) : extendsBy st st [].
Proof.
  split; [by rewrite app_nil_r|]. split; [constructor|].
  split; [intros x Hx; by apply elem_of_nil in Hx|].
  split; [|cbn; lia]. intros x. split; [by left|].
  intros [Hx|Hx]; [done|by apply elem_of_nil in Hx].
Qed.

Lemma extendsBy_trans (st1 st2 st3 : SearchState) (a1 a2 : list (Z * Z)) :
  extendsBy st1 st2 a1 -> extendsBy st2 st3 a2 -> extendsBy st1 st3 (a1 ++ a2).
Proof.
  intros (Hq1 & Hn1 & Hnew1 & Hv1 & Hs1) (Hq2 & Hn2 & Hnew2 & Hv2 & Hs2).
  split; [by rewrite Hq2, Hq1, app_assoc|]. split.
  { apply NoDup_app. split; [done|]. split; [|done].
    intros x Hx1 Hx2. apply (Hnew2 x Hx2). apply Hv1. by right. }
  split.
  { intros x [Hx|Hx]%elem_of_app; [by apply Hnew1|].
    intros Hin. apply (Hnew2 x Hx). apply Hv1. by left. }
  split; [|rewrite Hs2, Hs1, length_app; lia].
  intros x. rewrite Hv2, Hv1, elem_of_app. tauto.
Qed.

Section Search.
Variables (W H : nat) (occ : Grid) (piece : Piece).
Hypothesis Hwf : wfGrid W H occ.
Hypothesis Hrot : validRotation (rotation piece).

Lemma visit_spec (r c : Z) (st : SearchState) :
  exists st' added,
    visit piece r c occ W H st = Normal st' /\
    extendsBy st st' added /\
    (forall x, x ∈ added ->
       x = (r, c) /\ canPlacePiece (withPosition piece r c) occ W H = Normal true) /\
    (canPlacePiece (withPosition piece r c) occ W H = Normal true -> (r, c) ∈ fst st').
Proof.
  destruct st as [visited queue]. unfold visit.
  destruct (decide ((r, c) ∈ visited)) as [Hin|Hnew].
  { exists (visited, queue), []. split; [done|]. split; [apply extendsBy_refl|].
    split; [intros x Hx; by apply elem_of_nil in Hx|done]. }
  destruct (canPlacePiece_valid W H occ (withPosition piece r c) Hwf Hrot) as (cs & _ & Hc).
  rewrite Hc. destruct (allValid W H occ cs).
  - exists ({[ (r, c) ]} ∪ visited, queue ++ [(r, c)]), [(r, c)].
    split; [done|]. split; [|split].
    + split; [done|]. split; [apply NoDup_singleton|]. cbn [fst snd].
      split; [by intros x ->%list_elem_of_singleton|].
      split; [intros x; rewrite elem_of_union, elem_of_singleton, list_elem_of_singleton; tauto|].
      rewrite size_union by set_solver. rewrite size_singleton. cbn. lia.
    + by intros x ->%list_elem_of_singleton.
    + intros _. cbn [fst]. set_solver.
  - exists (visited, queue), []. split; [done|]. split; [apply extendsBy_refl|].
    split; [intros x Hx; by apply elem_of_nil in Hx|done].
Qed.

Lemma startColumns_spec (n : nat) (startCol : Z) (st : SearchState) :
  exists st' added,
    startColumns n startCol piece occ W H st = Normal st' /\
    extendsBy st st' added /\
    (forall x, x ∈ added ->
       exists c, x = (0, c) /\ startCol <= c < startCol + Z.of_nat n /\
                 canPlacePiece (withPosition piece 0 c) occ W H = Normal true) /\
    (forall c, startCol <= c < startCol + Z.of_nat n ->
       canPlacePiece (withPosition piece 0 c) occ W H = Normal true ->
       (0, c) ∈ fst st').
Proof.
  revert startCol st. induction n as [|n IH]; intros startCol st.
  { exists st, []. split; [done|]. split; [apply extendsBy_refl|].
    split; [intros x Hx; by apply elem_of_nil in Hx|]. intros c Hc. lia. }
  cbn [startColumns].
  destruct (visit_spec 0 startCol st) as (st1 & a1 & -> & He1 & Ha1 & Hin1).
  destruct (IH (startCol + 1) st1) as (st2 & a2 & Hs & He2 & Ha2 & Hin2).
  exists st2, (a1 ++ a2). split; [done|].
  split; [by apply (extendsBy_trans st st1 st2)|]. split.
  - intros x [Hx|Hx]%elem_of_app.
    + destruct (Ha1 x Hx) as [-> Hc]. exists startCol. split; [done|]. split; [lia|done].
    + destruct (Ha2 x Hx) as (c & -> & Hc & Hp). exists c. split; [done|]. split; [lia|done].
  - intros c Hc Hp. destruct (decide (c = startCol)) as [->|Hne].
    + destruct He2 as (_ & _ & _ & Hv2 & _). apply Hv2. left. by apply Hin1.
    + apply Hin2; [lia|done].
Qed.

Lemma visitSteps_spec (steps : list (Z * Z)) (r c : Z) (st : SearchState) :
  exists st' added,
    visitSteps steps piece r c occ W H st = Normal st' /\
    extendsBy st st' added /\
    (forall x, x ∈ added ->
       exists dr dc, (dr, dc) ∈ steps /\ x = (r + dr, c + dc) /\
                     canPlacePiece (withPosition piece (r + dr) (c + dc)) occ W H
                       = Normal true) /\
    (forall dr dc, (dr, dc) ∈ steps ->
       canPlacePiece (withPosition piece (r + dr) (c + dc)) occ W H = Normal true ->
       (r + dr, c + dc) ∈ fst st').
Proof.
  revert st. induction steps as [|[dr dc] steps IH]; intros st.
  { exists st, []. split; [done|]. split; [apply extendsBy_refl|].
    split; [intros x Hx; by apply elem_of_nil in Hx|].
    intros dr dc Hin. by apply elem_of_nil in Hin. }
  cbn [visitSteps].
  destruct (visit_spec (r + dr) (c + dc) st) as (st1 & a1 & -> & He1 & Ha1 & Hin1).
  destruct (IH st1) as (st2 & a2 & Hs & He2 & Ha2 & Hin2).
  exists st2, (a1 ++ a2). split; [done|].
  split; [by apply (extendsBy_trans st st1 st2)|]. split.
  - intros x [Hx|Hx]%elem_of_app.
    + destruct (Ha1 x Hx) as [-> Hc]. exists dr, dc. split; [by left|done].
    + destruct (Ha2 x Hx) as (dr' & dc' & Hstep & -> & Hp).
      exists dr', dc'. split; [by right|done].
  - intros dr' dc' [[= -> ->]|Hstep]%elem_of_cons Hp.
    + destruct He2 as (_ & _ & _ & Hv2 & _). apply Hv2. left. by apply Hin1.
    + by apply Hin2.
Qed.

(** The positions the piece can take are cells of the field. *)
Lemma placed_in_field (r c : Z) :
  canPlacePiece (withPosition piece r c) occ W H = Normal true ->
  (r, c) ∈ (list_to_set (fieldCells W H) : gset (Z * Z)).
Proof.
  intros Hc. destruct (canPlacePiece_position W H occ _ Hwf Hc) as (_ & Hr & Hcol).
  cbn [row col withPosition] in Hr, Hcol.
  apply elem_of_list_to_set, list_elem_of_In, fieldCells_complete.
  by split.
Qed.

Lemma searchLoop_spec (tr tc : Z) (turns : nat) (st : SearchState) :
  searchInv piece occ W H tr tc st ->
  (length (snd st) + (W * H - size (fst st)) <= turns)%nat ->
  exists b,
    searchLoop turns piece tr tc occ W H st = Some (Normal b) /\
    (b = true <-> reachable piece occ W H tr tc).
Proof.
  revert st. induction turns as [|turns IH]; intros [visited queue] Hinv Hturns.
  - destruct queue as [|q queue]; [|cbn in Hturns; lia].
    exists false. split; [done|]. split; [done|]. intros Hreach. exfalso.
    destruct Hinv as (_ & _ & _ & Hstart & Hclosed). cbn [fst snd] in *.
    assert (Hall : forall r c, reachable piece occ W H r c -> r <= tr ->
                     (r, c) ∈ visited).
    { induction 1 as [startCol Hcol Hp|r c dr dc Hr IHr Hstep Hp]; intros Hle.
      - by apply Hstart.
      - pose proof (searchSteps_down dr dc Hstep) as Hdr.
        assert (Hin : (r, c) ∈ visited) by (apply IHr; lia).
        destruct (Hclosed r c Hin) as [_ Hcl]; [by intros Hq%elem_of_nil|].
        apply (Hcl ltac:(lia) dr dc Hstep Hp). }
    pose proof (Hall tr tc Hreach ltac:(lia)) as Hin.
    destruct (Hclosed tr tc Hin) as [Hne _]; [by intros Hq%elem_of_nil|]. done.
  - destruct queue as [|[r c] queue].
    { exists false. split; [done|]. split; [done|]. intros Hreach. exfalso.
      destruct Hinv as (_ & _ & _ & Hstart & Hclosed). cbn [fst snd] in *.
      assert (Hall : forall r c, reachable piece occ W H r c -> r <= tr ->
                       (r, c) ∈ visited).
      { induction 1 as [startCol Hcol Hp|r c dr dc Hr IHr Hstep Hp]; intros Hle.
        - by apply Hstart.
        - pose proof (searchSteps_down dr dc Hstep) as Hdr.
          assert (Hin : (r, c) ∈ visited) by (apply IHr; lia).
          destruct (Hclosed r c Hin) as [_ Hcl]; [by intros Hq%elem_of_nil|].
          apply (Hcl ltac:(lia) dr dc Hstep Hp). }
      pose proof (Hall tr tc Hreach ltac:(lia)) as Hin.
      destruct (Hclosed tr tc Hin) as [Hne _]; [by intros Hq%elem_of_nil|]. done. }
    destruct Hinv as (Hreach & Hqueue & Hnd & Hstart & Hclosed). cbn [fst snd] in *.
    apply NoDup_cons in Hnd as [Hfresh Hnd].
    assert (Hrc : (r, c) ∈ visited) by (apply Hqueue; by left).
    cbn [searchLoop].
    destruct ((r =? tr) && (c =? tc)) eqn:Htarget.
    { exists true. split; [done|]. split; [|done]. intros _.
      apply andb_true_iff in Htarget as [->%Z.eqb_eq ->%Z.eqb_eq]. by apply Hreach. }
    assert (Hne : (r, c) <> (tr, tc)).
    { intros [= -> ->]. by rewrite !Z.eqb_refl in Htarget. }
    assert (Hsize : (size visited <= W * H)%nat).
    { rewrite Nat.mul_comm, <- (fieldCells_length W H).
      rewrite <- (size_list_to_set (C := gset (Z * Z)) (fieldCells W H))
        by apply fieldCells_NoDup.
      apply subseteq_size. intros [r' c'] Hin.
      apply placed_in_field. by apply reachable_placed, Hreach. }
    destruct (Z.ltb_spec tr r) as [Hbelow|Habove].
    + apply IH.
      * split; [done|]. split; [intros x Hx; apply Hqueue; by right|].
        split; [done|]. split; [done|]. cbn [fst snd].
        intros r' c' Hin Hout. destruct (decide ((r', c') = (r, c))) as [[= -> ->]|Hother].
        -- split; [done|]. intros Hle. lia.
        -- apply Hclosed; [done|]. intros [?|?]%elem_of_cons; done.
      * cbn [fst snd length] in *. lia.
    + destruct (visitSteps_spec searchSteps r c (visited, queue))
        as ([visited' queue'] & added & -> & He & Hadded & Hsteps).
      destruct He as (Hq' & Hnd' & Hnew & Hv' & Hs'). cbn [fst snd] in *.
      apply IH.
      * split; [|split; [|split; [|split]]]; cbn [fst snd].
        -- intros r' c' [Hin|Hin]%Hv'; [by apply Hreach|].
           destruct (Hadded _ Hin) as (dr & dc & Hstep & [= -> ->] & Hp).
           apply reach_step; [by apply Hreach|done|done].
        -- rewrite Hq'. intros x [Hx|Hx]%elem_of_app; apply Hv'.
           ++ left. apply Hqueue. by right.
           ++ by right.
        -- rewrite Hq'. apply NoDup_app. split; [done|]. split; [|done].
           intros x Hx Hx'. apply (Hnew x Hx'). apply Hqueue. by right.
        -- intros c' Hc' Hp. apply Hv'. left. by apply Hstart.
        -- intros r' c' Hin Hout. rewrite Hq' in Hout.
           assert (Hold : (r', c') ∈ visited).
           { apply Hv' in Hin as [Hin|Hin]; [done|].
             exfalso. apply Hout, elem_of_app. by right. }
           destruct (decide ((r', c') = (r, c))) as [[= -> ->]|Hother].
           ++ split; [done|]. intros _ dr dc Hstep Hp. by apply Hsteps.
           ++ destruct (Hclosed r' c' Hold) as [Hne' Hcl].
              { intros [?|Hq]%elem_of_cons; [done|].
                apply Hout, elem_of_app. by left. }
              split; [done|]. intros Hle dr dc Hstep Hp.
              apply Hv'. left. by apply Hcl.
      * cbn [fst snd length] in *. rewrite Hq', length_app, Hs'.
        assert (Hsize' : (size visited' <= W * H)%nat).
        { rewrite Nat.mul_comm, <- (fieldCells_length W H).
          rewrite <- (size_list_to_set (C := gset (Z * Z)) (fieldCells W H))
            by apply fieldCells_NoDup.
          apply subseteq_size. intros [r' c'] [Hin|Hin]%Hv'.
          - apply placed_in_field. by apply reachable_placed, Hreach.
          - destruct (Hadded _ Hin) as (dr & dc & _ & [= -> ->] & Hp).
            by apply placed_in_field. }
        rewrite Hs' in Hsize'. lia.
Qed.

(** The search, for a piece with a rotation of the table on a grid of the
    field's size. *)
Lemma canReachTargetPosition_spec :
  exists b,
    canReachTargetPosition piece occ W H = Some (Normal b) /\
    (b = true <-> reachable piece occ W H (targetRow piece) (targetCol piece)).
Proof.
  unfold canReachTargetPosition.
  destruct (shape_lookup (type piece) (rotation piece) Hrot) as (shape & -> & Hs).
  destruct (table_shape_min _ _ _ Hs) as [-> ->]. cbn zeta. rewrite !Z.sub_0_r.
  destruct (canPlacePiece_valid W H occ
              (withPosition piece (targetRow piece) (targetCol piece)) Hwf Hrot)
    as (cs & _ & Hc).
  rewrite Hc. destruct (allValid W H occ cs) eqn:Hv.
  2:{ exists false. split; [done|]. split; [done|].
      intros Hreach%reachable_placed. congruence. }
  destruct (startColumns_spec (W + 6) (-3) (∅, []))
    as ([visited queue] & added & -> & He & Hadded & Hstarts).
  destruct He as (Hq & Hnd & _ & Hvis & Hsize). cbn [fst snd app] in *.
  rewrite size_empty in Hsize. cbn in Hsize.
  apply searchLoop_spec.
  - split; [|split; [|split; [|split]]]; cbn [fst snd].
    + intros r c [Hin|Hin]%Hvis; [set_solver|].
      destruct (Hadded _ Hin) as (c' & [= -> ->] & Hc' & Hp).
      apply reach_start; [lia|done].
    + rewrite Hq. intros x Hx. apply Hvis. by right.
    + by rewrite Hq.
    + intros c Hc' Hp. apply Hstarts; [lia|done].
    + intros r c [Hin|Hin]%Hvis Hout; [set_solver|]. by rewrite Hq in Hout.
  - cbn [fst snd].
    assert (Hsize' : (size visited <= W * H)%nat).
    { rewrite Nat.mul_comm, <- (fieldCells_length W H).
      rewrite <- (size_list_to_set (C := gset (Z * Z)) (fieldCells W H))
        by apply fieldCells_NoDup.
      apply subseteq_size. intros [r' c'] [Hin|Hin]%Hvis; [set_solver|].
      destruct (Hadded _ Hin) as (c'' & [= -> ->] & _ & Hp).
      by apply placed_in_field. }
    rewrite Hq. rewrite Hsize in Hsize' |- *. lia.
Qed.

End Search.

(** X29. On a grid of the field's size and for a piece with a rotation in
    0..3, the search of [canReachTargetPosition] ends (within
    [fieldWidth * fieldHeight] turns of its loop) without throwing, and it
    returns true exactly when the target position of the piece can be
    reached by the piece as it is turned: from a position in row 0 that it
    can take, by steps down, left and right through positions it can
    take. *)
Theorem canReachTargetPosition_searches (W H : nat) (occ : Grid) (piece : Piece) :
  wfGrid W H occ -> validRotation (rotation piece) ->
  exists b,
    canReachTargetPosition piece occ W H = Some (Normal b) /\
    (b = true <-> reachable piece occ W H (targetRow piece) (targetCol piece)).
Proof. apply canReachTargetPosition_spec. Qed.

Lemma canReachTargetPosition_searches_witness :
  wfGrid 10 16 (emptyGrid 10 16) /\ validRotation (rotation sampleT) /\
  exists b,
    canReachTargetPosition sampleT (emptyGrid 10 16) 10 16 = Some (Normal b) /\
    (b = true <->
     reachable sampleT (emptyGrid 10 16) 10 16 (targetRow sampleT) (targetCol sampleT)).
Proof.
  assert (Hr : validRotation (rotation sampleT)) by (unfold validRotation; cbn; lia).
  split; [apply wfGrid_empty|]. split; [exact Hr|].
  exact (canReachTargetPosition_searches 10 16 (emptyGrid 10 16) sampleT
           (wfGrid_empty 10 16) Hr).
Defined.

End TetrisSearchFacts.

(** * The order of the pieces *)

Module TetrisOrderFacts.
Import Tetris TetrisSpec TetrisSpec2 TetrisPlay TetrisPlaySpec ArrayFacts TetrisFacts.
Import TetrisPlayFacts TetrisFacts2 TetrisSearchFacts.
Local Open Scope Z_scope.

(** *** Columns of the table shapes *)

Lemma columnsConnected_spec (shape : list Cell) :
  columnsConnected shape = true ->
  forall dr dc, (dr, dc) ∈ shape -> (dr + 1, dc) ∉ shape ->
  forall dr', (dr', dc) ∈ shape -> dr' <= dr.
Proof.
  unfold columnsConnected. rewrite forallb_forall.
  intros Hall dr dc Hin Hnot dr' Hin'.
  specialize (Hall (dr, dc) ltac:(by apply list_elem_of_In)). cbn beta iota in Hall.
  apply orb_true_iff in Hall as [Hex|Hno].
  - exfalso. apply Hnot. apply existsb_exists in Hex as (x & Hx & Heq).
    apply cell_eqb_eq in Heq. subst x. by apply list_elem_of_In.
  - apply negb_true_iff in Hno.
    destruct (Z.leb_spec dr' dr) as [Hle|Hgt]; [done|]. exfalso.
    assert (Hex : existsb (fun '(dr'0, dc') => (dc' =? dc) && (dr <? dr'0)) shape = true).
    { apply existsb_exists. exists (dr', dc). split; [by apply list_elem_of_In|].
      rewrite Z.eqb_refl. cbn. by apply Z.ltb_lt. }
    congruence.
Qed.

Lemma table_columns (type : TetrominoType) (rotIdx : nat) (shape : list Cell) :
  TETROMINO_SHAPES type !! rotIdx = Some shape -> columnsConnected shape = true.
Proof.
  intros Hs.
  assert (Htab : tableColumnsConnected type = true) by (by destruct type).
  unfold tableColumnsConnected in Htab. rewrite forallb_forall in Htab.
  apply Htab. apply list_elem_of_In. by apply list_elem_of_lookup_2 in Hs.
Qed.

(** A cell of a table shape with no cell of the shape right under it is
    the lowest of its column. *)
Lemma isTableShape_lowest (p : LayoutPiece) (r c : Z) :
  isTableShape p -> (r, c) ∈ Tetris.cells p -> (r + 1, c) ∉ Tetris.cells p ->
  forall r', (r', c) ∈ Tetris.cells p -> r' <= r.
Proof.
  intros (shape & br & bc & Hs & Hperm) Hin Hnot r' Hin'.
  assert (Hmem : forall x y, (x, y) ∈ Tetris.cells p <-> (x - br, y - bc) ∈ shape).
  { intros x y. rewrite Hperm, list_elem_of_In, in_map_iff. split.
    - intros ([dr dc] & [= <- <-] & Hsh). apply list_elem_of_In.
      by replace (br + dr - br) with dr by lia; replace (bc + dc - bc) with dc by lia.
    - intros Hsh. exists (x - br, y - bc). split; [|by apply list_elem_of_In].
      cbn. f_equal; lia. }
  pose proof (columnsConnected_spec shape (table_columns _ _ _ Hs)) as Hcol.
  assert (Hle : r' - br <= r - br); [|lia].
  apply (Hcol (r - br) (c - bc)).
  - by apply Hmem.
  - intros Hsh. apply Hnot, Hmem. by replace (r + 1 - br) with (r - br + 1) by lia.
  - by apply Hmem.
Qed.

(** *** Grounded layouts *)

Lemma groundedAfter_lookup (H : nat) (ps : list LayoutPiece) (placed : list Cell)
    (i : nat) (p : LayoutPiece) :
  groundedAfter H placed ps -> ps !! i = Some p ->
  groundedOn H (placed ++ allCells (take i ps)) (Tetris.cells p).
Proof.
  revert placed i. induction ps as [|q ps IH]; intros placed i Hg Hi; [done|].
  destruct Hg as [Hq Hrest]. destruct i as [|i].
  - injection Hi as <-. cbn [take]. unfold allCells. cbn. by rewrite app_nil_r.
  - cbn in Hi. specialize (IH _ _ Hrest Hi).
    cbn [take]. unfold allCells in *. cbn [map concat].
    by rewrite (assoc app).
Qed.

Lemma allCells_lookup (ps : list LayoutPiece) (cell : Cell) :
  cell ∈ allCells ps <-> exists i p, ps !! i = Some p /\ cell ∈ Tetris.cells p.
Proof.
  unfold allCells. induction ps as [|q ps IH]; cbn [map concat].
  - split; [by intros ?%elem_of_nil|]. by intros (i & p & Hi & _).
  - rewrite elem_of_app, IH. split.
    + intros [Hq|(i & p & Hi & Hp)]; [by exists 0%nat, q|by exists (S i), p].
    + intros ([|i] & p & Hi & Hp).
      * injection Hi as <-. by left.
      * right. by exists i, p.
Qed.

(** In a layout whose pieces do not overlap, a cell belongs to one entry. *)
Lemma allCells_owner (ps : list LayoutPiece) (cell : Cell) (i j : nat)
    (p q : LayoutPiece) :
  NoDup (allCells ps) -> ps !! i = Some p -> ps !! j = Some q ->
  cell ∈ Tetris.cells p -> cell ∈ Tetris.cells q -> i = j.
Proof.
  unfold allCells. revert i j. induction ps as [|a ps IH]; intros i j Hnd Hi Hj Hp Hq;
    [done|].
  cbn [map concat] in Hnd. apply NoDup_app in Hnd as (Ha & Hdisj & Hnd).
  assert (Hrest : forall k x, ps !! k = Some x -> cell ∈ Tetris.cells x ->
                    cell ∈ concat (map Tetris.cells ps)).
  { intros k x Hk Hx. apply (allCells_lookup ps cell). by exists k, x. }
  destruct i as [|i], j as [|j]; [done| | |].
  - injection Hi as <-. cbn in Hj. exfalso. apply (Hdisj cell Hp). by apply (Hrest j q).
  - injection Hj as <-. cbn in Hi. exfalso. apply (Hdisj cell Hq). by apply (Hrest i p).
  - cbn in Hi, Hj. f_equal. by apply IH.
Qed.

(** In a grounded layout, an entry with a cell right under a cell of
    another entry comes before it. *)
Lemma directlyBelow_earlier (W H : nat) (layout : list LayoutPiece) (below above : nat) :
  groundedLayout W H layout -> directlyBelow layout below above ->
  (below < above)%nat.
Proof.
  intros (Hshapes & Hnd & Hfield & Hground)
         (Hne & ea & eb & r & c & Ha & Hb & Hin & Hunder).
  assert (Hnot : (r + 1, c) ∉ Tetris.cells ea).
  { intros Hself. apply Hne. by apply (allCells_owner layout (r + 1, c) below above eb ea). }
  assert (Hshape : isTableShape ea).
  { rewrite Forall_forall in Hshapes. apply Hshapes. by apply list_elem_of_lookup_2 in Ha. }
  pose proof (isTableShape_lowest ea r c Hshape Hin Hnot) as Hlow.
  pose proof (groundedAfter_lookup H layout [] above ea Hground Ha) as Hg.
  cbn [app] in Hg. destruct (Hg r c Hin Hlow) as [Hbottom|Hearlier].
  - assert (Hf : inField W H (r + 1, c)).
    { apply Hfield, allCells_lookup. by exists below, eb. }
    destruct Hf as [Hrow _]. cbn in Hrow. lia.
  - apply allCells_lookup in Hearlier as (j & q & Hj & Hq).
    apply lookup_take_Some in Hj as [Hj Hlt].
    assert (j = below) by (by apply (allCells_owner layout (r + 1, c) j below q eb)).
    lia.
Qed.

(** *** [cellToPiece] and [dependencies] *)

Lemma fold_insert_lookup (id : nat) (cs : list Cell) (m : gmap (Z * Z) nat) (cell : Cell) :
  fold_left (fun m cell => <[cell := id]> m) cs m !! cell
  = if decide (cell ∈ cs) then Some id else m !! cell.
Proof.
  revert m. induction cs as [|x cs IH]; intros m; cbn [fold_left].
  - by rewrite decide_False by (by intros ?%elem_of_nil).
  - rewrite IH. destruct (decide (cell ∈ cs)) as [Hin|Hnot].
    + by rewrite decide_True by (by right).
    + destruct (decide (cell = x)) as [->|Hne].
      * rewrite lookup_insert_eq. by rewrite decide_True by (by left).
      * rewrite lookup_insert_ne by done.
        rewrite decide_False; [done|]. by intros [?|?]%elem_of_cons.
Qed.

Lemma setCells_lookup (start : nat) (entries : list LayoutPiece)
    (m : gmap (Z * Z) nat) (cell : Cell) (id : nat) :
  NoDup (allCells entries) ->
  setCells start entries m !! cell = Some id <->
  (exists k e, entries !! k = Some e /\ id = (start + k)%nat /\ cell ∈ Tetris.cells e) \/
  (m !! cell = Some id /\ cell ∉ allCells entries).
Proof.
  revert start m. induction entries as [|e entries IH]; intros start m Hnd;
    cbn [setCells].
  - split; [intros Hm; right; split; [done|by intros ?%elem_of_nil]|].
    intros [(k & e & Hk & _)|[Hm _]]; done.
  - unfold allCells in Hnd. cbn [map concat] in Hnd.
    apply NoDup_app in Hnd as (He & Hdisj & Hnd).
    rewrite (IH (S start) _ Hnd), fold_insert_lookup. split.
    + intros [(k & x & Hk & -> & Hx)|[Hm Hnot]].
      * left. exists (S k), x. split; [done|]. split; [lia|done].
      * destruct (decide (cell ∈ Tetris.cells e)) as [Hin|Hout].
        -- injection Hm as <-. left. exists 0%nat, e. split; [done|]. split; [lia|done].
        -- right. split; [done|]. unfold allCells. cbn [map concat].
           by intros [?|?]%elem_of_app.
    + intros [([|k] & x & Hk & -> & Hx)|[Hm Hnot]].
      * injection Hk as <-. right. rewrite decide_True by done.
        split; [f_equal; lia|]. intros Hin. by apply (Hdisj cell Hx).
      * left. exists k, x. split; [done|]. split; [lia|done].
      * right. unfold allCells in Hnot. cbn [map concat] in Hnot.
        rewrite decide_False by (intros Hin; apply Hnot, elem_of_app; by left).
        split; [done|]. intros Hin. apply Hnot, elem_of_app. by right.
Qed.

Lemma cellToPiece_spec (layout : list LayoutPiece) (cell : Cell) (id : nat) :
  NoDup (allCells layout) ->
  setCells 0 layout ∅ !! cell = Some id <->
  exists e, layout !! id = Some e /\ cell ∈ Tetris.cells e.
Proof.
  intros Hnd. rewrite (setCells_lookup 0 layout ∅ cell id Hnd). split.
  - intros [(k & e & Hk & -> & Hin)|[Hm _]]; [by exists e|by rewrite lookup_empty in Hm].
  - intros (e & He & Hin). left. by exists id, e.
Qed.

Lemma setAdd_elem (x y : nat) (s : list nat) : x ∈ setAdd y s <-> x = y \/ x ∈ s.
Proof.
  unfold setAdd. destruct (decide (y ∈ s)) as [Hin|Hnot].
  - split; [by right|]. by intros [->|?].
  - rewrite elem_of_app, list_elem_of_singleton. tauto.
Qed.

Lemma setHas_true (x : nat) (s : list nat) : setHas x s = true <-> x ∈ s.
Proof. unfold setHas. apply bool_decide_eq_true. Qed.

Lemma dependenciesOfEntry_spec (m : gmap (Z * Z) nat) (H id : nat) (cs : list Cell)
    (d : nat) :
  d ∈ dependenciesOfEntry m H id cs <->
  exists r c, (r, c) ∈ cs /\ r < Z.of_nat H - 1 /\ m !! (r + 1, c) = Some d /\ d <> id.
Proof.
  unfold dependenciesOfEntry.
  set (f := fun (deps : list nat) '(r, c) =>
              if r <? Z.of_nat H - 1 then
                match m !! (r + 1, c) with
                | Some belowId =>
                    if negb (belowId =? id)%nat then setAdd belowId deps else deps
                | None => deps
                end
              else deps).
  assert (Hgen : forall (cs : list Cell) (acc : list nat),
            d ∈ fold_left f cs acc <->
            d ∈ acc \/
            exists r c, (r, c) ∈ cs /\ r < Z.of_nat H - 1 /\
                        m !! (r + 1, c) = Some d /\ d <> id).
  { clear cs. induction cs as [|[r c] cs IH]; intros acc; cbn [fold_left].
    - split; [by left|]. intros [?|(r & c & Hin & _)]; [done|by apply elem_of_nil in Hin].
    - rewrite IH. split.
      + intros [Hacc|(r' & c' & Hin & Hrest)].
        * unfold f in Hacc.
          destruct (Z.ltb_spec r (Z.of_nat H - 1)) as [Hr|Hr]; [|by left].
          destruct (m !! (r + 1, c)) as [b|] eqn:Hm; [|by left].
          destruct (Nat.eqb_spec b id) as [Heq|Hne]; cbn [negb] in Hacc; [by left|].
          apply setAdd_elem in Hacc as [->|Hacc]; [|by left].
          right. exists r, c. split; [by left|done].
        * right. exists r', c'. split; [by right|done].
      + intros [Hacc|(r' & c' & [[= -> ->]|Hin]%elem_of_cons & Hr & Hm & Hne)].
        * left. unfold f.
          destruct (r <? Z.of_nat H - 1); [|done].
          destruct (m !! (r + 1, c)) as [b|]; [|done].
          destruct (negb (b =? id)%nat); [|done]. apply setAdd_elem. by right.
        * left. unfold f. destruct (Z.ltb_spec r (Z.of_nat H - 1)); [|lia].
          rewrite Hm. destruct (Nat.eqb_spec d id); [done|]. cbn [negb].
          apply setAdd_elem. by left.
        * right. by exists r', c'. }
  rewrite Hgen. split; [intros [?%elem_of_nil|?]; done|by right].
Qed.

Lemma buildDependencies_lookup (m : gmap (Z * Z) nat) (H start : nat)
    (entries : list LayoutPiece) (k : nat) :
  buildDependencies m H start entries !! k
  = (fun e => dependenciesOfEntry m H (start + k) (Tetris.cells e)) <$> entries !! k.
Proof.
  revert start k. induction entries as [|e entries IH]; intros start k; [done|].
  destruct k as [|k]; cbn [buildDependencies].
  - cbn. by rewrite Nat.add_0_r.
  - change ((e :: entries) !! S k) with (entries !! k).
    change ((dependenciesOfEntry m H start (Tetris.cells e)
             :: buildDependencies m H (S start) entries) !! S k)
      with (buildDependencies m H (S start) entries !! k).
    rewrite (IH (S start) k).
    destruct (entries !! k); cbn; [|done]. do 2 f_equal. lia.
Qed.

(** The set [dependencies.get(id)] of a grounded layout holds the entries
    right under the entry [id]. *)
Lemma dependencies_spec (W H : nat) (layout : list LayoutPiece) (id : nat)
    (e : LayoutPiece) (d : nat) :
  groundedLayout W H layout -> layout !! id = Some e ->
  d ∈ default [] (buildDependencies (setCells 0 layout ∅) H 0 layout !! id)
  <-> directlyBelow layout d id.
Proof.
  intros Hlayout He. pose proof Hlayout as (_ & Hnd & Hfield & _).
  rewrite buildDependencies_lookup, He.
  change (d ∈ dependenciesOfEntry (setCells 0 layout ∅) H id (Tetris.cells e)
          <-> directlyBelow layout d id).
  rewrite dependenciesOfEntry_spec. split.
  - intros (r & c & Hin & Hr & Hm & Hne).
    apply (cellToPiece_spec layout _ _ Hnd) in Hm as (eb & Hb & Hunder).
    split; [done|]. by exists e, eb, r, c.
  - intros (Hne & ea & eb & r & c & Ha & Hb & Hin & Hunder).
    assert (ea = e) by congruence. subst ea.
    exists r, c. split; [done|]. split; [|split; [|done]].
    + assert (Hf : inField W H (r + 1, c)).
      { apply Hfield, allCells_lookup. by exists d, eb. }
      destruct Hf as [Hrow _]. cbn in Hrow. lia.
    + apply (cellToPiece_spec layout _ _ Hnd). by exists eb.
Qed.

(** *** The loop *)

Lemma remainingAfter_elem (n : nat) (order : list nat) (id : nat) :
  id ∈ remainingAfter n order <-> (id < n)%nat /\ id ∉ order.
Proof.
  unfold remainingAfter. rewrite list_elem_of_In, filter_In, <- list_elem_of_In.
  rewrite elem_of_seq, negb_true_iff, bool_decide_eq_false.
  split; intros [Hn Ho]; (split; [lia|done]).
Qed.

Lemma filter_filter_ext {A : Type} (f g h : A -> bool) (l : list A) :
  (forall x, h x = f x && g x) ->
  List.filter g (List.filter f l) = List.filter h l.
Proof.
  intros Hh. induction l as [|x l IH]; [done|]. cbn [List.filter].
  rewrite Hh. destruct (f x); cbn [andb List.filter]; [|done].
  destruct (g x); by rewrite IH.
Qed.

Lemma remainingAfter_delete (n : nat) (order : list nat) (id : nat) :
  setDelete id (remainingAfter n order) = remainingAfter n (order ++ [id]).
Proof.
  unfold setDelete, remainingAfter. apply filter_filter_ext. intros x.
  destruct (Nat.eqb_spec x id) as [->|Hne]; cbn [negb].
  - rewrite andb_false_r. apply negb_false_iff, bool_decide_eq_true.
    apply elem_of_app. right. by left.
  - rewrite andb_true_r. f_equal. apply bool_decide_ext.
    rewrite elem_of_app, list_elem_of_singleton. tauto.
Qed.

Lemma filter_length_lt {A : Type} (g : A -> bool) (l : list A) (x : A) :
  In x l -> g x = false -> (length (List.filter g l) < length l)%nat.
Proof.
  intros Hin Hx. induction l as [|y l IH]; [done|]. cbn [List.filter length].
  assert (Hle : (length (List.filter g l) <= length l)%nat).
  { clear. induction l as [|z l IH]; cbn; [lia|]. destruct (g z); cbn; lia. }
  destruct Hin as [->|Hin].
  - rewrite Hx. lia.
  - specialize (IH Hin). destruct (g y); cbn [length]; lia.
Qed.

Lemma filter_seq_head (f : nat -> bool) (start n x : nat) (rest : list nat) :
  List.filter f (seq start n) = x :: rest ->
  forall y, (start <= y < x)%nat -> f y = false.
Proof.
  revert start. induction n as [|n IH]; intros start; cbn [seq List.filter]; [done|].
  destruct (f start) eqn:Hf.
  - intros [= <- _] y Hy. lia.
  - intros Hrest y Hy. destruct (decide (y = start)) as [->|Hne]; [done|].
    apply (IH _ Hrest). split; [lia|]. lia.
Qed.

Lemma remainingAfter_done (n : nat) (order : list nat) :
  remainingAfter n order = [] -> NoDup order ->
  (forall id, id ∈ order -> (id < n)%nat) ->
  order ≡ₚ seq 0 n.
Proof.
  intros Hempty Hnd Hlt. apply NoDup_Permutation; [done|apply NoDup_seq|].
  intros id. rewrite elem_of_seq. split; [intros Hin; specialize (Hlt id Hin); lia|].
  intros Hid. destruct (decide (id ∈ order)) as [Hin|Hout]; [done|]. exfalso.
  assert (Hrem : id ∈ remainingAfter n order) by (apply remainingAfter_elem; split; [lia|done]).
  rewrite Hempty in Hrem. by apply elem_of_nil in Hrem.
Qed.

Section Order.
Variable renderPieceImage : LayoutPiece -> string * Q * Q.
Variable arraySort :
  forall (A St : Type), (A -> A -> St -> Q * St) -> list A -> St -> list A * St.
Hypothesis arraySort_permutes : sortPermutes arraySort.
Variables (W H : nat) (layout : list LayoutPiece) (seed : Z).
Hypothesis Hlayout : groundedLayout W H layout.

Let pieces : list Piece := piecesWithCells renderPieceImage W layout seed.
Let dependencies : list (list nat) :=
  buildDependencies (setCells 0 layout ∅) H 0 layout.

Lemma pieces_lookup (id : nat) :
  (id < length layout)%nat ->
  exists piece entry,
    pieces !! id = Some piece /\ layout !! id = Some entry /\
    validRotation (rotation piece).
Proof.
  intros Hid. destruct Hlayout as (Hshapes & _).
  pose proof (mapCreatePiece_builtFor renderPieceImage W layout
                (mulberry32 (seed + 12345)) Hshapes) as Hbuilt.
  destruct (lookup_lt_is_Some_2 layout id Hid) as [entry He].
  destruct (Forall2_lookup_l _ _ _ _ _ Hbuilt He) as (piece & Hp & Hb).
  exists piece, entry. split; [done|]. split; [done|].
  by destruct Hb as (_ & _ & _ & Hr & _).
Qed.

Lemma firstReachable_spec (ready : list nat) (field : Grid) :
  wfGrid W H field ->
  (forall id, id ∈ ready -> (id < length layout)%nat) ->
  exists found,
    firstReachable ready pieces field W H = Some (Normal found) /\
    forall id, found = Some id -> id ∈ ready.
Proof.
  intros Hwf. induction ready as [|id ready IH]; intros Hids.
  - exists None. by split.
  - cbn [firstReachable].
    destruct (pieces_lookup id) as (piece & entry & -> & _ & Hr); [apply Hids; by left|].
    destruct (canReachTargetPosition_spec W H field piece Hwf Hr) as (b & -> & _).
    destruct b.
    + exists (Some id). split; [done|]. intros ? [= <-]. by left.
    + destruct IH as (found & -> & Hfound); [intros x Hx; apply Hids; by right|].
      exists found. split; [done|]. intros x Hx. right. by apply Hfound.
Qed.

Lemma entry_cells_inside (id : nat) (entry : LayoutPiece) :
  layout !! id = Some entry ->
  forall cell, cell ∈ Tetris.cells entry -> inField W H cell.
Proof.
  intros He cell Hc. destruct Hlayout as (_ & _ & Hfield & _).
  apply Hfield, allCells_lookup. by exists id, entry.
Qed.

Lemma orderLoop_spec (turns : nat) (order : list nat) (st : OrderState) :
  orderInv W H layout pieces order st ->
  (length (remaining st) <= turns)%nat ->
  exists order' res,
    orderLoop arraySort turns layout pieces dependencies W H st = Some (Normal res) /\
    Forall2 (fun id piece => pieces !! id = Some piece) order' res /\
    order' ≡ₚ seq 0 (length layout) /\
    belowFirst layout order'.
Proof.
  revert order st. induction turns as [|turns IH]; intros order st Hinv Hturns.
  { destruct Hinv as (Hres & Hplaced & Hnd & Hlt & Hrem & Hwf & Hbelow).
    destruct (remaining st) as [|x rest] eqn:Hr; [|cbn in Hturns; lia].
    exists order, (result st). cbn [orderLoop]. rewrite Hr.
    split; [done|]. split; [done|]. split; [|done].
    apply remainingAfter_done; [congruence|done|done]. }
  destruct Hinv as (Hres & Hplaced & Hnd & Hlt & Hrem & Hwf & Hbelow).
  cbn [orderLoop]. destruct (remaining st) as [|id0 rest] eqn:Hr.
  { exists order, (result st). split; [done|]. split; [done|]. split; [|done].
    apply remainingAfter_done; [congruence|done|done]. }
  set (readyPred := fun id : nat =>
         forallb (fun depId => setHas depId (placed st))
                 (default [] (dependencies !! id))).
  assert (Hready : forall id, id ∈ id0 :: rest -> readyPred id = true <->
            forall below, directlyBelow layout below id -> below ∈ order).
  { intros id Hid. rewrite Hrem in Hid.
    apply remainingAfter_elem in Hid as [Hidn _].
    destruct (lookup_lt_is_Some_2 layout id Hidn) as [e He].
    unfold readyPred. rewrite forallb_forall. split.
    - intros Hall below Hb. apply Hplaced, setHas_true, Hall, list_elem_of_In.
      by apply (dependencies_spec W H layout id e below Hlayout He).
    - intros Hall d Hd. apply setHas_true, Hplaced, Hall.
      apply (dependencies_spec W H layout id e d Hlayout He). by apply list_elem_of_In. }
  assert (Hfirst : readyPred id0 = true).
  { apply Hready; [by left|]. intros below Hb.
    pose proof (directlyBelow_earlier W H layout below id0 Hlayout Hb) as Hearlier.
    assert (Hf : negb (bool_decide (below ∈ order)) = false).
    { pose proof Hrem as Hf0. symmetry in Hf0. unfold remainingAfter in Hf0.
      apply (filter_seq_head _ _ _ _ _ Hf0). lia. }
    apply negb_false_iff, bool_decide_eq_true in Hf. done. }
  destruct (List.filter readyPred (id0 :: rest)) as [|r0 ready0] eqn:Hfilter.
  { exfalso. cbn [List.filter] in Hfilter. by rewrite Hfirst in Hfilter. }
  set (ready := fst (arraySort nat unit (readyOrder layout) (r0 :: ready0) tt)).
  assert (Hperm : ready ≡ₚ r0 :: ready0) by apply arraySort_permutes.
  assert (Hin : forall id, id ∈ ready -> id ∈ id0 :: rest /\ readyPred id = true).
  { intros id Hid. rewrite Hperm, <- Hfilter in Hid.
    apply list_elem_of_In, filter_In in Hid as [Hid Hp].
    split; [by apply list_elem_of_In|done]. }
  assert (Hidn : forall id, id ∈ ready -> (id < length layout)%nat).
  { intros id Hid. destruct (Hin id Hid) as [Hrest _].
    rewrite Hrem in Hrest. by apply remainingAfter_elem in Hrest as [? _]. }
  destruct (firstReachable_spec ready (simulatedField st) Hwf Hidn)
    as (found & -> & Hfound).
  assert (Hchoice : exists id,
            match found with Some id => Some id | None => ready !! 0%nat end = Some id /\
            id ∈ ready).
  { destruct found as [id|]; [exists id; split; [done|by apply Hfound]|].
    destruct ready as [|id ready']; [by apply Permutation_nil_cons in Hperm|].
    exists id. split; [done|by left]. }
  destruct Hchoice as (id & -> & Hid).
  destruct (Hin id Hid) as [Hidrem Hidready].
  destruct (pieces_lookup id (Hidn id Hid)) as (piece & entry & Hp & He & _).
  unfold placeEntry. rewrite Hp, He.
  rewrite (writeCells_inside W H (Tetris.cells entry) (simulatedField st) Hwf
             (entry_cells_inside id entry He)).
  assert (Hnew : id ∉ order).
  { pose proof Hidrem as Hrm. rewrite Hrem in Hrm.
    by apply remainingAfter_elem in Hrm as [_ ?]. }
  apply (IH (order ++ [id])).
  - split; [|split; [|split; [|split; [|split; [|split]]]]];
      cbn [result placed remaining simulatedField].
    + apply Forall2_app; [done|]. by constructor.
    + intros x. rewrite setAdd_elem, elem_of_app, list_elem_of_singleton, Hplaced. tauto.
    + apply NoDup_app. split; [done|]. split; [|apply NoDup_singleton].
      intros x Hx Hx'. apply list_elem_of_singleton in Hx'. by subst x.
    + intros x [Hx|Hx]%elem_of_app; [by apply Hlt|].
      apply list_elem_of_singleton in Hx. subst x. by apply Hidn.
    + rewrite Hr, Hrem. apply remainingAfter_delete.
    + apply (markCells_spec W H (Tetris.cells entry) (simulatedField st) Hwf
               (entry_cells_inside id entry He)).
    + intros k x Hk below Hb.
      destruct (decide (k < length order)%nat) as [Hlt'|Hge].
      * rewrite lookup_app_l in Hk by done.
        rewrite take_app_le by lia. by apply (Hbelow k x).
      * assert (k = length order).
        { apply lookup_lt_Some in Hk. rewrite length_app in Hk. cbn in Hk. lia. }
        subst k. rewrite lookup_app_r in Hk by lia.
        rewrite Nat.sub_diag in Hk. injection Hk as <-.
        rewrite take_app_le by lia. rewrite take_ge by lia.
        by apply (Hready id Hidrem).
  - cbn [remaining]. rewrite Hr.
    assert (Hlen : (length (setDelete id (id0 :: rest)) < length (id0 :: rest))%nat).
    { unfold setDelete. apply (filter_length_lt _ _ id).
      - by apply list_elem_of_In.
      - by rewrite Nat.eqb_refl. }
    cbn [length] in *. lia.
Qed.

(** The pieces [createPiecesFromLayout] returns for a grounded layout. *)
Lemma createPiecesFromLayout_spec :
  exists order res,
    createPiecesFromLayout renderPieceImage arraySort layout W H seed
      = Some (Normal res) /\
    Forall2 (fun id piece => pieces !! id = Some piece) order res /\
    order ≡ₚ seq 0 (length layout) /\
    belowFirst layout order.
Proof.
  unfold createPiecesFromLayout. cbn zeta. fold pieces. fold dependencies.
  apply (orderLoop_spec (length layout) []).
  - split; [constructor|]. cbn [result placed remaining simulatedField].
    split; [done|]. split; [constructor|].
    split; [by intros id ?%elem_of_nil|]. split.
    { unfold remainingAfter. induction (seq 0 (length layout)) as [|x l IHl]; [done|].
      cbn [List.filter]. rewrite bool_decide_eq_false_2 by (by intros ?%elem_of_nil).
      cbn [negb]. by rewrite <- IHl. }
    split; [apply wfGrid_empty|]. by intros k id Hk.
  - cbn [remaining]. by rewrite length_seq.
Qed.

End Order.

Lemma sortPermutes_keeps
    (arraySort : forall (A St : Type),
        (A -> A -> St -> Q * St) -> list A -> St -> list A * St) :
  sortPermutes arraySort -> sortKeepsElements arraySort.
Proof. intros Hp A St cmp xs s x Hx. by rewrite (Hp A St cmp xs s) in Hx. Qed.

Lemma insertSorted_Permutation {A St : Type} (cmp : A -> A -> St -> Q * St)
    (x : A) (sorted : list A) (s : St) :
  fst (insertSorted cmp x sorted s) ≡ₚ x :: sorted.
Proof.
  revert s. induction sorted as [|y rest IH]; intros s; cbn [insertSorted]; [done|].
  destruct (cmp x y s) as [v s1]. destruct (Qle_bool v 0); [done|].
  specialize (IH s1). destruct (insertSorted cmp x rest s1) as [rest' s2].
  cbn [fst] in *. rewrite IH. apply Permutation_swap.
Qed.

Lemma insertionSort_permutes : sortPermutes insertionSort.
Proof.
  intros A St cmp xs s. induction xs as [|x rest IH]; cbn [insertionSort]; [done|].
  destruct (insertionSort A St cmp rest s) as [sorted s1]. cbn [fst] in IH.
  rewrite insertSorted_Permutation. by rewrite IH.
Qed.

(** The layouts of the game's field are grounded layouts. *)
Lemma generatePieceLayout_groundedLayout
    (arraySort : forall (A St : Type),
        (A -> A -> St -> Q * St) -> list A -> St -> list A * St)
    (seed : Z) :
  sortKeepsElements arraySort ->
  exists layout,
    generatePieceLayout arraySort 10 16 seed = Normal layout /\
    groundedLayout 10 16 layout /\ length layout = 40%nat.
Proof.
  intros Hsort.
  destruct (generatePieceLayout_10_16 arraySort seed Hsort) as (ps & Hps & Hpart & Hg).
  destruct (generatePieceLayout_layout arraySort 10 16 seed Hsort)
    as (ps' & Hps' & Hnd & Hin & Hsh).
  assert (ps' = ps) by congruence. subst ps'.
  exists ps. split; [done|]. split; [by split|].
  assert (Hfour : Forall (fun p => length (Tetris.cells p) = 4%nat) ps).
  { eapply Forall_impl; [exact Hsh|]. intros p Hp. by apply isTableShape_cells. }
  pose proof (allCells_length ps Hfour) as Hlen.
  rewrite (partition_cells 10 16 ps Hpart) in Hlen. lia.
Qed.

(** X30. [createPiecesFromLayout] ends, without throwing, for every
    layout of table shapes that do not overlap, lie in the field and are
    each grounded on those before it: it returns the pieces built for the
    entries, each once, in an order in which every piece comes after the
    pieces that have a cell right under one of its cells.  For the 10 by 16
    field of the game and every seed, [createGameState] therefore returns a
    state with 40 pieces in all, the first of them as the current piece and
    the other 39 waiting, on an empty field with nothing placed. *)
Theorem createGameState_deals (renderPieceImage : LayoutPiece -> string * Q * Q)
    (arraySort : forall (A St : Type),
        (A -> A -> St -> Q * St) -> list A -> St -> list A * St)
    (url : option string) (seed : Z) :
  sortPermutes arraySort ->
  (forall (W H : nat) (layout : list LayoutPiece) (s : Z),
     groundedLayout W H layout ->
     exists order pieces,
       createPiecesFromLayout renderPieceImage arraySort layout W H s
         = Some (Normal pieces) /\
       order ≡ₚ seq 0 (length layout) /\
       Forall2 (fun id piece =>
                  piecesWithCells renderPieceImage W layout s !! id = Some piece)
               order pieces /\
       belowFirst layout order) /\
  exists layout pieces first state,
    generatePieceLayout arraySort 10 16 seed = Normal layout /\
    createPiecesFromLayout renderPieceImage arraySort layout 10 16 seed
      = Some (Normal pieces) /\
    createGameState renderPieceImage arraySort 10 16 url seed = Some (Normal state) /\
    totalPieces state = 40%nat /\
    currentPiece state = Some first /\
    pieces = first :: nextPieces state /\
    length (nextPieces state) = 39%nat /\
    occupiedCells state = emptyGrid 10 16 /\
    placedPieces state = [] /\ piecesPlaced state = 0%nat /\
    isGameOver state = false /\ isWon state = false.
Proof.
  intros Hsort.
  assert (Hgen : forall (W H : nat) (layout : list LayoutPiece) (s : Z),
     groundedLayout W H layout ->
     exists order pieces,
       createPiecesFromLayout renderPieceImage arraySort layout W H s
         = Some (Normal pieces) /\
       order ≡ₚ seq 0 (length layout) /\
       Forall2 (fun id piece =>
                  piecesWithCells renderPieceImage W layout s !! id = Some piece)
               order pieces /\
       belowFirst layout order).
  { intros W H layout s Hlayout.
    destruct (createPiecesFromLayout_spec renderPieceImage arraySort Hsort
                W H layout s Hlayout) as (order & res & Hc & Hf & Hp & Hb).
    by exists order, res. }
  split; [exact Hgen|].
  destruct (generatePieceLayout_groundedLayout arraySort seed
              (sortPermutes_keeps arraySort Hsort)) as (layout & Hl & Hgl & Hlen).
  destruct (Hgen 10%nat 16%nat layout seed Hgl) as (order & pieces & Hc & Hp & Hf & _).
  assert (Hplen : length pieces = 40%nat).
  { rewrite <- (Forall2_length _ _ _ Hf), (Permutation_length Hp), length_seq. done. }
  destruct pieces as [|first rest]; [done|].
  exists layout, (first :: rest), first.
  unfold createGameState. rewrite Hl, Hc. eexists.
  split; [done|]. split; [done|]. split; [done|].
  cbn [totalPieces currentPiece nextPieces occupiedCells placedPieces piecesPlaced
       isGameOver isWon head tail].
  split; [done|]. split; [done|]. split; [done|].
  split; [cbn in Hplen; lia|]. done.
Qed.

Lemma createGameState_deals_witness :
  sortPermutes insertionSort /\
  (forall (W H : nat) (layout : list LayoutPiece) (s : Z),
     groundedLayout W H layout ->
     exists order pieces,
       createPiecesFromLayout (fun _ => ("", 0%Q, 0%Q)) insertionSort layout W H s
         = Some (Normal pieces) /\
       order ≡ₚ seq 0 (length layout) /\
       Forall2 (fun id piece =>
                  piecesWithCells (fun _ => ("", 0%Q, 0%Q)) W layout s !! id = Some piece)
               order pieces /\
       belowFirst layout order) /\
  exists layout pieces first state,
    generatePieceLayout insertionSort 10 16 4 = Normal layout /\
    createPiecesFromLayout (fun _ => ("", 0%Q, 0%Q)) insertionSort layout 10 16 4
      = Some (Normal pieces) /\
    createGameState (fun _ => ("", 0%Q, 0%Q)) insertionSort 10 16 None 4
      = Some (Normal state) /\
    totalPieces state = 40%nat /\
    currentPiece state = Some first /\
    pieces = first :: nextPieces state /\
    length (nextPieces state) = 39%nat /\
    occupiedCells state = emptyGrid 10 16 /\
    placedPieces state = [] /\ piecesPlaced state = 0%nat /\
    isGameOver state = false /\ isWon state = false.
Proof.
  split; [exact insertionSort_permutes|].
  exact (createGameState_deals (fun _ => ("", 0%Q, 0%Q)) insertionSort None 4
           insertionSort_permutes).
Defined.

End TetrisOrderFacts.
